(** * XL scanner: names, error sink and the scanner state machine

    A shallow embedding of [name.c], [error.c], the typed stacks of
    [blob.h] and [scanner.c], with the properties of the lexical core
    stated and proved over it.

    Conventions used throughout.
    - A byte in memory is a [Z] in [0, 256).  A [char] loaded into an
      [int] is sign-extended ([char_of_byte]): [char] is signed on the
      x86 targets of the project.  Storing an [int] into a [char] keeps
      its low eight bits ([byte_of_int]).
    - [unsigned] is 32 bits, [unsigned long long] 64 bits; their
      wrap-around is written out with [u32] and [u64].
    - [<ctype.h>] is the one of the "C" locale, false outside ASCII.
    - A failed [assert] and a read outside an array stop the program:
      they are the [Crash] results of the [result] type. *)

From Stdlib Require Import ZArith List Bool String Ascii Lia.
Import ListNotations.
Local Open Scope Z_scope.
Local Open Scope list_scope.
#[local] Abbreviation length := Datatypes.length.

(* ====================================================================== *)
(** ** Characters and bytes *)
(* ====================================================================== *)

Definition byte_of_int (c : Z) : Z := c mod 256.

Definition char_of_byte (b : Z) : Z := if b <? 128 then b else b - 256.

Definition u32 (x : Z) : Z := x mod 2 ^ 32.
Definition u64 (x : Z) : Z := x mod 2 ^ 64.

Definition EOF : Z := -1.

Definition code (a : ascii) : Z := Z.of_N (N_of_ascii a).

Fixpoint str (s : string) : list Z :=
  match s with
  | EmptyString => []
  | String a rest => code a :: str rest
  end.

Definition c_newline    : Z := 10.
Definition c_tab        : Z := 9.
Definition c_backspace  : Z := 8.
Definition c_space      : Z := Eval cbv in code " ".
Definition c_underscore : Z := Eval cbv in code "_".
Definition c_dollar     : Z := Eval cbv in code "$".
Definition c_hash       : Z := Eval cbv in code "#".
Definition c_dot        : Z := Eval cbv in code ".".
Definition c_equal      : Z := Eval cbv in code "=".
Definition c_plus       : Z := Eval cbv in code "+".
Definition c_minus      : Z := Eval cbv in code "-".
Definition c_slash      : Z := Eval cbv in code "/".
Definition c_e          : Z := Eval cbv in code "e".
Definition c_E          : Z := Eval cbv in code "E".
Definition c_quote      : Z := 39.
Definition c_dquote     : Z := 34.

(** The line feed as a one-character string, to spell inputs. *)
Definition NL : string := String (ascii_of_nat 10) EmptyString.

Module Ctype.

Definition between (lo hi c : Z) : bool := (lo <=? c) && (c <=? hi).

Definition isdigit (c : Z) : bool := between 48 57 c.
Definition isupper (c : Z) : bool := between 65 90 c.
Definition islower (c : Z) : bool := between 97 122 c.
Definition isalpha (c : Z) : bool := isupper c || islower c.
Definition isalnum (c : Z) : bool := isalpha c || isdigit c.
Definition isspace (c : Z) : bool := (c =? 32) || between 9 13 c.
Definition ispunct (c : Z) : bool :=
  between 33 47 c || between 58 64 c || between 91 96 c || between 123 126 c.
Definition tolower (c : Z) : Z := if isupper c then c + 32 else c.

End Ctype.
Import Ctype.

(** Turns the boolean character tests of the context and of the goal
    into linear arithmetic. *)
Ltac ctype_unfold :=
  unfold tolower, isalnum, isalpha, isdigit, isupper, islower, isspace,
    ispunct, between, char_of_byte, byte_of_int,
    c_underscore, c_newline, c_tab, c_backspace in *.

Ltac bool_to_Z :=
  repeat match goal with
    | H : _ && _ = true |- _ => apply andb_true_iff in H; destruct H
    | H : _ || _ = true |- _ => apply orb_true_iff in H; destruct H
    | H : _ && _ = false |- _ => apply andb_false_iff in H; destruct H
    | H : _ || _ = false |- _ => apply orb_false_iff in H; destruct H
    | H : negb _ = true |- _ => apply negb_true_iff in H
    | H : negb _ = false |- _ => apply negb_false_iff in H
    | H : (_ <=? _) = true |- _ => apply Z.leb_le in H
    | H : (_ <=? _) = false |- _ => apply Z.leb_gt in H
    | H : (_ <? _) = true |- _ => apply Z.ltb_lt in H
    | H : (_ <? _) = false |- _ => apply Z.ltb_ge in H
    | H : (_ =? _) = true |- _ => apply Z.eqb_eq in H
    | H : (_ =? _) = false |- _ => apply Z.eqb_neq in H
    end.

Ltac bool_goal :=
  repeat first
    [ rewrite orb_true_iff | rewrite andb_true_iff
    | rewrite orb_false_iff | rewrite andb_false_iff
    | rewrite negb_true_iff | rewrite negb_false_iff
    | rewrite Z.leb_le | rewrite Z.leb_gt
    | rewrite Z.ltb_lt | rewrite Z.ltb_ge
    | rewrite Z.eqb_eq | rewrite Z.eqb_neq ].

Ltac ctype_solve := ctype_unfold; bool_to_Z; bool_goal; lia.

(* ====================================================================== *)
(** ** Results of fallible code *)
(* ====================================================================== *)

Inductive fault : Type :=
| UndefinedBehaviour (what : string)   (* a read outside an object *)
| AssertionFailed (msg : string)       (* a failed [assert] *)
| OutOfFuel.                           (* the bound of a loop of the model *)

Inductive result (A : Type) : Type :=
| Ok (a : A)
| Crash (f : fault).
Arguments Ok {A} a.
Arguments Crash {A} f.

Definition rbind {A B} (r : result A) (k : A -> result B) : result B :=
  match r with
  | Ok a => k a
  | Crash f => Crash f
  end.

Definition assert (b : bool) (msg : string) : result unit :=
  if b then Ok tt else Crash (AssertionFailed msg).

(* ====================================================================== *)
(** ** Trees that carry bytes: blob, text, name ([blob.h], [name.c]) *)
(* ====================================================================== *)

(** The handler of a tree is its dynamic type. *)
Inductive handler : Type :=
| blob_handler | text_handler | name_handler.

(** A blob: the base tree (handler, position) and the bytes that follow
    it; [blob_length] is the length of [blob_data].  Texts and names
    have the same representation, which [scanner_normalize] relies on. *)
Record blob_t : Type := mkblob {
  tree_handler  : handler;
  tree_position : Z;
  blob_data     : list Z
}.

Definition blob_length (b : blob_t) : nat := length (blob_data b).

Definition blob_new (pos : Z) (data : list Z) : blob_t :=
  mkblob blob_handler pos data.
Definition text_new (pos : Z) (data : list Z) : blob_t :=
  mkblob text_handler pos data.

(** Modelled from the spec: [blob_append_data] and [blob_range] are in
    blob.c, outside the sources.  "blob_append_data appends";
    "blob_range(&b, start, len) narrows b to the given byte sub-range". *)
Definition blob_append_data (b : blob_t) (data : list Z) : blob_t :=
  mkblob (tree_handler b) (tree_position b) (blob_data b ++ data).

Definition blob_range (b : blob_t) (start len : nat) : blob_t :=
  mkblob (tree_handler b) (tree_position b)
    (firstn len (skipn start (blob_data b))).

Module Name.

(** [while (size--) if (!ispunct( *data++)) return false; return true;] *)
Fixpoint valid_operator (data : list Z) : bool :=
  match data with
  | [] => true
  | d :: rest =>
      if negb (ispunct (char_of_byte d)) then false else valid_operator rest
  end.

(** The loop of the alphabetic case, [had_underscore] being its state. *)
Fixpoint valid_alpha (had_underscore : bool) (data : list Z) : bool :=
  match data with
  | [] => true
  | d :: rest =>
      let c := char_of_byte d in
      if (c =? c_underscore) && had_underscore then false
      else
        let had_underscore := c =? c_underscore in
        if negb had_underscore && negb (isalnum c) then false
        else valid_alpha had_underscore rest
  end.

(** [name_is_valid(size, data)], on the [size] bytes at [data]. *)
Definition name_is_valid (data : list Z) : bool :=
  match data with
  | [] => false
  | d :: rest =>
      let c := char_of_byte d in
      if ispunct c then valid_operator data
      else if isalpha c then valid_alpha true data
      else
        match rest with
        | [] => (c =? c_newline) || (c =? c_tab) || (c =? c_backspace)
        | _ => false
        end
  end.

(** [name_new(pos, size, data)]: the [TREE_INITIALIZE] case of
    [name_handler] checks the bytes and copies them. *)
Definition name_new (pos : Z) (data : list Z) : result blob_t :=
  rbind (assert (name_is_valid data) "Name must respect XL syntax")
        (fun _ => Ok (mkblob name_handler pos data)).

(** Two underscores in a row somewhere in the bytes. *)
Fixpoint has_double_underscore (data : list Z) : bool :=
  match data with
  | a :: (b :: _) as rest =>
      ((char_of_byte a =? c_underscore) && (char_of_byte b =? c_underscore))
      || has_double_underscore rest
  | _ => false
  end.

(** A byte allowed after the first one of an alphabetic name. *)
Definition name_byte (b : Z) : bool :=
  isalnum (char_of_byte b) || (char_of_byte b =? c_underscore).

(** The shape of a valid name, by the class of its first byte. *)
Inductive name_class (src : list Z) : Prop :=
| class_operator :
    src <> [] -> forallb (fun b => ispunct (char_of_byte b)) src = true ->
    name_class src
| class_alpha d rest :
    src = d :: rest -> isalpha (char_of_byte d) = true ->
    forallb name_byte rest = true -> has_double_underscore src = false ->
    name_class src
| class_marker d :
    src = [d] ->
    char_of_byte d = c_newline \/ char_of_byte d = c_tab
      \/ char_of_byte d = c_backspace ->
    name_class src.

(** [name_is_operator(name)]: [ispunct( *name_data(name))], a read of
    the first byte of the name. *)
Definition name_is_operator (name : blob_t) : result bool :=
  match blob_data name with
  | d :: _ => Ok (ispunct (char_of_byte d))
  | [] => Crash (UndefinedBehaviour "first byte of a name that has none")
  end.

End Name.
Import Name.

(* ====================================================================== *)
(** ** Name normalization ([scanner_normalize]) *)
(* ====================================================================== *)

Module Normalize.

(** The first loop: [normalized] is overwritten by each byte, and
    [normalized_size] counts the bytes that are not underscores. *)
Definition scan_step (acc : bool * nat) (b : Z) : bool * nat :=
  let c := char_of_byte b in
  let relevant := negb (c =? c_underscore) in
  (relevant && (c =? tolower c), (snd acc + if relevant then 1 else 0)%nat).

Definition scan (src : list Z) : bool * nat :=
  fold_left scan_step src (true, 0%nat).

(** [*dst = v], inside the bytes of the new name. *)
Definition store (out : list Z) (dst : nat) (v : Z) : result (list Z) :=
  if (dst <? length out)%nat
  then Ok (firstn dst out ++ v :: skipn (S dst) out)
  else Crash (UndefinedBehaviour "write past the end of the name").

(** The second loop: [if (c == '_') continue; *dst++ = tolower(c);]. *)
Fixpoint copy (src : list Z) (dst : nat) (out : list Z) : result (list Z) :=
  match src with
  | [] => Ok out
  | b :: rest =>
      let c := char_of_byte b in
      if c =? c_underscore then copy rest dst out
      else rbind (store out dst (byte_of_int (tolower c)))
                 (fun out => copy rest (S dst) out)
  end.

Definition scanner_normalize (input : blob_t) : result blob_t :=
  let src := blob_data input in
  rbind (assert (name_is_valid src) "Normalizing invalid name") (fun _ =>
  let '(normalized, normalized_size) := scan src in
  if normalized then
    (* force-cast of the text to a name *)
    Ok (mkblob name_handler (tree_position input) src)
  else
    rbind (name_new (tree_position input) (firstn normalized_size src))
      (fun result =>
    rbind (copy src 0 (blob_data result)) (fun data =>
    Ok (mkblob (tree_handler result) (tree_position result) data)))).

(** What normalization is meant to compute: underscores removed,
    letters in lower case. *)
Definition canonical (src : list Z) : list Z :=
  map (fun b => byte_of_int (tolower (char_of_byte b)))
      (filter (fun b => negb (char_of_byte b =? c_underscore)) src).

(** A byte that normalization keeps. *)
Definition relevant (b : Z) : bool := negb (char_of_byte b =? c_underscore).

(** A byte that the first loop finds normalized. *)
Definition settled (b : Z) : bool :=
  relevant b && (char_of_byte b =? tolower (char_of_byte b)).

(** The characters of a valid name are ASCII. *)
Definition ascii_byte (b : Z) : bool := between 0 127 (char_of_byte b).

End Normalize.
Import Normalize.

(* ====================================================================== *)
(** ** Typed blobs used as stacks ([blob_type] of [blob.h]) *)
(* ====================================================================== *)

Module TypedBlob.
Section Items.
Context {item : Type}.

(** [type##_length]: the number of items. *)
Definition length_of (t : list item) : nat := length t.

(** [type##_push]: [blob_append_data] of the bytes of one item. *)
Definition push (t : list item) (value : item) : list item := t ++ [value].

(** [type##_top]: [data[length - 1]].  On an empty blob the index is
    [(size_t) -1] and the read falls outside the data: no item is found
    there. *)
Definition top (t : list item) : result item :=
  match nth_error t (length t - 1) with
  | Some v => Ok v
  | None => Crash (UndefinedBehaviour "top of an empty stack")
  end.

(** [type##_pop]: asserts the blob is not empty, then
    [type##_range(type, 0, length - 1)]. *)
Definition pop (t : list item) : result (list item) :=
  rbind (assert (0 <? length t)%nat "Can only pop if non-empty")
        (fun _ => Ok (firstn (length t - 1) t)).

End Items.
End TypedBlob.

(* ====================================================================== *)
(** ** The error sink ([error.c]) *)
(* ====================================================================== *)

Module Errors.

(** Modelled from the spec: [text_vprintf] is in text.c, outside the
    sources.  "error(pos, fmt, ...) formats a message into a text node
    tagged with pos": the node is kept as its position and the format
    and arguments its bytes are printed from. *)
Inductive fmt_arg : Type :=
| arg_int (n : Z)
| arg_text (t : blob_t).

Record message : Type := mkmessage {
  message_position : Z;
  message_format   : string;
  message_args     : list fmt_arg
}.

Definition text_vprintf (pos : Z) (fmt : string) (va : list fmt_arg)
    : message :=
  mkmessage pos fmt va.

(** [static errors_p errors]: [None] is [NULL], otherwise the messages
    of the active buffer, oldest first.  [displayed] is what
    [error_display] has written to [stderr], oldest first. *)
Record sink_t : Type := mksink {
  errors    : option (list message);
  displayed : list message
}.

Definition error_display (err : message) (k : sink_t) : sink_t :=
  mksink (errors k) (displayed k ++ [err]).

(** Modelled from the spec: [array_type(text, errors)] comes from
    array.h, outside the sources; it generates for [errors] the
    operations [blob_type] generates in [blob.h], so [errors_push] and
    [errors_append] are [TypedBlob.push] and the append of the items. *)
Definition errors_push (buf : list message) (err : message) : list message :=
  TypedBlob.push buf err.
Definition errors_append (buf other : list message) : list message :=
  buf ++ other.

(** [for (e = 0; e < count; e++) error_display(errs[e]);] *)
Fixpoint display_all (errs : list message) (k : sink_t) : sink_t :=
  match errs with
  | [] => k
  | e :: rest => display_all rest (error_display e k)
  end.

(** [errors_display(&errors)]: displays the messages and disposes of the
    buffer, which leaves [NULL] in the holder. *)
Definition errors_display (k : sink_t) : result sink_t :=
  match errors k with
  | None => Crash (UndefinedBehaviour "length of a null errors buffer")
  | Some errs =>
      let k := display_all errs k in
      Ok (mksink None (displayed k))
  end.

Definition errorv (position : Z) (fmt : string) (va : list fmt_arg)
    (k : sink_t) : sink_t :=
  let err := text_vprintf position fmt va in
  match errors k with
  | Some buf => mksink (Some (errors_push buf err)) (displayed k)
  | None => error_display err k
  end.

Definition error := errorv.

(** Returns the previous buffer and installs an empty one. *)
Definition errors_save (k : sink_t) : option (list message) * sink_t :=
  (errors k, mksink (Some []) (displayed k)).

Definition errors_commit (saved_errors : option (list message))
    (k : sink_t) : result sink_t :=
  match saved_errors with
  | Some saved =>
      match errors k with
      | None => Crash (UndefinedBehaviour "append of a null errors buffer")
      | Some current =>
          Ok (mksink (Some (errors_append saved current)) (displayed k))
      end
  | None => errors_display k
  end.

Definition errors_clear (saved_errors : option (list message))
    (k : sink_t) : sink_t :=
  mksink saved_errors (displayed k).

Definition errors_count (k : sink_t) : result nat :=
  match errors k with
  | None => Crash (AssertionFailed "Cannot count errors if not recording them")
  | Some buf => Ok (TypedBlob.length_of buf)
  end.

(** A run of calls of [error], one for each message of [msgs] with its
    position, format and arguments, oldest first. *)
Definition error_each (msgs : list message) (k : sink_t) : sink_t :=
  fold_left
    (fun k m => error (message_position m) (message_format m) (message_args m) k)
    msgs k.

End Errors.

(* ====================================================================== *)
(** ** UTF-8 helpers *)
(* ====================================================================== *)

Module Utf8.

(** Modelled from the spec: utf8.h is outside the sources.  A name
    starts with a "UTF-8 alphabetic start" and goes on with
    "alphanumerics, _, and UTF-8 continuation bytes"; a character
    literal holds one scalar "by UTF-8 code-point count".  The tests
    look at the low eight bits of the character: a lead byte is in
    [0xC0, 0xFD], a continuation byte in [0x80, 0xBF]. *)
Definition utf8_is_first (c : Z) : bool := between 192 253 (byte_of_int c).
Definition utf8_is_next (c : Z) : bool := between 128 191 (byte_of_int c).
Definition utf8_isalpha (c : Z) : bool :=
  isalpha c || utf8_is_first c || utf8_is_next c.

(** Number of code points: the bytes that are not continuation bytes. *)
Definition utf8_length (data : list Z) : nat :=
  length (filter (fun b => negb (utf8_is_next b)) data).

(** Scalar value of the first code point. *)
Fixpoint utf8_next_bits (acc : Z) (data : list Z) : Z :=
  match data with
  | b :: rest =>
      if utf8_is_next b
      then utf8_next_bits (Z.lor (Z.shiftl acc 6) (Z.land b 63)) rest
      else acc
  | [] => acc
  end.

Definition utf8_code (data : list Z) : Z :=
  match data with
  | [] => 0
  | b :: rest =>
      if b <? 128 then b
      else if b <? 224 then utf8_next_bits (Z.land b 31) rest
      else if b <? 240 then utf8_next_bits (Z.land b 15) rest
      else utf8_next_bits (Z.land b 7) rest
  end.

End Utf8.
Import Utf8.

(* ====================================================================== *)
(** ** The scanner ([scanner.c]) *)
(* ====================================================================== *)

Module Scanner.

Inductive token_t : Type :=
| tokEOF | tokNEWLINE | tokINDENT | tokUNINDENT
| tokINTEGER | tokREAL | tokCHARACTER | tokTEXT | tokBLOB
| tokNAME | tokSYMBOL | tokOPEN | tokCLOSE | tokERROR.

(** A [double] is kept as the arithmetic that computes it: floating
    point is not interpreted. *)
Inductive double : Type :=
| d_of_int (n : Z)
| d_add (a b : double)
| d_mul (a b : double)
| d_div (a b : double).

(** The union [s->scanned], [scanned_none] when it holds [NULL]. *)
Inductive scanned_t : Type :=
| scanned_none
| scanned_natural (pos value : Z)
| scanned_real (pos : Z) (value : double)
| scanned_character (pos code : Z)
| scanned_text (t : blob_t)
| scanned_name (n : blob_t)
| scanned_blob (b : blob_t).

(** The two questions the scanner asks the syntax table.
    [syntax_is_block] gives the closing name when the name opens a
    block. *)
Record syntax_t : Type := mksyntax {
  syntax_is_operator : list Z -> bool;
  syntax_is_block    : list Z -> option blob_t
}.

Record scanner_t : Type := mkscanner {
  position         : Z;  (* [position(s->positions)] *)
  reader           : bool;  (* [s->reader != NULL] *)
  stream           : list Z;  (* the bytes the reader has yet to deliver *)
  syntax           : option syntax_t;  (* [None] in discovery mode *)
  source           : option blob_t;  (* spelling of the current token *)
  scanned          : scanned_t;  (* last value produced *)
  indents          : list Z;  (* columns of the open indentation levels *)
  block_close      : option blob_t;  (* closing name that is expected *)
  indent           : Z;  (* current indentation *)
  column           : Z;  (* column counted after a newline *)
  pending_char     : Z * Z;  (* the two cells; 0 is an empty cell *)
  indent_char      : Z;  (* space or tab, 0 when not yet known *)
  checking_indent  : bool;
  setting_indent   : bool;
  had_space_before : bool;
  had_space_after  : bool;
  sink             : Errors.sink_t  (* the statics of error.c, and stderr *)
}.

(** Assignment to one field. *)
Definition set_position (v : Z) (s : scanner_t) : scanner_t :=
  mkscanner v (reader s) (stream s) (syntax s) (source s) (scanned s)
    (indents s) (block_close s) (indent s) (column s) (pending_char s)
    (indent_char s) (checking_indent s) (setting_indent s)
    (had_space_before s) (had_space_after s) (sink s).
Definition set_reader (v : bool) (s : scanner_t) : scanner_t :=
  mkscanner (position s) v (stream s) (syntax s) (source s) (scanned s)
    (indents s) (block_close s) (indent s) (column s) (pending_char s)
    (indent_char s) (checking_indent s) (setting_indent s)
    (had_space_before s) (had_space_after s) (sink s).
Definition set_stream (v : list Z) (s : scanner_t) : scanner_t :=
  mkscanner (position s) (reader s) v (syntax s) (source s) (scanned s)
    (indents s) (block_close s) (indent s) (column s) (pending_char s)
    (indent_char s) (checking_indent s) (setting_indent s)
    (had_space_before s) (had_space_after s) (sink s).
Definition set_source (v : option blob_t) (s : scanner_t) : scanner_t :=
  mkscanner (position s) (reader s) (stream s) (syntax s) v (scanned s)
    (indents s) (block_close s) (indent s) (column s) (pending_char s)
    (indent_char s) (checking_indent s) (setting_indent s)
    (had_space_before s) (had_space_after s) (sink s).
Definition set_scanned (v : scanned_t) (s : scanner_t) : scanner_t :=
  mkscanner (position s) (reader s) (stream s) (syntax s) (source s) v
    (indents s) (block_close s) (indent s) (column s) (pending_char s)
    (indent_char s) (checking_indent s) (setting_indent s)
    (had_space_before s) (had_space_after s) (sink s).
Definition set_indents (v : list Z) (s : scanner_t) : scanner_t :=
  mkscanner (position s) (reader s) (stream s) (syntax s) (source s)
    (scanned s) v (block_close s) (indent s) (column s) (pending_char s)
    (indent_char s) (checking_indent s) (setting_indent s)
    (had_space_before s) (had_space_after s) (sink s).
Definition set_block_close (v : option blob_t) (s : scanner_t) : scanner_t :=
  mkscanner (position s) (reader s) (stream s) (syntax s) (source s)
    (scanned s) (indents s) v (indent s) (column s) (pending_char s)
    (indent_char s) (checking_indent s) (setting_indent s)
    (had_space_before s) (had_space_after s) (sink s).
Definition set_indent (v : Z) (s : scanner_t) : scanner_t :=
  mkscanner (position s) (reader s) (stream s) (syntax s) (source s)
    (scanned s) (indents s) (block_close s) v (column s) (pending_char s)
    (indent_char s) (checking_indent s) (setting_indent s)
    (had_space_before s) (had_space_after s) (sink s).
Definition set_column (v : Z) (s : scanner_t) : scanner_t :=
  mkscanner (position s) (reader s) (stream s) (syntax s) (source s)
    (scanned s) (indents s) (block_close s) (indent s) v (pending_char s)
    (indent_char s) (checking_indent s) (setting_indent s)
    (had_space_before s) (had_space_after s) (sink s).
Definition set_pending_char (v : Z * Z) (s : scanner_t) : scanner_t :=
  mkscanner (position s) (reader s) (stream s) (syntax s) (source s)
    (scanned s) (indents s) (block_close s) (indent s) (column s) v
    (indent_char s) (checking_indent s) (setting_indent s)
    (had_space_before s) (had_space_after s) (sink s).
Definition set_indent_char (v : Z) (s : scanner_t) : scanner_t :=
  mkscanner (position s) (reader s) (stream s) (syntax s) (source s)
    (scanned s) (indents s) (block_close s) (indent s) (column s)
    (pending_char s) v (checking_indent s) (setting_indent s)
    (had_space_before s) (had_space_after s) (sink s).
Definition set_checking_indent (v : bool) (s : scanner_t) : scanner_t :=
  mkscanner (position s) (reader s) (stream s) (syntax s) (source s)
    (scanned s) (indents s) (block_close s) (indent s) (column s)
    (pending_char s) (indent_char s) v (setting_indent s)
    (had_space_before s) (had_space_after s) (sink s).
Definition set_setting_indent (v : bool) (s : scanner_t) : scanner_t :=
  mkscanner (position s) (reader s) (stream s) (syntax s) (source s)
    (scanned s) (indents s) (block_close s) (indent s) (column s)
    (pending_char s) (indent_char s) (checking_indent s) v
    (had_space_before s) (had_space_after s) (sink s).
Definition set_had_space_before (v : bool) (s : scanner_t) : scanner_t :=
  mkscanner (position s) (reader s) (stream s) (syntax s) (source s)
    (scanned s) (indents s) (block_close s) (indent s) (column s)
    (pending_char s) (indent_char s) (checking_indent s)
    (setting_indent s) v (had_space_after s) (sink s).
Definition set_had_space_after (v : bool) (s : scanner_t) : scanner_t :=
  mkscanner (position s) (reader s) (stream s) (syntax s) (source s)
    (scanned s) (indents s) (block_close s) (indent s) (column s)
    (pending_char s) (indent_char s) (checking_indent s)
    (setting_indent s) (had_space_before s) v (sink s).
Definition set_sink (v : Errors.sink_t) (s : scanner_t) : scanner_t :=
  mkscanner (position s) (reader s) (stream s) (syntax s) (source s)
    (scanned s) (indents s) (block_close s) (indent s) (column s)
    (pending_char s) (indent_char s) (checking_indent s)
    (setting_indent s) (had_space_before s) (had_space_after s) v.

(** *** The state monad of the scanner, with crashes *)

Definition M (A : Type) : Type := scanner_t -> result (A * scanner_t).

Definition ret {A} (a : A) : M A := fun s => Ok (a, s).

Definition bind {A B} (m : M A) (k : A -> M B) : M B :=
  fun s => match m s with
           | Ok (a, s') => k a s'
           | Crash f => Crash f
           end.

Definition gets {A} (f : scanner_t -> A) : M A := fun s => Ok (f s, s).
Definition modify (f : scanner_t -> scanner_t) : M unit :=
  fun s => Ok (tt, f s).
Definition crash {A} (f : fault) : M A := fun _ => Crash f.
Definition lift {A} (r : result A) : M A :=
  fun s => match r with Ok a => Ok (a, s) | Crash f => Crash f end.
Definition when (b : bool) (m : M unit) : M unit := if b then m else ret tt.

Declare Scope scanner_scope.
Delimit Scope scanner_scope with scanner.
Notation "x <- m ;; k" := (bind m (fun x => k))
  (at level 61, m at next level, right associativity) : scanner_scope.
Notation "' p <- m ;; k" := (bind m (fun x => match x with p => k end))
  (at level 61, p pattern, m at next level, right associativity) : scanner_scope.
Notation "m ;; k" := (bind m (fun _ => k))
  (at level 61, right associativity) : scanner_scope.
Local Open Scope scanner_scope.

(** A [while] or [for(;;)] loop: the body either goes round again
    ([inl]) or leaves the loop ([inr]).  Every round of the loops below
    takes a character from the pending cells or from the stream, or
    meets the end of input and leaves, which bounds the rounds: [rounds]
    is more than a loop can make, as [scanner_read_bounded] shows. *)
Fixpoint loop {A B} (fuel : nat) (body : A -> M (A + B)) (a : A) : M B :=
  match fuel with
  | O => crash OutOfFuel
  | S fuel =>
      r <- body a ;;
      match r with
      | inl a => loop fuel body a
      | inr b => ret b
      end
  end.

Definition rounds (s : scanner_t) : nat := 2 * length (stream s) + 6.

Definition while {A B} (body : A -> M (A + B)) (a : A) : M B :=
  fun s => loop (rounds s) body a s.

(** *** Scanner management *)

Definition scanner_new (positions : Z) (syntax : option syntax_t)
    (sink : Errors.sink_t) : scanner_t :=
  mkscanner positions false [] syntax None scanned_none [] None 0 0 (0, 0) 0
    false false false false sink.

(** [scanner_open_stream]: the reader will deliver the bytes [data]. *)
Definition scanner_open_stream (data : list Z) : M unit :=
  rd <- gets reader ;;
  lift (assert (negb rd) "Cannot open a scanner that is already open") ;;
  modify (set_reader true) ;;
  modify (set_stream data).

(** *** Characters in and out *)

Definition scanner_getchar : M Z :=
  pending <- gets pending_char ;;
  let c := char_of_byte (fst pending) in
  if negb (c =? 0) then
    modify (set_pending_char (snd pending, 0)) ;;
    ret c
  else
    rd <- gets reader ;;
    if negb rd then ret EOF
    else
      data <- gets stream ;;
      match data with
      | [] => modify (set_reader false) ;; ret EOF
      | b :: rest => modify (set_stream rest) ;; ret (char_of_byte b)
      end.

Definition scanner_ungetchar (c : Z) : M unit :=
  pending <- gets pending_char ;;
  lift (assert (snd pending =? 0) "Max two pending char at a time") ;;
  modify (set_pending_char (byte_of_int c, fst pending)).

Definition scanner_position (s : scanner_t) : Z :=
  u32 (position s
       - (if fst (pending_char s) =? 0 then 0 else 1)
       - (if snd (pending_char s) =? 0 then 0 else 1)).

Definition text_append_char (c : Z) : M unit :=
  src <- gets source ;;
  match src with
  | Some t => modify (set_source (Some (blob_append_data t [byte_of_int c])))
  | None => crash (UndefinedBehaviour "append to a null text")
  end.

(** Modelled from the spec: [position_step] is in position.c, outside
    the sources; "step() (advance current position by 1)". *)
Definition position_step : M unit :=
  modify (fun s => set_position (u32 (position s + 1)) s).

Definition scanner_consume (c : Z) : M unit :=
  when (negb (byte_of_int c =? 0)) (text_append_char c) ;;
  position_step.

Definition scanner_nextchar (c : Z) : M Z :=
  scanner_consume c ;;
  scanner_getchar.

Definition error (pos : Z) (fmt : string) (va : list Errors.fmt_arg) : M unit :=
  modify (fun s => set_sink (Errors.error pos fmt va (sink s)) s).

Definition indents_top : M Z :=
  t <- gets indents ;; lift (TypedBlob.top t).

Definition indents_pop : M unit :=
  t <- gets indents ;;
  t <- lift (TypedBlob.pop t) ;;
  modify (set_indents t).

Definition indents_push (value : Z) : M unit :=
  modify (fun s => set_indents (TypedBlob.push (indents s) value) s).

(** [scanner_normalize(s->source)] *)
Definition normalize_source : M blob_t :=
  src <- gets source ;;
  match src with
  | Some t => lift (scanner_normalize t)
  | None => crash (UndefinedBehaviour "data of a null text")
  end.

Definition source_data : M (list Z) :=
  src <- gets source ;;
  match src with
  | Some t => ret (blob_data t)
  | None => crash (UndefinedBehaviour "data of a null text")
  end.

(** Modelled from the spec: [name_compare] is declared in name.h,
    outside the sources; "name_compare equals byte-equality on
    normalized forms", and both names are normalized here. *)
Definition name_equal (a b : blob_t) : bool :=
  if list_eq_dec Z.eq_dec (blob_data a) (blob_data b) then true else false.

(** *** Whitespace and indentation *)

(** One round of [while (isspace(c) && c != EOF)]. *)
Definition skip_spaces_body (pos : Z) (c : Z) : M (Z + Z) :=
  if isspace c && negb (c =? EOF) then
    modify (set_had_space_before true) ;;
    checking <- gets checking_indent ;;
    (if c =? c_newline then
       modify (set_checking_indent true) ;;
       modify (set_column 0)
     else if checking then
       (if (c =? c_space) || (c =? c_tab) then
          ic <- gets indent_char ;;
          if ic =? 0 then modify (set_indent_char c)
          else when (negb (ic =? c))
                 (error pos "Mixed tabs and spaces in indentation" [])
        else ret tt) ;;
       modify (fun s => set_column (u32 (column s + 1)) s)
     else ret tt) ;;
    scanner_consume (if c =? c_newline then c else 0) ;;
    c <- scanner_getchar ;;
    ret (inl c)
  else ret (inr c).

(** The block [if (s->checking_indent) { ... }], which always returns. *)
Definition indent_decision (pos : Z) (c : Z) : M token_t :=
  scanner_ungetchar c ;;
  modify (set_checking_indent false) ;;
  setting <- gets setting_indent ;;
  col <- gets column ;;
  ind <- gets indent ;;
  if setting then
    indents_push ind ;;
    modify (set_indent col) ;;
    modify (set_setting_indent false) ;;
    ret tokNEWLINE
  else if ind <? col then
    modify (set_indent col) ;;
    indents_push col ;;
    ret tokINDENT
  else
    top <- indents_top ;;
    if col <? top then
      indents_pop ;;
      modify (set_indent col) ;;
      depth <- gets (fun s => TypedBlob.length_of (indents s)) ;;
      misaligned <- (if (depth =? 0)%nat then ret false
                     else top <- indents_top ;; ret (top <? col)) ;;
      if misaligned then
        error pos "Unindenting to the right of previous indentation" [] ;;
        ret tokERROR
      else ret tokUNINDENT
    else ret tokNEWLINE.

(** *** Numbers and blobs *)

(** The two static tables of digit values, 0xFF where no digit. *)
Inductive digit_table : Type := base_value | base64_value.

Definition table_entry (t : digit_table) (i : Z) : Z :=
  match t with
  | base_value =>
      if between 48 57 i then i - 48
      else if between 65 90 i then i - 65 + 10
      else if between 97 122 i then i - 97 + 10
      else 255
  | base64_value =>
      if between 65 90 i then i - 65
      else if between 97 122 i then i - 97 + 26
      else if between 48 57 i then i - 48 + 52
      else if i =? c_plus then 62
      else if i =? c_slash then 63
      else 255
  end.

(** [table[c]]: the tables have 0x100 entries and [c] is an [int]. *)
Definition digit_at (t : digit_table) (c : Z) : M Z :=
  if between 0 255 c then ret (table_entry t c)
  else crash (UndefinedBehaviour "digit table read outside its 256 entries").

(** The local variables of the number branch. *)
Record number_t : Type := mknumber {
  base          : Z;
  blob_base     : Z;
  natural_value : Z;
  blob_chunk    : Z;
  blob_bits     : Z;
  blob_digbits  : Z;
  blob_maxbits  : Z;
  digit_value   : digit_table;
  blob          : option blob_t;  (* [NULL] unless the literal has a dollar *)
  cur           : Z  (* the character [c] under examination *)
}.

Definition set_base (v : Z) (n : number_t) : number_t :=
  mknumber v (blob_base n) (natural_value n) (blob_chunk n) (blob_bits n)
    (blob_digbits n) (blob_maxbits n) (digit_value n) (blob n) (cur n).
Definition set_blob_base (v : Z) (n : number_t) : number_t :=
  mknumber (base n) v (natural_value n) (blob_chunk n) (blob_bits n)
    (blob_digbits n) (blob_maxbits n) (digit_value n) (blob n) (cur n).
Definition set_natural_value (v : Z) (n : number_t) : number_t :=
  mknumber (base n) (blob_base n) v (blob_chunk n) (blob_bits n)
    (blob_digbits n) (blob_maxbits n) (digit_value n) (blob n) (cur n).
Definition set_blob_chunk (v : Z) (n : number_t) : number_t :=
  mknumber (base n) (blob_base n) (natural_value n) v (blob_bits n)
    (blob_digbits n) (blob_maxbits n) (digit_value n) (blob n) (cur n).
Definition set_blob_bits (v : Z) (n : number_t) : number_t :=
  mknumber (base n) (blob_base n) (natural_value n) (blob_chunk n) v
    (blob_digbits n) (blob_maxbits n) (digit_value n) (blob n) (cur n).
Definition set_blob_digbits (v : Z) (n : number_t) : number_t :=
  mknumber (base n) (blob_base n) (natural_value n) (blob_chunk n)
    (blob_bits n) v (blob_maxbits n) (digit_value n) (blob n) (cur n).
Definition set_blob_maxbits (v : Z) (n : number_t) : number_t :=
  mknumber (base n) (blob_base n) (natural_value n) (blob_chunk n)
    (blob_bits n) (blob_digbits n) v (digit_value n) (blob n) (cur n).
Definition set_digit_value (v : digit_table) (n : number_t) : number_t :=
  mknumber (base n) (blob_base n) (natural_value n) (blob_chunk n)
    (blob_bits n) (blob_digbits n) (blob_maxbits n) v (blob n) (cur n).
Definition set_blob (v : option blob_t) (n : number_t) : number_t :=
  mknumber (base n) (blob_base n) (natural_value n) (blob_chunk n)
    (blob_bits n) (blob_digbits n) (blob_maxbits n) (digit_value n) v
    (cur n).
Definition set_cur (v : Z) (n : number_t) : number_t :=
  mknumber (base n) (blob_base n) (natural_value n) (blob_chunk n)
    (blob_bits n) (blob_digbits n) (blob_maxbits n) (digit_value n) (blob n)
    v.

Definition is_blob (n : number_t) : bool :=
  match blob n with Some _ => true | None => false end.

(** Records the chunk in the blob: one byte, or three for 24-bit
    groups.  This code appears twice in the source. *)
Definition blob_record (n : number_t) : number_t :=
  match blob n with
  | None => n
  | Some b =>
      let chunk := blob_chunk n in
      if blob_maxbits n =? 8 then
        set_blob (Some (blob_append_data b [byte_of_int chunk])) n
      else
        set_blob (Some (blob_append_data b
                          [byte_of_int (Z.shiftr chunk 16);
                           byte_of_int (Z.shiftr chunk 8);
                           byte_of_int chunk])) n
  end.

(** [blob_chunk = (blob_chunk << blob_digbits) | digit; blob_bits +=
    blob_digbits; if (blob_bits >= blob_maxbits) ...] *)
Definition blob_digit (d : Z) (n : number_t) : number_t :=
  let n := set_blob_chunk
             (u32 (Z.lor (Z.shiftl (blob_chunk n) (blob_digbits n)) d)) n in
  let n := set_blob_bits (u32 (blob_bits n + blob_digbits n)) n in
  if blob_maxbits n <=? blob_bits n then blob_record n else n.

(** [if (c == '_') { c = next; if (c == '_') error(...); }] *)
Definition skip_underscore (pos : Z) (msg : string) (c : Z) : M Z :=
  if c =? c_underscore then
    c <- scanner_nextchar c ;;
    when (c =? c_underscore) (error pos msg []) ;;
    ret c
  else ret c.

(** One round of [while (c != EOF && isspace(c)) c = scanner_nextchar(s, 0)]. *)
Definition skip_blob_spaces_body (c : Z) : M (Z + Z) :=
  if negb (c =? EOF) && isspace c then
    c <- scanner_nextchar 0 ;; ret (inl c)
  else ret (inr c).

(** One round of the loop over the digits of the integral part. *)
Definition digits_body (pos : Z) (n : number_t) : M (number_t + number_t) :=
  d <- digit_at (digit_value n) (cur n) ;;
  if (d <? base n) || (is_blob n && (d <? blob_base n)) then
    let n := set_natural_value (u64 (base n * natural_value n + d)) n in
    let n := if is_blob n then blob_digit d n else n in
    c <- scanner_nextchar (cur n) ;;
    c <- skip_underscore pos "Two '_' characters in a row look ugly" c ;;
    c <- (if is_blob n then while skip_blob_spaces_body c else ret c) ;;
    ret (inl (set_cur c n))
  else ret (inr n).

(** [switch(base)] selecting the bit sizes of a blob. *)
Definition blob_select_bits (pos : Z) (n : number_t) : M number_t :=
  if base n =? 2 then ret (set_blob_digbits 1 n)
  else if base n =? 4 then ret (set_blob_digbits 2 n)
  else if base n =? 8 then ret (set_blob_maxbits 24 (set_blob_digbits 3 n))
  else if base n =? 16 then ret (set_blob_digbits 4 n)
  else if base n =? 64 then ret (set_blob_maxbits 24 (set_blob_digbits 6 n))
  else
    error pos "Base %d is invalid for a blob" [Errors.arg_int (base n)] ;;
    ret n.

(** The body of [do { ... } while (based_number)], entered with the
    given value of [based_number]; it returns its new value. *)
Definition number_round (pos : Z) (based_number : bool) (n : number_t)
    : M (bool * number_t) :=
  n <- while (digits_body pos) n ;;
  if (cur n =? c_hash) && negb based_number then
    let n := set_blob_base (u32 (natural_value n)) n in
    let n := set_base (blob_base n) n in
    n <- (if base n =? 64 then ret (set_digit_value base64_value n)
          else if (base n <? 2) || (36 <? base n) then
            let n := set_base 36 n in
            error pos "The base %d is not valid, not in 2..36"
              [Errors.arg_int (base n)] ;;
            ret n
          else
            match blob n with
            | Some b =>
                let n := set_blob (Some (blob_range b 0 0)) n in
                let n := set_blob_bits 0 n in
                let n := set_blob_chunk 0 n in
                blob_select_bits pos n
            | None => ret n
            end) ;;
    c <- scanner_nextchar (cur n) ;;
    ret (true, set_natural_value 0 (set_cur c n))
  else ret (false, n).

(** The [do ... while]: a round entered with [based_number] set leaves
    it unset, so there are at most two rounds. *)
Definition number_integral (pos : Z) (n : number_t) : M number_t :=
  ' (based_number, n) <- number_round pos false n ;;
  if based_number then
    ' (_, n) <- number_round pos true n ;; ret n
  else ret n.

(** [while (blob_bits < blob_maxbits) { blob_chunk <<= blob_digbits;
    blob_bits += blob_digbits; }]: [blob_maxbits] is at most 24 and
    [blob_digbits] at least 1, which bounds the rounds. *)
Fixpoint blob_pad (fuel : nat) (n : number_t) : number_t :=
  match fuel with
  | O => n
  | S fuel =>
      if blob_bits n <? blob_maxbits n then
        blob_pad fuel
          (set_blob_bits (u32 (blob_bits n + blob_digbits n))
             (set_blob_chunk
                (u32 (Z.shiftl (blob_chunk n) (blob_digbits n))) n))
      else n
  end.

(** The end of a blob literal. *)
Definition blob_finish (n : number_t) : M token_t :=
  c <- (if (blob_base n =? 64) && (cur n =? c_equal)
        then scanner_nextchar (cur n) else ret (cur n)) ;;
  (if c =? c_dollar then scanner_consume c else scanner_ungetchar c) ;;
  let n := if negb (blob_bits n =? 0)
           then blob_record (blob_pad 24 n) else n in
  match blob n with
  | Some b => modify (set_scanned (scanned_blob b)) ;; ret tokBLOB
  | None => crash (UndefinedBehaviour "no blob")
  end.

(** [while (exponent) { if (exponent & 1) value *= multiplier;
    exponent >>= 1; multiplier *= multiplier; }], on the binary digits
    of the exponent. *)
Fixpoint power_loop {A} (mul : A -> A -> A) (e : positive)
    (value multiplier : A) : A :=
  match e with
  | xH => mul value multiplier
  | xO e => power_loop mul e value (mul multiplier multiplier)
  | xI e => power_loop mul e (mul value multiplier) (mul multiplier multiplier)
  end.

Definition power {A} (mul : A -> A -> A) (e : Z) (value multiplier : A) : A :=
  match e with
  | Zpos p => power_loop mul p value multiplier
  | _ => value
  end.

(** One round of the loop over the digits after the dot. *)
Definition fraction_body (pos : Z) (n : number_t)
    (st : double * double * Z) : M (double * double * Z + double * Z) :=
  let '(comma_position, real_value, c) := st in
  d <- digit_at (digit_value n) c ;;
  if d <? base n then
    let comma_position := d_div comma_position (d_of_int (base n)) in
    let real_value := d_add real_value (d_mul comma_position (d_of_int d)) in
    c <- scanner_nextchar c ;;
    c <- skip_underscore pos "Two _ characters look really ugly" c ;;
    ret (inl (comma_position, real_value, c))
  else ret (inr (real_value, c)).

(** One round of the loop over the digits of the exponent. *)
Definition exponent_body (st : Z * Z) : M (Z * Z + Z * Z) :=
  let '(exponent, c) := st in
  d <- digit_at base_value c ;;
  if d <? 10 then
    let exponent := u32 (10 * exponent + d) in
    c <- scanner_nextchar c ;;
    c <- (if c =? c_underscore then scanner_nextchar c else ret c) ;;
    ret (inl (exponent, c))
  else ret (inr (exponent, c)).

(** From the second [#] to the end of the number branch. *)
Definition number_finish (pos : Z) (n : number_t) (floating_point : bool)
    (real_value : double) (c : Z) : M token_t :=
  c <- (if c =? c_hash then scanner_nextchar c else ret c) ;;
  ' (floating_point, natural_value, real_value, c) <-
    (if (c =? c_e) || (c =? c_E) then
       c <- scanner_nextchar c ;;
       ' (negative_exponent, floating_point, c) <-
         (if c =? c_plus then
            c <- scanner_nextchar c ;; ret (false, floating_point, c)
          else if c =? c_minus then
            c <- scanner_nextchar c ;; ret (true, true, c)
          else ret (false, floating_point, c)) ;;
       ' (exponent, c) <- while exponent_body (0, c) ;;
       if floating_point then
         let exponent_value :=
           power d_mul exponent (d_of_int 1) (d_of_int (base n)) in
         let real_value :=
           if (negative_exponent : bool)
           then d_div real_value exponent_value
           else d_mul real_value exponent_value in
         ret (floating_point, natural_value n, real_value, c)
       else
         let exponent_value :=
           power (fun a b => u64 (a * b)) exponent 1 (base n) in
         ret (floating_point, u64 (natural_value n * exponent_value),
              real_value, c)
     else ret (floating_point, natural_value n, real_value, c)) ;;
  scanner_ungetchar c ;;
  modify (set_had_space_after (isspace c)) ;;
  if (floating_point : bool) then
    modify (set_scanned (scanned_real pos real_value)) ;;
    ret tokREAL
  else
    modify (set_scanned (scanned_natural pos natural_value)) ;;
    ret tokINTEGER.

(** The branch [if (blob || isdigit(c))]. *)
Definition scan_number (pos : Z) (c : Z) (blob : option blob_t) : M token_t :=
  let n := mknumber 10 16 0 0 0 4 8 base_value blob c in
  n <- number_integral pos n ;;
  let real_value := d_of_int (natural_value n) in
  if is_blob n then blob_finish n
  else if cur n =? c_dot then
    mantissa_digit <- scanner_nextchar (cur n) ;;
    d <- digit_at (digit_value n) mantissa_digit ;;
    if base n <=? d then
      (* something else following an integer: 1..3, 1.(3) *)
      scanner_ungetchar mantissa_digit ;;
      scanner_ungetchar (cur n) ;;
      modify (set_had_space_after false) ;;
      modify (set_scanned (scanned_natural pos (natural_value n))) ;;
      ret tokINTEGER
    else
      ' (real_value, c) <-
        while (fraction_body pos n) (d_of_int 1, real_value, mantissa_digit) ;;
      number_finish pos n true real_value c
  else number_finish pos n false real_value (cur n).

(** *** Names *)

Definition name_body (c : Z) : M (Z + Z) :=
  if isalnum c || (c =? c_underscore) || utf8_is_first c || utf8_is_next c
  then c <- scanner_nextchar c ;; ret (inl c)
  else ret (inr c).

(** [syntax_is_block(s->syntax, name, &s->block_close)] *)
Definition is_block (syn : syntax_t) (name : list Z) : M bool :=
  match syntax_is_block syn name with
  | Some closing => modify (set_block_close (Some closing)) ;; ret true
  | None => ret false
  end.

(** [s->block_close && name_compare(name, s->block_close) == 0], and the
    disposal of [block_close] when it holds. *)
Definition is_block_close (name : blob_t) : M bool :=
  closing <- gets block_close ;;
  match closing with
  | Some b =>
      if name_equal name b
      then modify (set_block_close None) ;; ret true
      else ret false
  | None => ret false
  end.

(** The token of a name, by what the syntax table says of it. *)
Definition classify_name (name : blob_t) : M token_t :=
  syn <- gets syntax ;;
  match syn with
  | Some syn =>
      opening <- is_block syn (blob_data name) ;;
      if opening then ret tokOPEN
      else
        closing <- is_block_close name ;;
        if closing then ret tokCLOSE else ret tokNAME
  | None => ret tokNAME
  end.

Definition scan_name (pos : Z) (c : Z) : M token_t :=
  c <- while name_body c ;;
  scanner_ungetchar c ;;
  modify (set_had_space_after (isspace c)) ;;
  name <- normalize_source ;;
  modify (set_scanned (scanned_name name)) ;;
  classify_name name.

(** *** Texts and characters *)

Definition scanner_character (text : blob_t) : M scanned_t :=
  let pos := tree_position text in
  let data := blob_data text in
  let code := utf8_code data in
  when (negb (utf8_length data =? 1)%nat)
    (error pos "Character constant '%t' should contain one character"
       [Errors.arg_text text]) ;;
  ret (scanned_character pos code).

(** One round of the [for(;;)] that reads a text. *)
Definition text_body (pos : Z) (eos : Z) (st : blob_t * Z)
    : M (blob_t * Z + token_t) :=
  let '(text, c) := st in
  c <- (if c =? EOF then
          error pos "End of input in the middle of a text" [] ;;
          modify (set_had_space_after false) ;;
          ret eos
        else ret c) ;;
  let append c :=
    let text := blob_append_data text [byte_of_int c] in
    c <- scanner_nextchar c ;;
    ret (inl (text, c)) in
  if c =? eos then
    c <- scanner_nextchar c ;;
    if negb (c =? eos) then
      scanner_ungetchar c ;;
      modify (set_had_space_after (isspace c)) ;;
      if eos =? c_dquote then
        modify (set_scanned (scanned_text text)) ;;
        ret (inr tokTEXT)
      else
        ch <- scanner_character text ;;
        modify (set_scanned ch) ;;
        ret (inr tokCHARACTER)
    else append c
  else append c.

Definition scan_text (pos : Z) (c : Z) : M token_t :=
  let eos := char_of_byte (byte_of_int c) in
  let text := text_new pos [] in
  c <- scanner_nextchar c ;;
  while (text_body pos eos) (text, c).

(** *** Operators *)

Definition is_operator_char (c : Z) : bool :=
  ispunct c && negb (c =? c_quote) && negb (c =? c_dquote) && negb (c =? EOF).

(** One round of the loop of the normal scanning mode. *)
Definition symbol_body (syn : syntax_t) (c : Z) : M (Z + Z * token_t) :=
  more <- (if is_operator_char c
           then src <- source_data ;; ret (syntax_is_operator syn src)
           else ret false) ;;
  if more then
    c <- scanner_nextchar c ;;
    src <- gets source ;;
    match src with
    | None => crash (UndefinedBehaviour "data of a null text")
    | Some name =>
        opening <- is_block syn (blob_data name) ;;
        if opening then ret (inr (c, tokOPEN))
        else
          closing <- is_block_close name ;;
          if closing then ret (inr (c, tokCLOSE)) else ret (inl c)
    end
  else ret (inr (c, tokSYMBOL)).

(** One round of the loop of the syntax discovery mode. *)
Definition discovery_body (c : Z) : M (Z + Z * token_t) :=
  if is_operator_char c
  then c <- scanner_nextchar c ;; ret (inl c)
  else ret (inr (c, tokSYMBOL)).

Definition scan_symbol (pos : Z) (c : Z) : M token_t :=
  syn <- gets syntax ;;
  ' (c, tok) <- (match syn with
                 | Some syn => while (symbol_body syn) c
                 | None => while discovery_body c
                 end) ;;
  scanner_ungetchar c ;;
  modify (set_had_space_after (isspace c)) ;;
  name <- normalize_source ;;
  modify (set_scanned (scanned_name name)) ;;
  ret tok.

(** *** [scanner_read] *)

(** [indents_length(s->indents) > 0 && indents_top(s->indents) > s->indent] *)
Definition unindent_pending : M bool :=
  depth <- gets (fun s => TypedBlob.length_of (indents s)) ;;
  if (0 <? depth)%nat then
    top <- indents_top ;;
    ind <- gets indent ;;
    ret (ind <? top)
  else ret false.

(** From [text_range(&s->source, 0, 0)] to the end: one token that is
    not a line or indentation mark. *)
Definition scan_token (c : Z) : M token_t :=
  src <- gets source ;;
  match src with
  | None => crash (UndefinedBehaviour "range of a null text")
  | Some t =>
      modify (set_source (Some (blob_range t 0 0))) ;;
      pos <- gets scanner_position ;;
      ' (c, blob) <- (if c =? c_dollar then
                        c <- scanner_nextchar c ;;
                        ret (c, Some (blob_new pos []))
                      else ret (c, None)) ;;
      match blob with
      | Some _ => scan_number pos c blob
      | None =>
          if isdigit c then scan_number pos c blob
          else if utf8_isalpha c then scan_name pos c
          else if (c =? c_dquote) || (c =? c_quote) then scan_text pos c
          else scan_symbol pos c
      end
  end.

(** [scanner_read] from its first line to the end of the whitespace
    loop: the token when the function has returned by then, otherwise
    the position [pos] taken at entry and the character [c] in hand. *)
Definition read_begin : M (token_t + Z * Z) :=
  pos <- gets scanner_position ;;
  modify (set_source (Some (text_new pos []))) ;;
  modify (set_scanned scanned_none) ;;
  rd <- gets reader ;;
  if negb rd then ret (inl tokEOF)
  else
    modify (set_had_space_before true) ;;
    pending <- unindent_pending ;;
    if pending then
      indents_pop ;;
      ret (inl tokUNINDENT)
    else
      c <- scanner_getchar ;;
      modify (set_had_space_before false) ;;
      c <- while (skip_spaces_body pos) c ;;
      ret (inr (pos, c)).

Definition scanner_read : M token_t :=
  r <- read_begin ;;
  match r with
  | inl tok => ret tok
  | inr (pos, c) =>
      checking <- gets checking_indent ;;
      if checking then indent_decision pos c
      else
        rd <- gets reader ;;
        if negb rd then ret tokEOF
        else scan_token c
  end.

(** [scanner_open_parenthese], [scanner_close_parenthese] *)
Definition scanner_open_parenthese : M Z :=
  ind <- gets indent ;;
  setting <- gets setting_indent ;;
  let result := if setting then u32 (Z.lnot ind) else ind in
  modify (set_setting_indent true) ;;
  ret result.

Definition scanner_close_parenthese (old_indent : Z) : M unit :=
  let was_set := 2 ^ 31 <=? old_indent in
  modify (set_indent
            (if was_set then u32 (Z.lnot old_indent) else old_indent)) ;;
  setting <- gets setting_indent ;;
  (if negb setting then
     top <- indents_top ;;
     ind <- gets indent ;;
     when (ind =? top) indents_pop
   else ret tt) ;;
  modify (set_setting_indent was_set).

(** [n] successive calls of [scanner_read], and their tokens. *)
Fixpoint scanner_reads (n : nat) : M (list token_t) :=
  match n with
  | O => ret []
  | S n =>
      tok <- scanner_read ;;
      toks <- scanner_reads n ;;
      ret (tok :: toks)
  end.

(** The same, with the value left in [s->scanned] by each call. *)
Fixpoint scanner_trace (n : nat) : M (list (token_t * scanned_t)) :=
  match n with
  | O => ret []
  | S n =>
      tok <- scanner_read ;;
      value <- gets scanned ;;
      rest <- scanner_trace n ;;
      ret ((tok, value) :: rest)
  end.

(** The value of a computation, without the final state. *)
Definition value_of {A} (r : result (A * scanner_t)) : result A :=
  match r with
  | Ok (a, _) => Ok a
  | Crash f => Crash f
  end.

(** The state a scanner is in after [n] calls of [scanner_read]. *)
Definition state_after (n : nat) (s : scanner_t) : scanner_t :=
  match scanner_reads n s with
  | Ok (_, s') => s'
  | Crash _ => s
  end.

Scheme Equality for token_t.

(** How many times a token occurs in a sequence of tokens. *)
Definition occurrences (tok : token_t) (toks : list token_t) : nat :=
  count_occ token_t_eq_dec toks tok.

(** Tokens that carry a value or a name: what [scan_token] returns. *)
Definition is_value_token (tok : token_t) : bool :=
  match tok with
  | tokINTEGER | tokREAL | tokCHARACTER | tokTEXT | tokBLOB
  | tokNAME | tokSYMBOL | tokOPEN | tokCLOSE => true
  | _ => false
  end.

(** [tok] is a token with a value. *)
Definition value_token (tok : token_t) : Prop := is_value_token tok = true.

(** After the pop of a level: the stack still has a level and its top
    is to the left of the column. *)
Definition misaligned (rest : list Z) (column : Z) : bool :=
  match TypedBlob.top rest with
  | Ok top => top <? column
  | Crash _ => false
  end.

(** What a call of [scanner_read] that returns [tok] does to the stack
    of indentation levels, [s] being the state before the call and [s']
    the state after it. *)
Definition level_effect (tok : token_t) (s s' : scanner_t) : Prop :=
  match tok with
  | tokINDENT => indents s' = TypedBlob.push (indents s) (column s')
  | tokUNINDENT | tokERROR =>
      exists level, indents s = TypedBlob.push (indents s') level
  | tokNEWLINE =>
      (setting_indent s = false /\ indents s' = indents s) \/
      (setting_indent s = true /\
       indents s' = TypedBlob.push (indents s) (indent s))
  | _ => indents s' = indents s
  end /\
  (setting_indent s = false -> setting_indent s' = false).

(** The part of the state that describes indentation levels. *)
Definition levels (s : scanner_t) : list Z * Z * bool :=
  (indents s, indent s, setting_indent s).

(** [m] leaves the projection [f] of the state as it found it. *)
Definition preserves {X A} (f : scanner_t -> X) (m : M A) : Prop :=
  forall s a s', m s = Ok (a, s') -> f s' = f s.

(** [m] only returns values that satisfy [Q]. *)
Definition yields {A} (Q : A -> Prop) (m : M A) : Prop :=
  forall s a s', m s = Ok (a, s') -> Q a.

(** A scanner created by [scanner_new] and opened on the bytes [data],
    with no errors buffer installed. *)
Definition scanner_on (syntax : option syntax_t) (data : list Z) : scanner_t :=
  let s := scanner_new 0 syntax (Errors.mksink None []) in
  match scanner_open_stream data s with
  | Ok (_, s) => s
  | Crash _ => s
  end.

(** *** The bound of the loops

    The characters a scanner can still take: those of the stream and
    those of the pending cells. *)
Definition available (s : scanner_t) : nat :=
  (length (stream s)
   + (if (fst (pending_char s) =? 0)%Z then 0 else 1)
   + (if (snd (pending_char s) =? 0)%Z then 0 else 1))%nat.

(** What reads a character from the input leaves untouched. *)
Definition supply (s : scanner_t) : list Z * (Z * Z) :=
  (stream s, pending_char s).

(** A character in hand counts for one round, unless it is [EOF]. *)
Definition weight (c : Z) : nat := if c =? EOF then 0%nat else 1%nat.

(** The potential of a loop: it goes down at every round. *)
Definition potential (c : Z) (s : scanner_t) : nat :=
  (2 * available s + weight c)%nat.

(** [m] does not raise the potential above the budget [b], the value
    it returns counting for [p]. *)
Definition within {A} (b : nat) (p : A -> nat) (m : M A) : Prop :=
  forall s a s', m s = Ok (a, s') ->
  (2 * available s' + p a <= 2 * available s + b)%nat.

(** A round of [body] that goes on lowers the potential, [ch] giving
    the character in hand. *)
Definition progresses {A B} (ch : A -> Z) (body : A -> M (A + B)) : Prop :=
  forall a s r s', body a s = Ok (r, s') ->
  match r with
  | inl a' => (potential (ch a') s' < potential (ch a) s)%nat
  | inr _ => True
  end.

(** [m] never stops on the bound of a loop. *)
Definition bounded {A} (m : M A) : Prop :=
  forall s, m s <> Crash OutOfFuel.

(** *** Inputs of the scenarios *)

Definition indented_foo : list Z := str ("  " ++ NL ++ "  foo" ++ NL).

Definition dedent_two_levels : list Z :=
  str (NL ++ "  a" ++ NL ++ "    b" ++ NL ++ " c").

Definition misaligned_dedent : list Z :=
  str (NL ++ " a" ++ NL ++ "   b" ++ NL ++ "  c").

Definition nested_blocks : list Z :=
  str (NL ++ " a" ++ NL ++ "  b" ++ NL).

(** *** Properties of the runs of the scanner

    [m], started in a state that satisfies [P], only ends with a value
    and in a state that satisfy [Q]. *)
Definition hoare {A} (P : scanner_t -> Prop) (m : M A)
    (Q : A -> scanner_t -> Prop) : Prop :=
  forall s a s', P s -> m s = Ok (a, s') -> Q a s'.

(** [m] keeps the invariant [I]. *)
Definition keeps {A} (I : scanner_t -> Prop) (m : M A) : Prop :=
  hoare I m (fun _ => I).

(** Tokens that carry a name. *)
Definition is_name_token (tok : token_t) : bool :=
  match tok with
  | tokNAME | tokSYMBOL | tokOPEN | tokCLOSE => true
  | _ => false
  end.

(** Tokens that open or close a block. *)
Definition is_block_token (tok : token_t) : bool :=
  match tok with
  | tokOPEN | tokCLOSE => true
  | _ => false
  end.

(** Tokens of the layout, which carry nothing. *)
Definition is_layout_token (tok : token_t) : bool :=
  match tok with
  | tokEOF | tokNEWLINE | tokINDENT | tokUNINDENT | tokERROR => true
  | _ => false
  end.

(** The member of the union [s->scanned] that goes with a token: the
    value of a literal, a valid name with the handler of names, or
    nothing for the tokens of the layout. *)
Definition token_value (tok : token_t) (v : scanned_t) : bool :=
  match v with
  | scanned_none => is_layout_token tok
  | scanned_natural _ _ => match tok with tokINTEGER => true | _ => false end
  | scanned_real _ _ => match tok with tokREAL => true | _ => false end
  | scanned_character _ _ =>
      match tok with tokCHARACTER => true | _ => false end
  | scanned_text _ => match tok with tokTEXT => true | _ => false end
  | scanned_blob _ => match tok with tokBLOB => true | _ => false end
  | scanned_name n =>
      is_name_token tok && name_is_valid (blob_data n)
      && match tree_handler n with name_handler => true | _ => false end
  end.

(** The token [tok] goes with the value that the state [s] holds. *)
Definition valued (tok : token_t) (s : scanner_t) : Prop :=
  token_value tok (scanned s) = true.

(** The sink [k'] is what calls of [error] have made of the sink [k]. *)
Definition reported (k k' : Errors.sink_t) : Prop :=
  exists msgs, k' = Errors.error_each msgs k.

(** *** Inputs and states of the properties of single tokens

    The bytes the scanner takes next: the character pushed back, if
    any, then those of the stream. *)
Definition ahead (s : scanner_t) : list Z :=
  if fst (pending_char s) =? 0 then stream s
  else fst (pending_char s) :: stream s.

(** No level of the stack is deeper than the indentation: the test of
    [scanner_read] for a pending UNINDENT fails. *)
Definition levels_closed (s : scanner_t) : bool :=
  match TypedBlob.top (indents s) with
  | Ok top => top <=? indent s
  | Crash _ => true
  end.

(** A scanner between two tokens of a line: the reader is open, at most
    one character is pushed back, the indentation of the line has been
    dealt with and no UNINDENT is pending. *)
Definition ready (s : scanner_t) : Prop :=
  reader s = true /\
  snd (pending_char s) = 0 /\ 0 <= fst (pending_char s) < 256 /\
  checking_indent s = false /\
  levels_closed s = true.

(** Whitespace that does not end the line, and bytes that are not
    whitespace. *)
Definition blank (b : Z) : bool :=
  isspace (char_of_byte b) && negb (char_of_byte b =? c_newline).
Definition visible (b : Z) : bool := negb (isspace (char_of_byte b)).

(** The position after [n] calls of [position_step]. *)
Fixpoint advance (n : nat) (p : Z) : Z :=
  match n with
  | O => p
  | S n => advance n (u32 (p + 1))
  end.

(** [s'] is [s] but for what reading a token changes: the input taken,
    the spelling and the value of the token, the character pushed back
    and the two flags of the spaces around the token. *)
Definition advanced (s s' : scanner_t) : Prop :=
  s' = mkscanner (position s') (reader s) (stream s') (syntax s) (source s')
         (scanned s') (indents s) (block_close s) (indent s) (column s)
         (pending_char s') (indent_char s) (checking_indent s)
         (setting_indent s) (had_space_before s') (had_space_after s')
         (sink s).

(** The number that decimal digits spell, and the bytes that end a
    plain decimal literal: an ASCII byte that is no digit and none of
    the characters that carry the number on. *)
Definition decimal (ds : list Z) : Z :=
  fold_left (fun acc d => 10 * acc + (d - 48)) ds 0.

Definition number_end (t : Z) : bool :=
  between 1 127 t && negb (isdigit t) && negb (t =? c_hash)
  && negb (t =? c_dot) && negb (t =? c_e) && negb (t =? c_E)
  && negb (t =? c_underscore).

(** The spelling of the bytes of a text between two quotes [q]: each
    quote of the text is doubled. *)
Definition escape (q : Z) (body : list Z) : list Z :=
  flat_map (fun b => if b =? q then [q; q] else [b]) body.

(** Bytes that start no token: control characters other than
    whitespace. *)
Definition stray (b : Z) : bool :=
  between 0 8 b || between 14 31 b || (b =? 127).

(** Bytes of a text that the scanner reads back, and bytes that may
    follow the closing quote of a text and be read again. *)
Definition text_byte (b : Z) : bool := between 0 254 b.
Definition text_end (t : Z) : bool := between 1 255 t && negb (t =? c_dquote).

(** States in syntax discovery mode, tokens that neither open nor
    close a block, sinks that hold the errors of [k0] and those reported
    since, and states whose indentation character is [v]. *)
Definition no_syntax (s : scanner_t) : Prop := syntax s = None.
Definition plain (tok : token_t) (_ : scanner_t) : Prop :=
  is_block_token tok = false.
Definition grown (k0 : Errors.sink_t) (s : scanner_t) : Prop :=
  reported k0 (sink s).
Definition fixed (v : Z) (s : scanner_t) : Prop := indent_char s = v.

(** *** [scanner_skip] *)

(** [*match], the byte of the closing name at [match - eoc = matched]:
    a name holds [name_length] bytes and none after them, as
    [name_handler] allocates [sizeof(name_t) + size] and copies [size]
    bytes. *)
Definition closing_char (closing : blob_t) (matched : nat) : M Z :=
  match nth_error (blob_data closing) matched with
  | Some b => ret (char_of_byte b)
  | None => crash (UndefinedBehaviour "byte read after the end of a name")
  end.

(** The backtracking [for] of [scanner_skip], entered with
    [max = match - eoc = matched]: at each round
    [memcmp(eoc, end - max + i, match - eoc)] compares the first
    [match - eoc] bytes of the closing name with the last ones of the
    comment, and [match] goes down by one when they differ. *)
Fixpoint skip_backtrack (eoc comment : list Z) (matched : nat) : result nat :=
  match matched with
  | O => Ok O
  | S fewer =>
      if (matched <=? length comment)%nat && (matched <=? length eoc)%nat then
        if list_eq_dec Z.eq_dec (firstn matched eoc)
             (skipn (length comment - matched) comment)
        then Ok matched
        else skip_backtrack eoc comment fewer
      else Crash (UndefinedBehaviour "bytes compared outside a text")
  end.

(** One round of the loop of [scanner_skip], which goes on while
    [*match] is not zero and [c] is not [EOF]; the state is
    [match - eoc], the comment and the character [c]. *)
Definition skip_body (closing : blob_t) (st : nat * blob_t * Z)
    : M (nat * blob_t * Z + nat * blob_t) :=
  let '(matched, comment, c) := st in
  m <- closing_char closing matched ;;
  if negb (m =? 0) && negb (c =? EOF) then
    c <- scanner_nextchar c ;;
    checking <- gets checking_indent ;;
    skip <- (if c =? c_newline then
               modify (set_checking_indent true) ;;
               modify (set_column 0) ;;
               ret false
             else if checking then
               if isspace c then
                 col <- gets column ;;
                 ind <- gets indent ;;
                 ret (col <? ind)
               else
                 modify (set_checking_indent false) ;;
                 ret false
             else ret false) ;;
    m <- closing_char closing matched ;;
    matched <- (if c =? m then ret (S matched)
                else lift (skip_backtrack (blob_data closing)
                             (blob_data comment) matched)) ;;
    ret (inl (matched,
              (if skip then comment
               else blob_append_data comment [byte_of_int c]),
              c))
  else ret (inr (matched, comment)).

(** [scanner_skip(s, closing)].  The length left to the comment is
    computed in [size_t]: it wraps when more bytes have matched than the
    comment holds. *)
Definition scanner_skip (closing : blob_t) : M blob_t :=
  pos <- gets scanner_position ;;
  modify (set_source (Some (text_new pos []))) ;;
  modify (set_scanned scanned_none) ;;
  ' (matched, comment) <- while (skip_body closing) (O, text_new pos [], 0) ;;
  let comment_length :=
    if (matched <=? blob_length comment)%nat
    then (blob_length comment - matched)%nat
    else Z.to_nat (u64 (Z.of_nat (blob_length comment) - Z.of_nat matched)) in
  ret (blob_range comment 0 comment_length).

(** What [scanner_skip] keeps of the bytes of a comment: after a
    newline, and at first when [checking] is set, the whitespace of the
    start of a line is left out when the column [col] is below the
    indentation [ind]. *)
Fixpoint stripped (ind col : Z) (checking : bool) (data : list Z) : list Z :=
  match data with
  | [] => []
  | b :: data =>
      let c := char_of_byte b in
      if c =? c_newline then b :: stripped ind 0 true data
      else if checking then
        if isspace c then
          if col <? ind then stripped ind col true data
          else b :: stripped ind col true data
        else b :: stripped ind col false data
      else b :: stripped ind col false data
  end.

(** A byte of a comment that reads neither as the first character of
    the closing name nor as [EOF]. *)
Definition outside (closing : blob_t) (b : Z) : bool :=
  between 0 254 b
  && negb (char_of_byte b =? char_of_byte (hd 0 (blob_data closing))).

(** *** The indentation decision past the unchecked read

    [type##_top] has no check: on a stack with no item the machine
    reads the word that lies before the data of the blob and goes on
    with it, where [TypedBlob.top] finds no item.  [word] gives the
    word that is read, whatever it is; on a stack that has items
    [indents_top_word] is [indents_top]. *)
Definition indents_top_word (word : scanner_t -> Z) : M Z :=
  t <- gets indents ;;
  match t with
  | [] => gets word
  | _ :: _ => lift (TypedBlob.top t)
  end.

(** The block [if (s->checking_indent) { ... }] with that read: the
    first [indents_top], which no test of [indents_length] guards. *)
Definition indent_decision_word (word : scanner_t -> Z) (pos : Z) (c : Z)
    : M token_t :=
  scanner_ungetchar c ;;
  modify (set_checking_indent false) ;;
  setting <- gets setting_indent ;;
  col <- gets column ;;
  ind <- gets indent ;;
  if setting then
    indents_push ind ;;
    modify (set_indent col) ;;
    modify (set_setting_indent false) ;;
    ret tokNEWLINE
  else if ind <? col then
    modify (set_indent col) ;;
    indents_push col ;;
    ret tokINDENT
  else
    top <- indents_top_word word ;;
    if col <? top then
      indents_pop ;;
      modify (set_indent col) ;;
      depth <- gets (fun s => TypedBlob.length_of (indents s)) ;;
      misaligned <- (if (depth =? 0)%nat then ret false
                     else top <- indents_top ;; ret (top <? col)) ;;
      if misaligned then
        error pos "Unindenting to the right of previous indentation" [] ;;
        ret tokERROR
      else ret tokUNINDENT
    else ret tokNEWLINE.

(** [scanner_read] with that read, and [n] successive calls of it. *)
Definition scanner_read_word (word : scanner_t -> Z) : M token_t :=
  r <- read_begin ;;
  match r with
  | inl tok => ret tok
  | inr (pos, c) =>
      checking <- gets checking_indent ;;
      if checking then indent_decision_word word pos c
      else
        rd <- gets reader ;;
        if negb rd then ret tokEOF
        else scan_token c
  end.

Fixpoint scanner_reads_word (word : scanner_t -> Z) (n : nat)
    : M (list token_t) :=
  match n with
  | O => ret []
  | S n =>
      tok <- scanner_read_word word ;;
      toks <- scanner_reads_word word n ;;
      ret (tok :: toks)
  end.

(** Lines that start at the margin, between two indented blocks. *)
Definition margin_lines : list Z :=
  str ("a" ++ NL ++ " b" ++ NL ++ "c" ++ NL).

End Scanner.

Import Scanner.
Local Open Scope scanner_scope.

(* ====================================================================== *)
(** * Properties *)
(* ====================================================================== *)

(** ** Names: [name_is_valid] *)

Section ValidNames.

Lemma valid_alpha_spec (data : list Z) : forall had_underscore : bool,
  valid_alpha had_underscore data = true <->
  forallb name_byte data = true /\
  has_double_underscore data = false /\
  (had_underscore = true ->
   match data with b :: _ => char_of_byte b <> c_underscore | [] => True end).
Proof.
  induction data as [|b rest IH]; intros had.
  - simpl. tauto.
  - cbn [valid_alpha forallb]. unfold name_byte at 1.
    destruct (char_of_byte b =? c_underscore) eqn:Eu.
    + apply Z.eqb_eq in Eu. rewrite orb_true_r. cbn [andb negb].
      destruct had; cbn [andb].
      * split; [discriminate|]. intros (_ & _ & H). now specialize (H eq_refl).
      * rewrite IH. cbn [has_double_underscore]. rewrite Eu.
        destruct rest as [|b' rest'].
        -- cbn. intuition congruence.
        -- rewrite Z.eqb_refl. cbn [andb].
           destruct (char_of_byte b' =? c_underscore) eqn:Eu'.
           ++ apply Z.eqb_eq in Eu'. cbn [orb]. intuition congruence.
           ++ apply Z.eqb_neq in Eu'. cbn [orb]. intuition congruence.
    + apply Z.eqb_neq in Eu. rewrite orb_false_r. cbn [andb negb].
      destruct (isalnum (char_of_byte b)) eqn:Ea; cbn [negb andb].
      * rewrite IH. cbn [has_double_underscore].
        destruct rest as [|b' rest'].
        -- cbn. intuition congruence.
        -- replace (char_of_byte b =? c_underscore) with false
             by (symmetry; now apply Z.eqb_neq).
           cbn [andb orb]. intuition congruence.
      * split; [discriminate|]. intros (H & _). discriminate.
Qed.

Lemma valid_operator_spec (data : list Z) :
  valid_operator data = forallb (fun b => ispunct (char_of_byte b)) data.
Proof.
  induction data as [|b rest IH]; [reflexivity|].
  cbn [valid_operator forallb]. rewrite IH.
  now destruct (ispunct (char_of_byte b)).
Qed.

Lemma alpha_not_punct (c : Z) : isalpha c = true -> ispunct c = false.
Proof.
  intros H. ctype_solve.
Qed.

Lemma alpha_not_underscore (c : Z) : isalpha c = true -> (c =? c_underscore) = false.
Proof.
  intros H. ctype_solve.
Qed.

Lemma alpha_alnum (c : Z) : isalpha c = true -> isalnum c = true.
Proof. intros H. unfold isalnum. now rewrite H. Qed.

(** Validity of an alphabetic name, exactly: every byte after the first
    is alphanumeric or an underscore and no two underscores are
    adjacent.  Nothing is asked of the last byte. *)
Lemma name_is_valid_alpha_iff (d : Z) (rest : list Z) :
  isalpha (char_of_byte d) = true ->
  (name_is_valid (d :: rest) = true <->
   forallb name_byte rest = true /\ has_double_underscore (d :: rest) = false).
Proof.
  intros Ha. unfold name_is_valid.
  rewrite (alpha_not_punct _ Ha), Ha, valid_alpha_spec.
  cbn [forallb]. unfold name_byte at 1.
  rewrite (alpha_alnum _ Ha). cbn [orb andb].
  pose proof (alpha_not_underscore _ Ha) as Hu. apply Z.eqb_neq in Hu.
  tauto.
Qed.

End ValidNames.

(** C6, as the code has it.  For a byte sequence whose first byte is
    alphabetic, [name_is_valid] returns true only if each subsequent
    byte is alphanumeric or ['_'] and no two consecutive bytes are
    ['_']; the sequence may end with ['_']. *)
Theorem name_is_valid_alphabetic (d : Z) (rest : list Z) :
  isalpha (char_of_byte d) = true ->
  name_is_valid (d :: rest) = true ->
  forallb name_byte rest = true /\ has_double_underscore (d :: rest) = false.
Proof.
  intros Ha Hv. now apply (name_is_valid_alpha_iff d rest Ha).
Qed.

Lemma name_is_valid_alphabetic_witness :
  isalpha (char_of_byte 102) = true /\
  name_is_valid (102 :: str "oo_Bar_1") = true /\
  forallb name_byte (str "oo_Bar_1") = true /\
  has_double_underscore (102 :: str "oo_Bar_1") = false.
Proof.
  split; [reflexivity|]. split; [reflexivity|].
  apply (name_is_valid_alphabetic 102 (str "oo_Bar_1")); reflexivity.
Defined.

(** C6 as stated fails: ["a_"] starts with a letter, ends with ['_'] and
    is a valid name. *)
Lemma name_is_valid_trailing_underscore :
  isalpha (char_of_byte 97) = true /\
  name_is_valid (str "a_") = true /\
  last (str "a_") 0 = c_underscore.
Proof. repeat split. Qed.

(** ** Name normalization: [scanner_normalize] *)

Section Normalization.

Lemma scan_snd (src : list Z) : forall acc,
  snd (fold_left scan_step src acc) = (snd acc + length (filter relevant src))%nat.
Proof.
  induction src as [|b rest IH]; intros acc; cbn [fold_left filter].
  - cbn. lia.
  - rewrite IH. unfold scan_step, relevant. cbn [snd].
    destruct (negb (char_of_byte b =? c_underscore)); cbn [length]; lia.
Qed.

Lemma canonical_length (src : list Z) :
  length (canonical src) = length (filter relevant src).
Proof. unfold canonical. now rewrite length_map. Qed.

Lemma scan_size (src : list Z) : snd (scan src) = length (canonical src).
Proof. unfold scan. now rewrite scan_snd, canonical_length. Qed.

Lemma scan_fst_settled (src : list Z) : forall acc,
  forallb settled src = true ->
  fst acc = true ->
  fst (fold_left scan_step src acc) = true.
Proof.
  induction src as [|b rest IH]; intros acc Hall Hacc; cbn [fold_left].
  - exact Hacc.
  - cbn [forallb] in Hall. apply andb_true_iff in Hall as [Hb Hrest].
    apply IH; [exact Hrest|]. exact Hb.
Qed.

Lemma filter_length_le {A} (f : A -> bool) (l : list A) :
  (length (filter f l) <= length l)%nat.
Proof.
  induction l as [|a l IH]; cbn; [lia|]. destruct (f a); cbn; lia.
Qed.

Lemma canonical_cons (b : Z) (rest : list Z) :
  canonical (b :: rest) =
  if char_of_byte b =? c_underscore then canonical rest
  else byte_of_int (tolower (char_of_byte b)) :: canonical rest.
Proof.
  unfold canonical. cbn [filter].
  now destruct (char_of_byte b =? c_underscore).
Qed.

(** The second loop fills the bytes from [dst] on with the canonical
    form, and stays inside the name when it has room for it. *)
Lemma copy_spec (src : list Z) : forall dst out,
  (dst + length (canonical src) <= length out)%nat ->
  copy src dst out =
  Ok (firstn dst out ++ canonical src
      ++ skipn (dst + length (canonical src)) out).
Proof.
  induction src as [|b rest IH]; intros dst out Hlen.
  - cbn. rewrite Nat.add_0_r. now rewrite firstn_skipn.
  - cbn [copy]. rewrite canonical_cons in *.
    destruct (char_of_byte b =? c_underscore) eqn:Eu.
    + apply IH. exact Hlen.
    + cbn [length] in *. unfold store.
      replace (dst <? length out)%nat with true
        by (symmetry; apply Nat.ltb_lt; lia).
      cbn [rbind].
      set (v := byte_of_int (tolower (char_of_byte b))).
      set (out1 := firstn dst out ++ v :: skipn (S dst) out).
      assert (Hl1 : length out1 = length out).
      { unfold out1. rewrite length_app, length_firstn. cbn [length].
        rewrite length_skipn. lia. }
      rewrite IH by (rewrite Hl1; lia).
      f_equal.
      assert (Hf : firstn (S dst) out1 = firstn dst out ++ [v]).
      { unfold out1. rewrite firstn_app, length_firstn.
        replace (Nat.min dst (length out)) with dst by lia.
        replace (S dst - dst)%nat with 1%nat by lia.
        rewrite firstn_firstn. replace (Nat.min (S dst) dst) with dst by lia.
        reflexivity. }
      assert (Hs : forall k, skipn (S dst + k) out1 = skipn (S dst + k) out).
      { intros k. unfold out1. rewrite skipn_app, length_firstn.
        replace (Nat.min dst (length out)) with dst by lia.
        rewrite skipn_firstn_comm.
        replace (dst - (S dst + k))%nat with 0%nat by lia. cbn [firstn app].
        replace (S dst + k - dst)%nat with (S k) by lia.
        rewrite skipn_cons, skipn_skipn. f_equal. lia. }
      rewrite Hf, Hs, <- app_assoc. cbn [app].
      do 3 f_equal. f_equal. lia.
Qed.

Lemma punct_ascii (b : Z) : ispunct (char_of_byte b) = true -> ascii_byte b = true.
Proof.
  unfold ascii_byte. generalize (char_of_byte b). intros c H.
  ctype_solve.
Qed.

Lemma name_byte_ascii (b : Z) : name_byte b = true -> ascii_byte b = true.
Proof.
  unfold ascii_byte, name_byte. generalize (char_of_byte b). intros c H.
  ctype_unfold. bool_to_Z; apply andb_true_iff; rewrite !Z.leb_le; lia.
Qed.

Lemma name_is_valid_class (src : list Z) :
  name_is_valid src = true -> name_class src.
Proof.
  destruct src as [|d rest]; [discriminate|]. intros H.
  destruct (ispunct (char_of_byte d)) eqn:Ep.
  - apply class_operator; [discriminate|].
    unfold name_is_valid in H. rewrite Ep in H.
    now rewrite valid_operator_spec in H.
  - destruct (isalpha (char_of_byte d)) eqn:Ea.
    + apply (name_is_valid_alpha_iff d rest Ea) in H as [H1 H2].
      now apply (class_alpha _ d rest).
    + unfold name_is_valid in H. rewrite Ep, Ea in H.
      destruct rest; [|discriminate].
      apply (class_marker _ d); [reflexivity|].
      bool_to_Z; tauto.
Qed.

Lemma name_class_valid (src : list Z) :
  name_class src -> name_is_valid src = true.
Proof.
  intros [Hne Hall | d rest -> Ha Hall Hdd | d -> Hm].
  - destruct src as [|d rest]; [congruence|].
    unfold name_is_valid. pose proof Hall as Hall'.
    cbn [forallb] in Hall'. apply andb_true_iff in Hall' as [Hd _].
    rewrite Hd. now rewrite valid_operator_spec.
  - now apply (name_is_valid_alpha_iff d rest Ha).
  - unfold name_is_valid.
    destruct Hm as [Hm|[Hm|Hm]]; rewrite Hm; reflexivity.
Qed.

Lemma has_double_underscore_firstn (src : list Z) : forall n,
  has_double_underscore src = false ->
  has_double_underscore (firstn n src) = false.
Proof.
  induction src as [|a rest IH]; intros n H; [now rewrite firstn_nil|].
  destruct n as [|n]; [reflexivity|]. cbn [firstn].
  destruct rest as [|b rest'].
  - now rewrite firstn_nil.
  - destruct n as [|n]; [reflexivity|].
    cbn [has_double_underscore] in H. apply orb_false_iff in H as [H1 H2].
    specialize (IH (S n) H2). cbn [firstn] in IH |- *.
    cbn [has_double_underscore]. rewrite H1. exact IH.
Qed.

Lemma forallb_firstn {A} (f : A -> bool) (l : list A) : forall n,
  forallb f l = true -> forallb f (firstn n l) = true.
Proof.
  induction l as [|a l IH]; intros n H; [now rewrite firstn_nil|].
  destruct n; [reflexivity|]. cbn [firstn forallb] in *.
  apply andb_true_iff in H as [H1 H2]. now rewrite H1, IH.
Qed.

(** A non-empty prefix of a valid name is a valid name: the check that
    [name_new] makes on the first [normalized_size] bytes passes. *)
Lemma name_is_valid_firstn (src : list Z) (n : nat) :
  name_is_valid src = true -> (1 <= n)%nat ->
  name_is_valid (firstn n src) = true.
Proof.
  intros Hv Hn. apply name_class_valid.
  destruct n as [|n]; [lia|].
  destruct (name_is_valid_class src Hv)
    as [Hne Hall | d rest -> Ha Hall Hdd | d -> Hm].
  - apply class_operator.
    + destruct src; [congruence|discriminate].
    + now apply forallb_firstn.
  - apply (class_alpha _ d (firstn n rest)); [reflexivity|exact Ha| |].
    + now apply forallb_firstn.
    + now apply (has_double_underscore_firstn (d :: rest) (S n)).
  - apply (class_marker _ d); [|exact Hm]. cbn. now rewrite firstn_nil.
Qed.

Lemma valid_bytes_ascii (src : list Z) :
  name_is_valid src = true -> forallb ascii_byte src = true.
Proof.
  intros Hv. apply forallb_forall. intros b Hin.
  destruct (name_is_valid_class src Hv)
    as [Hne Hall | d rest -> Ha Hall Hdd | d -> Hm].
  - apply punct_ascii. now apply (proj1 (forallb_forall _ _) Hall).
  - destruct Hin as [<- | Hin].
    + apply name_byte_ascii. unfold name_byte. now rewrite (alpha_alnum _ Ha).
    + apply name_byte_ascii. now apply (proj1 (forallb_forall _ _) Hall).
  - destruct Hin as [<- | []]. unfold ascii_byte.
    revert Hm. generalize (char_of_byte d). intros c Hm.
    ctype_solve.
Qed.

(** What one canonical byte is, for an ASCII character. *)
Lemma canonical_byte (b : Z) :
  ascii_byte b = true ->
  char_of_byte (byte_of_int (tolower (char_of_byte b)))
  = tolower (char_of_byte b).
Proof.
  unfold ascii_byte. generalize (char_of_byte b). intros c H.
  assert (0 <= tolower c < 128) as Hr
    by (unfold tolower; destruct (isupper c) eqn:E; ctype_solve).
  unfold byte_of_int, char_of_byte. rewrite Z.mod_small by lia.
  destruct (tolower c <? 128) eqn:E; [reflexivity|]. bool_to_Z. lia.
Qed.

Lemma tolower_idem (c : Z) : tolower (tolower c) = tolower c.
Proof.
  unfold tolower. destruct (isupper c) eqn:E; [|now rewrite E].
  replace (isupper (c + 32)) with false; [reflexivity|].
  symmetry. ctype_solve.
Qed.

Lemma tolower_underscore (c : Z) : tolower c = c_underscore -> c = c_underscore.
Proof.
  unfold tolower. destruct (isupper c) eqn:E; [|auto].
  ctype_solve.
Qed.

Lemma canonical_settled (src : list Z) :
  forallb ascii_byte src = true ->
  forallb settled (canonical src) = true.
Proof.
  intros Hascii. apply forallb_forall. intros e He.
  unfold canonical in He. apply in_map_iff in He as (b & <- & Hb).
  apply filter_In in Hb as [Hin Hrel].
  assert (Hab : ascii_byte b = true)
    by now apply (proj1 (forallb_forall _ _) Hascii).
  unfold settled, relevant. rewrite (canonical_byte b Hab), tolower_idem.
  rewrite Z.eqb_refl, andb_true_r.
  apply negb_true_iff, Z.eqb_neq. intros Hu.
  apply tolower_underscore in Hu. apply negb_true_iff, Z.eqb_neq in Hrel.
  contradiction.
Qed.

Lemma tolower_punct (c : Z) : ispunct c = true -> tolower c = c.
Proof.
  intros H. unfold tolower. replace (isupper c) with false; [reflexivity|].
  symmetry. ctype_solve.
Qed.

Lemma tolower_alpha (c : Z) : isalpha c = true -> isalpha (tolower c) = true.
Proof.
  intros H. unfold tolower. destruct (isupper c) eqn:E; [|exact H].
  ctype_solve.
Qed.

Lemma tolower_alnum (c : Z) : isalnum c = true -> isalnum (tolower c) = true.
Proof.
  intros H. unfold tolower. destruct (isupper c) eqn:E; [|exact H].
  ctype_solve.
Qed.

Lemma has_double_underscore_none (l : list Z) :
  forallb relevant l = true -> has_double_underscore l = false.
Proof.
  induction l as [|a rest IH]; intros H; [reflexivity|].
  cbn [forallb] in H. apply andb_true_iff in H as [Ha Hrest].
  destruct rest as [|b rest']; [reflexivity|].
  change (has_double_underscore (a :: b :: rest'))
    with (((char_of_byte a =? c_underscore) && (char_of_byte b =? c_underscore))
          || has_double_underscore (b :: rest')).
  rewrite (IH Hrest), orb_false_r.
  unfold relevant in Ha. apply negb_true_iff in Ha. now rewrite Ha.
Qed.

(** The canonical form of a valid name is a valid name, unless nothing
    is left of it. *)
Lemma canonical_valid (src : list Z) :
  name_is_valid src = true -> canonical src <> [] ->
  name_is_valid (canonical src) = true.
Proof.
  intros Hv Hne. apply name_class_valid.
  pose proof (valid_bytes_ascii src Hv) as Hascii.
  assert (Hrel : forallb relevant (canonical src) = true).
  { pose proof (canonical_settled src Hascii) as Hs.
    apply forallb_forall. intros e He.
    apply (proj1 (forallb_forall _ _) Hs) in He.
    unfold settled in He. now apply andb_true_iff in He as [He _]. }
  destruct (name_is_valid_class src Hv)
    as [_ Hall | d rest -> Ha Hall Hdd | d -> Hm].
  - apply class_operator; [exact Hne|].
    apply forallb_forall. intros e He.
    unfold canonical in He. apply in_map_iff in He as (b & <- & Hb).
    apply filter_In in Hb as [Hin _].
    pose proof (proj1 (forallb_forall _ _) Hall b Hin) as Hp. cbn beta in Hp.
    rewrite canonical_byte by now apply punct_ascii.
    now rewrite tolower_punct.
  - unfold canonical in *. cbn [filter] in *.
    rewrite (alpha_not_underscore _ Ha) in *. cbn [negb map] in *.
    eapply class_alpha; [reflexivity| | |].
    + rewrite canonical_byte by (apply name_byte_ascii; unfold name_byte;
        now rewrite (alpha_alnum _ Ha)).
      now apply tolower_alpha.
    + apply forallb_forall. intros e He.
      apply in_map_iff in He as (b & <- & Hb).
      apply filter_In in Hb as [Hin Hr].
      pose proof (proj1 (forallb_forall _ _) Hall b Hin) as Hn.
      unfold name_byte in *.
      rewrite canonical_byte by (apply name_byte_ascii; exact Hn).
      apply orb_true_iff. left. apply tolower_alnum.
      apply orb_true_iff in Hn as [Hn|Hn]; [exact Hn|].
      apply negb_true_iff in Hr. congruence.
    + apply has_double_underscore_none. exact Hrel.
  - unfold canonical. cbn [filter].
    assert (Hu : (char_of_byte d =? c_underscore) = false)
      by (revert Hm; generalize (char_of_byte d); intros c Hm; ctype_solve).
    rewrite Hu. cbn [negb map].
    apply (class_marker _ (byte_of_int (tolower (char_of_byte d)))); [reflexivity|].
    assert (Hab : ascii_byte d = true).
    { unfold ascii_byte. revert Hm. generalize (char_of_byte d).
      intros c Hm. ctype_solve. }
    rewrite (canonical_byte d Hab).
    replace (tolower (char_of_byte d)) with (char_of_byte d); [exact Hm|].
    unfold tolower. replace (isupper (char_of_byte d)) with false; [reflexivity|].
    symmetry. revert Hm. generalize (char_of_byte d). intros c Hm. ctype_solve.
Qed.

(** What [scanner_normalize] returns, by the value of its flag. *)
Lemma scanner_normalize_eq (x : blob_t) :
  name_is_valid (blob_data x) = true ->
  (fst (scan (blob_data x)) = true \/ canonical (blob_data x) <> []) ->
  scanner_normalize x =
  Ok (mkblob name_handler (tree_position x)
        (if fst (scan (blob_data x)) then blob_data x
         else canonical (blob_data x))).
Proof.
  intros Hv Hne. unfold scanner_normalize. rewrite Hv. cbn [assert rbind].
  pose proof (scan_size (blob_data x)) as Hsz.
  destruct (scan (blob_data x)) as [normalized n]. cbn [fst snd] in *.
  destruct normalized; [reflexivity|].
  destruct Hne as [Hne|Hne]; [discriminate|].
  assert (Hn : (1 <= n)%nat).
  { rewrite Hsz. destruct (canonical (blob_data x)); [congruence|cbn; lia]. }
  unfold name_new. rewrite (name_is_valid_firstn _ n Hv Hn).
  cbn [assert rbind blob_data tree_position tree_handler].
  assert (Hlen : length (firstn n (blob_data x)) = n).
  { rewrite length_firstn. rewrite Hsz, canonical_length.
    pose proof (filter_length_le relevant (blob_data x)). lia. }
  rewrite copy_spec by (rewrite Hlen, Hsz; cbn; lia).
  cbn [rbind firstn app Nat.add]. rewrite skipn_all2 by (rewrite Hlen, Hsz; lia).
  now rewrite app_nil_r.
Qed.

Lemma scan_canonical (src : list Z) :
  name_is_valid src = true -> fst (scan (canonical src)) = true.
Proof.
  intros Hv. unfold scan. apply scan_fst_settled; [|reflexivity].
  apply canonical_settled. now apply valid_bytes_ascii.
Qed.

(** A second normalization finds its argument already normalized. *)
Lemma scanner_normalize_again (x y : blob_t) :
  scanner_normalize x = Ok y -> scanner_normalize y = Ok y.
Proof.
  intros H. pose proof H as H0. unfold scanner_normalize in H.
  destruct (name_is_valid (blob_data x)) eqn:Hv; [|discriminate].
  cbn [assert rbind] in H.
  destruct (scan (blob_data x)) as [normalized n] eqn:Hscan.
  destruct normalized.
  - injection H as <-. unfold scanner_normalize. cbn [blob_data tree_position].
    rewrite Hv. cbn [assert rbind]. now rewrite Hscan.
  - assert (Hne : canonical (blob_data x) <> []).
    { intros Hnil. unfold name_new in H.
      pose proof (scan_size (blob_data x)) as Hsz. rewrite Hscan, Hnil in Hsz.
      cbn in Hsz. subst n. cbn in H. discriminate. }
    rewrite scanner_normalize_eq in H0 by (auto).
    rewrite Hscan in H0. cbn [fst] in H0. injection H0 as <-.
    rewrite scanner_normalize_eq; cbn [blob_data tree_position].
    + now rewrite scan_canonical.
    + now apply canonical_valid.
    + left. now apply scan_canonical.
Qed.

Lemma canonical_nonempty (src : list Z) :
  existsb relevant src = true -> canonical src <> [].
Proof.
  intros H Hnil. apply existsb_exists in H as (b & Hin & Hb).
  assert (In b (filter relevant src)) as Hf by (apply filter_In; auto).
  unfold canonical in Hnil. apply map_eq_nil in Hnil.
  unfold relevant in Hf. rewrite Hnil in Hf. destruct Hf.
Qed.

End Normalization.

(** C7.  Normalization is idempotent: normalizing the result of a
    normalization gives that result again, and on a valid spelling that
    has a byte other than ['_'] both normalizations return. *)
Theorem scanner_normalize_idempotent (x : blob_t) :
  rbind (scanner_normalize x) scanner_normalize = scanner_normalize x /\
  (name_is_valid (blob_data x) = true ->
   existsb relevant (blob_data x) = true ->
   exists y, scanner_normalize x = Ok y /\ scanner_normalize y = Ok y).
Proof.
  split.
  - destruct (scanner_normalize x) as [y|f] eqn:H; [|reflexivity].
    cbn [rbind]. now apply (scanner_normalize_again x).
  - intros Hv Hrel.
    pose proof (scanner_normalize_eq x Hv
                  (or_intror (canonical_nonempty _ Hrel))) as H.
    eexists. split; [exact H|]. now apply (scanner_normalize_again x).
Qed.

Lemma scanner_normalize_idempotent_witness :
  let x := text_new 7 (str "a_B") in
  name_is_valid (blob_data x) = true /\
  existsb relevant (blob_data x) = true /\
  rbind (scanner_normalize x) scanner_normalize = scanner_normalize x /\
  exists y, scanner_normalize x = Ok y /\ scanner_normalize y = Ok y.
Proof.
  intros x.
  split; [reflexivity|]. split; [reflexivity|].
  destruct (scanner_normalize_idempotent x) as [Hk Hex].
  split; [exact Hk|]. apply Hex; reflexivity.
Defined.

(** C5 fails on the code: the flag [normalized] only remembers the last
    byte, so ["Foo"] is returned as it is, capital included, where its
    canonical form is ["foo"]. *)
Lemma scanner_normalize_keeps_capital :
  scanner_normalize (text_new 0 (str "Foo"))
    = Ok (mkblob name_handler 0 (str "Foo")) /\
  name_is_valid (str "Foo") = true /\
  canonical (str "Foo") = str "foo".
Proof. repeat split. Qed.

(** ** The error sink: [errorv], [errors_commit] *)

Section ErrorSink.
Import Errors.

Lemma display_all_spec (errs : list message) : forall k,
  display_all errs k = mksink (errors k) (displayed k ++ errs).
Proof.
  induction errs as [|e rest IH]; intros k; cbn [display_all].
  - rewrite app_nil_r. now destruct k.
  - rewrite IH. cbn. now rewrite <- app_assoc.
Qed.

End ErrorSink.

(** C10.  [error(pos, fmt, ...)] makes a text node at [pos] from the
    format and its arguments; the node is pushed at the end of the
    active errors buffer when there is one, and displayed at once when
    there is none.  [errors_commit(prev)] leaves as the active buffer
    the messages of [prev] followed by those of the current buffer
    when [prev] is not null, and displays the messages of the current
    buffer in order and leaves no buffer when [prev] is null. *)
Theorem error_sink_contract (pos : Z) (fmt : string)
    (va : list Errors.fmt_arg) (current prev shown : list Errors.message) :
  let err := Errors.text_vprintf pos fmt va in
  Errors.message_position err = pos /\
  Errors.error pos fmt va (Errors.mksink (Some current) shown)
    = Errors.mksink (Some (current ++ [err])) shown /\
  Errors.error pos fmt va (Errors.mksink None shown)
    = Errors.mksink None (shown ++ [err]) /\
  Errors.errors_commit (Some prev) (Errors.mksink (Some current) shown)
    = Ok (Errors.mksink (Some (prev ++ current)) shown) /\
  Errors.errors_commit None (Errors.mksink (Some current) shown)
    = Ok (Errors.mksink None (shown ++ current)).
Proof.
  cbn zeta. repeat split.
  unfold Errors.errors_commit, Errors.errors_display.
  cbn [Errors.errors]. now rewrite display_all_spec.
Qed.

(** ** The monad of the scanner *)

Section MonadLaws.
Context {A B C : Type}.

Lemma bind_eval (m : M A) (k : A -> M B) (s s' : scanner_t) (a : A) :
  m s = Ok (a, s') -> bind m k s = k a s'.
Proof. intros H. unfold bind. now rewrite H. Qed.

Lemma bind_inv (m : M A) (k : A -> M B) (s s'' : scanner_t) (b : B) :
  bind m k s = Ok (b, s'') ->
  exists a s', m s = Ok (a, s') /\ k a s' = Ok (b, s'').
Proof.
  unfold bind. destruct (m s) as [[a s']|f]; [|discriminate].
  intros H. now exists a, s'.
Qed.

Lemma bind_assoc (m : M A) (k : A -> M B) (h : B -> M C) (s : scanner_t) :
  bind (bind m k) h s = bind m (fun a => bind (k a) h) s.
Proof. unfold bind. destruct (m s) as [[a s']|f]; reflexivity. Qed.

End MonadLaws.

Section Preservation.
Context {X : Type} (f : scanner_t -> X).

Lemma preserves_ret {A} (a : A) : preserves f (ret a).
Proof. intros s a' s' H. now injection H as _ <-. Qed.

Lemma preserves_bind {A B} (m : M A) (k : A -> M B) :
  preserves f m -> (forall a, preserves f (k a)) -> preserves f (bind m k).
Proof.
  intros Hm Hk s b s'' H. apply bind_inv in H as (a & s' & H1 & H2).
  rewrite (Hk a _ _ _ H2). exact (Hm _ _ _ H1).
Qed.

Lemma preserves_gets {A} (g : scanner_t -> A) : preserves f (gets g).
Proof. intros s a s' H. now injection H as _ <-. Qed.

Lemma preserves_modify (g : scanner_t -> scanner_t) :
  (forall s, f (g s) = f s) -> preserves f (modify g).
Proof. intros Hg s a s' H. injection H as _ <-. apply Hg. Qed.

Lemma preserves_crash {A} (e : fault) : preserves f (@crash A e).
Proof. intros s a s' H. discriminate H. Qed.

Lemma preserves_lift {A} (r : result A) : preserves f (lift r).
Proof.
  intros s a s' H. unfold lift in H. destruct r; [|discriminate].
  now injection H as _ <-.
Qed.

Lemma preserves_when (b : bool) (m : M unit) :
  preserves f m -> preserves f (when b m).
Proof. intros Hm. destruct b; [exact Hm|apply preserves_ret]. Qed.

Lemma preserves_loop {A B} (body : A -> M (A + B)) :
  (forall a, preserves f (body a)) ->
  forall fuel a, preserves f (loop fuel body a).
Proof.
  intros Hbody. induction fuel as [|fuel IH]; intros a; cbn [loop].
  - apply preserves_crash.
  - apply preserves_bind; [apply Hbody|].
    intros [a'|b]; [apply IH|apply preserves_ret].
Qed.

Lemma preserves_while {A B} (body : A -> M (A + B)) (a : A) :
  (forall a, preserves f (body a)) -> preserves f (while body a).
Proof.
  intros Hbody s b s' H. unfold while in H.
  exact (preserves_loop body Hbody _ _ _ _ _ H).
Qed.

End Preservation.

Section Yield.

Lemma yields_ret {A} (Q : A -> Prop) (a : A) : Q a -> yields Q (ret a).
Proof. intros Ha s a' s' H. now injection H as <- _. Qed.

Lemma yields_bind {A B} (Q : B -> Prop) (m : M A) (k : A -> M B) :
  (forall a, yields Q (k a)) -> yields Q (bind m k).
Proof.
  intros Hk s b s'' H. apply bind_inv in H as (a & s' & _ & H2).
  exact (Hk a _ _ _ H2).
Qed.

Lemma yields_bind_with {A B} (P : A -> Prop) (Q : B -> Prop)
    (m : M A) (k : A -> M B) :
  yields P m -> (forall a, P a -> yields Q (k a)) -> yields Q (bind m k).
Proof.
  intros Hm Hk s b s'' H. apply bind_inv in H as (a & s' & H1 & H2).
  exact (Hk a (Hm _ _ _ H1) _ _ _ H2).
Qed.

Lemma yields_crash {A} (Q : A -> Prop) (e : fault) : yields Q (@crash A e).
Proof. intros s a s' H. discriminate H. Qed.

Lemma yields_loop {A B} (Q : B -> Prop) (body : A -> M (A + B)) :
  (forall a, yields (fun r => match r with inl _ => True | inr b => Q b end)
               (body a)) ->
  forall fuel a, yields Q (loop fuel body a).
Proof.
  intros Hbody. induction fuel as [|fuel IH]; intros a; cbn [loop].
  - apply yields_crash.
  - intros s b s'' H. apply bind_inv in H as (r & s' & H1 & H2).
    specialize (Hbody a _ _ _ H1). destruct r as [a'|b'].
    + exact (IH a' _ _ _ H2).
    + now injection H2 as <- _.
Qed.

Lemma yields_while {A B} (Q : B -> Prop) (body : A -> M (A + B)) (a : A) :
  (forall a, yields (fun r => match r with inl _ => True | inr b => Q b end)
               (body a)) ->
  yields Q (while body a).
Proof.
  intros Hbody s b s' H. unfold while in H.
  exact (yields_loop Q body Hbody _ _ _ _ _ H).
Qed.

End Yield.

(** Proves that a computation preserves a projection of the state, from
    the shape of the computation and the lemmas of the hint base. *)
Create HintDb scanner discriminated.

Ltac preserves_step :=
  first
    [ apply preserves_ret
    | apply preserves_gets
    | apply preserves_crash
    | apply preserves_lift
    | apply preserves_modify; intros; reflexivity
    | solve [auto with scanner]
    | apply preserves_when
    | apply preserves_while; intros
    | apply preserves_bind; [|intros]
    | match goal with
      | |- preserves _ (if ?b then _ else _) => destruct b
      | |- preserves _ (match ?x with _ => _ end) => destruct x
      | |- preserves _ (let '(_, _) := ?x in _) => destruct x
      end ].

Ltac preserves_tac := repeat preserves_step.

Section Levels.

Lemma getchar_levels : preserves levels scanner_getchar.
Proof. unfold scanner_getchar. preserves_tac. Qed.

Lemma ungetchar_levels c : preserves levels (scanner_ungetchar c).
Proof. unfold scanner_ungetchar. preserves_tac. Qed.

Lemma consume_levels c : preserves levels (scanner_consume c).
Proof.
  unfold scanner_consume, text_append_char, position_step. preserves_tac.
Qed.
Hint Resolve getchar_levels ungetchar_levels consume_levels : scanner.

Lemma nextchar_levels c : preserves levels (scanner_nextchar c).
Proof. unfold scanner_nextchar. preserves_tac. Qed.

Lemma error_levels pos fmt va : preserves levels (error pos fmt va).
Proof. unfold error. preserves_tac. Qed.
Hint Resolve nextchar_levels error_levels : scanner.

Lemma normalize_source_levels : preserves levels normalize_source.
Proof. unfold normalize_source. preserves_tac. Qed.

Lemma source_data_levels : preserves levels source_data.
Proof. unfold source_data. preserves_tac. Qed.
Hint Resolve normalize_source_levels source_data_levels : scanner.

Lemma skip_spaces_body_levels pos c : preserves levels (skip_spaces_body pos c).
Proof. unfold skip_spaces_body. preserves_tac. Qed.

Lemma skip_underscore_levels pos msg c : preserves levels (skip_underscore pos msg c).
Proof. unfold skip_underscore. preserves_tac. Qed.

Lemma skip_blob_spaces_body_levels c : preserves levels (skip_blob_spaces_body c).
Proof. unfold skip_blob_spaces_body. preserves_tac. Qed.

Lemma digit_at_levels t c : preserves levels (digit_at t c).
Proof. unfold digit_at. preserves_tac. Qed.
Hint Resolve skip_spaces_body_levels skip_underscore_levels
  skip_blob_spaces_body_levels digit_at_levels : scanner.

Lemma digits_body_levels pos n : preserves levels (digits_body pos n).
Proof. unfold digits_body. preserves_tac. Qed.

Lemma blob_select_bits_levels pos n : preserves levels (blob_select_bits pos n).
Proof. unfold blob_select_bits. preserves_tac. Qed.
Hint Resolve digits_body_levels blob_select_bits_levels : scanner.

Lemma number_round_levels pos based n : preserves levels (number_round pos based n).
Proof. unfold number_round. preserves_tac. Qed.
Hint Resolve number_round_levels : scanner.

Lemma number_integral_levels pos n : preserves levels (number_integral pos n).
Proof. unfold number_integral. preserves_tac. Qed.

Lemma blob_finish_levels n : preserves levels (blob_finish n).
Proof. unfold blob_finish. preserves_tac. Qed.

Lemma fraction_body_levels pos n st : preserves levels (fraction_body pos n st).
Proof. unfold fraction_body. preserves_tac. Qed.

Lemma exponent_body_levels st : preserves levels (exponent_body st).
Proof. unfold exponent_body. preserves_tac. Qed.
Hint Resolve number_integral_levels blob_finish_levels fraction_body_levels
  exponent_body_levels : scanner.

Lemma number_finish_levels pos n fp r c :
  preserves levels (number_finish pos n fp r c).
Proof. unfold number_finish. preserves_tac. Qed.
Hint Resolve number_finish_levels : scanner.

Lemma scan_number_levels pos c blob : preserves levels (scan_number pos c blob).
Proof. unfold scan_number. preserves_tac. Qed.

Lemma name_body_levels c : preserves levels (name_body c).
Proof. unfold name_body. preserves_tac. Qed.

Lemma is_block_levels syn name : preserves levels (is_block syn name).
Proof. unfold is_block. preserves_tac. Qed.

Lemma is_block_close_levels name : preserves levels (is_block_close name).
Proof. unfold is_block_close. preserves_tac. Qed.
Hint Resolve name_body_levels is_block_levels is_block_close_levels : scanner.

Lemma classify_name_levels name : preserves levels (classify_name name).
Proof. unfold classify_name. preserves_tac. Qed.
Hint Resolve classify_name_levels : scanner.

Lemma scan_name_levels pos c : preserves levels (scan_name pos c).
Proof. unfold scan_name. preserves_tac. Qed.

Lemma scanner_character_levels text : preserves levels (scanner_character text).
Proof. unfold scanner_character. preserves_tac. Qed.
Hint Resolve scanner_character_levels : scanner.

Lemma text_body_levels pos eos st : preserves levels (text_body pos eos st).
Proof. unfold text_body. preserves_tac. Qed.
Hint Resolve text_body_levels : scanner.

Lemma scan_text_levels pos c : preserves levels (scan_text pos c).
Proof. unfold scan_text. preserves_tac. Qed.

Lemma symbol_body_levels syn c : preserves levels (symbol_body syn c).
Proof. unfold symbol_body. preserves_tac. Qed.

Lemma discovery_body_levels c : preserves levels (discovery_body c).
Proof. unfold discovery_body. preserves_tac. Qed.
Hint Resolve symbol_body_levels discovery_body_levels : scanner.

Lemma scan_symbol_levels pos c : preserves levels (scan_symbol pos c).
Proof. unfold scan_symbol. preserves_tac. Qed.
Hint Resolve scan_number_levels scan_name_levels scan_text_levels
  scan_symbol_levels : scanner.

(** A token that is not a mark of line or indentation leaves the
    indentation levels alone. *)
Lemma scan_token_levels c : preserves levels (scan_token c).
Proof. unfold scan_token. preserves_tac. Qed.

End Levels.

(** Proves that a computation only returns values of a given kind. *)
Ltac yields_step :=
  first
    [ apply yields_ret; reflexivity
    | apply yields_ret; exact I
    | apply yields_crash
    | solve [auto with scanner]
    | apply yields_while; intros
    | apply yields_bind; intros
    | match goal with
      | |- yields _ (if ?b then _ else _) => destruct b
      | |- yields _ (match ?x with _ => _ end) => destruct x
      | |- yields _ (let '(_, _) := ?x in _) => destruct x
      end ].

Ltac yields_tac := repeat yields_step.

Section ValueTokens.

Lemma blob_finish_value n : yields value_token (blob_finish n).
Proof. unfold blob_finish. yields_tac. Qed.

Lemma number_finish_value pos n fp r c :
  yields value_token (number_finish pos n fp r c).
Proof. unfold number_finish. yields_tac. Qed.
Hint Resolve blob_finish_value number_finish_value : scanner.

Lemma scan_number_value pos c blob : yields value_token (scan_number pos c blob).
Proof. unfold scan_number. yields_tac. Qed.

Lemma classify_name_value name : yields value_token (classify_name name).
Proof. unfold classify_name. yields_tac. Qed.
Hint Resolve classify_name_value : scanner.

Lemma scan_name_value pos c : yields value_token (scan_name pos c).
Proof. unfold scan_name. yields_tac. Qed.

Lemma text_body_value pos eos st :
  yields (fun r => match r with inl _ => True | inr b => value_token b end)
    (text_body pos eos st).
Proof. unfold text_body. yields_tac. Qed.
Hint Resolve text_body_value : scanner.

Lemma scan_text_value pos c : yields value_token (scan_text pos c).
Proof. unfold scan_text. yields_tac. Qed.

Lemma symbol_body_value syn c :
  yields (fun r => match r with
                   | inl _ => True
                   | inr found => value_token (snd found)
                   end) (symbol_body syn c).
Proof. unfold symbol_body. yields_tac. Qed.

Lemma discovery_body_value c :
  yields (fun r => match r with
                   | inl _ => True
                   | inr found => value_token (snd found)
                   end) (discovery_body c).
Proof. unfold discovery_body. yields_tac. Qed.
Hint Resolve symbol_body_value discovery_body_value : scanner.

Lemma scan_symbol_value pos c : yields value_token (scan_symbol pos c).
Proof.
  unfold scan_symbol. apply yields_bind. intros syn.
  apply (yields_bind_with (fun found => value_token (snd found))).
  - destruct syn; apply yields_while; intros; auto with scanner.
  - intros [c' tok] Htok. yields_tac. apply yields_ret. exact Htok.
Qed.
Hint Resolve scan_number_value scan_name_value scan_text_value
  scan_symbol_value : scanner.

(** [scan_token] returns a token with a value, never a mark of line or
    indentation. *)
Lemma scan_token_value c : yields value_token (scan_token c).
Proof. unfold scan_token. yields_tac. Qed.

End ValueTokens.

(** ** Indentation *)

Section Stacks.
Context {item : Type}.

Lemma top_push (t : list item) (v : item) :
  TypedBlob.top (TypedBlob.push t v) = Ok v.
Proof.
  unfold TypedBlob.top, TypedBlob.push. rewrite length_app. cbn [length].
  replace (length t + 1 - 1)%nat with (length t) by lia.
  rewrite nth_error_app2 by lia. now rewrite Nat.sub_diag.
Qed.

Lemma pop_push (t : list item) (v : item) :
  TypedBlob.pop (TypedBlob.push t v) = Ok t.
Proof.
  unfold TypedBlob.pop, TypedBlob.push. rewrite length_app. cbn [length].
  replace (0 <? length t + 1)%nat with true
    by (symmetry; apply Nat.ltb_lt; lia).
  cbn [assert rbind]. replace (length t + 1 - 1)%nat with (length t) by lia.
  rewrite firstn_app, Nat.sub_diag, firstn_all. cbn. now rewrite app_nil_r.
Qed.

Lemma top_nil : exists f, TypedBlob.top (@nil item) = Crash f.
Proof. eexists. reflexivity. Qed.

(** A stack on which [top] succeeds is a push. *)
Lemma top_inv (t : list item) (v : item) :
  TypedBlob.top t = Ok v -> exists rest, t = TypedBlob.push rest v.
Proof.
  destruct (rev t) as [|x r] eqn:E.
  - apply (f_equal (@rev item)) in E. rewrite rev_involutive in E. subst t.
    discriminate.
  - apply (f_equal (@rev item)) in E. rewrite rev_involutive in E. cbn in E.
    subst t. change (rev r ++ [x]) with (TypedBlob.push (rev r) x).
    rewrite top_push. intros H. injection H as ->. now exists (rev r).
Qed.

Lemma pop_inv (t t' : list item) :
  TypedBlob.pop t = Ok t' -> exists v, t = TypedBlob.push t' v.
Proof.
  destruct (rev t) as [|x r] eqn:E.
  - apply (f_equal (@rev item)) in E. rewrite rev_involutive in E. subst t.
    discriminate.
  - apply (f_equal (@rev item)) in E. rewrite rev_involutive in E. cbn in E.
    subst t. change (rev r ++ [x]) with (TypedBlob.push (rev r) x).
    rewrite pop_push. intros H. injection H as <-. now exists x.
Qed.

Lemma top_cases (t : list item) :
  t = [] \/ exists v, TypedBlob.top t = Ok v /\ (length t =? 0)%nat = false.
Proof.
  destruct (rev t) as [|x r] eqn:E;
    apply (f_equal (@rev item)) in E; rewrite rev_involutive in E; subst t.
  - now left.
  - right. exists x. cbn [rev].
    change (rev r ++ [x]) with (TypedBlob.push (rev r) x).
    split; [apply top_push|]. unfold TypedBlob.push.
    rewrite length_app. cbn. apply Nat.eqb_neq. lia.
Qed.

Lemma length_push (t : list item) (v : item) :
  length (TypedBlob.push t v) = S (length t).
Proof. unfold TypedBlob.push. rewrite length_app. cbn. lia. Qed.

End Stacks.

(** Computes the fields of updated states, leaving the stacks alone. *)
Tactic Notation "simpl_state" :=
  cbn -[TypedBlob.top TypedBlob.pop TypedBlob.push Z.ltb Z.leb Z.eqb
        Errors.error byte_of_int char_of_byte u32].
Tactic Notation "simpl_state" "in" hyp(H) :=
  cbn -[TypedBlob.top TypedBlob.pop TypedBlob.push Z.ltb Z.leb Z.eqb
        Errors.error byte_of_int char_of_byte u32] in H.

Section Decision.

(** The decision taken on a dedent, computed. *)
Lemma indent_decision_dedent (s1 : scanner_t) (pos c top : Z) (rest : list Z) :
  setting_indent s1 = false ->
  snd (pending_char s1) = 0 ->
  indents s1 = TypedBlob.push rest top ->
  column s1 <= indent s1 -> column s1 < top ->
  exists s2,
    indent_decision pos c s1
      = Ok (if misaligned rest (column s1) then tokERROR else tokUNINDENT, s2) /\
    indents s2 = rest /\ indent s2 = column s1 /\
    sink s2 =
      (if misaligned rest (column s1)
       then Errors.error pos "Unindenting to the right of previous indentation"
              [] (sink s1)
       else sink s1).
Proof.
  intros Hset Hpend Hstack Hle Hlt.
  unfold indent_decision, scanner_ungetchar, indents_top, indents_pop, error.
  unfold bind, gets, modify, lift, ret. simpl_state.
  rewrite Hpend. change (0 =? 0) with true. simpl_state.
  rewrite Hset. simpl_state.
  replace (indent s1 <? column s1) with false by (symmetry; apply Z.ltb_ge; lia).
  simpl_state. rewrite Hstack, top_push.
  replace (column s1 <? top) with true by (symmetry; apply Z.ltb_lt; lia).
  simpl_state. rewrite Hstack, pop_push. simpl_state.
  unfold misaligned, TypedBlob.length_of.
  destruct (top_cases rest) as [-> | (t & Htop & Hlen)].
  - cbn. eexists. split; [reflexivity|]. cbn. auto.
  - rewrite Hlen. simpl_state. rewrite !Htop. simpl_state.
    destruct (t <? column s1); eexists; (split; [reflexivity|]); cbn; auto.
Qed.

(** The same decision on a stack with no level: the comparison of the
    column with the top of the stack reads outside the stack. *)
Lemma indent_decision_no_level (s1 : scanner_t) (pos c : Z) :
  setting_indent s1 = false ->
  snd (pending_char s1) = 0 ->
  indents s1 = [] ->
  column s1 <= indent s1 ->
  indent_decision pos c s1
    = Crash (UndefinedBehaviour "top of an empty stack").
Proof.
  intros Hset Hpend Hstack Hle.
  unfold indent_decision, scanner_ungetchar, indents_top.
  unfold bind, gets, modify, lift, ret. simpl_state.
  rewrite Hpend. change (0 =? 0) with true. simpl_state.
  rewrite Hset. simpl_state.
  replace (indent s1 <? column s1) with false by (symmetry; apply Z.ltb_ge; lia).
  simpl_state. now rewrite Hstack.
Qed.

End Decision.

Section Effects.

Lemma indent_decision_effect (pos c : Z) (s s' : scanner_t) (tok : token_t) :
  indent_decision pos c s = Ok (tok, s') -> level_effect tok s s'.
Proof.
  intros H.
  unfold indent_decision, scanner_ungetchar, indents_top, indents_pop,
    indents_push, error in H.
  unfold bind, gets, modify, lift, ret, assert in H. simpl_state in H.
  destruct (snd (pending_char s) =? 0); [|discriminate]. simpl_state in H.
  destruct (setting_indent s) eqn:Hset; simpl_state in H.
  { injection H as <- <-. split; [right; split; [exact Hset|reflexivity]|].
    intros _. reflexivity. }
  destruct (indent s <? column s); simpl_state in H.
  { injection H as <- <-. split; [reflexivity|]. intros _. exact Hset. }
  destruct (TypedBlob.top (indents s)) as [top|] eqn:Htop; [|discriminate].
  simpl_state in H.
  destruct (column s <? top); simpl_state in H.
  2:{ injection H as <- <-. split; [left; split; [exact Hset|reflexivity]|].
      intros _. exact Hset. }
  destruct (TypedBlob.pop (indents s)) as [rest|] eqn:Hpop; [|discriminate].
  simpl_state in H. apply pop_inv in Hpop as [level Hpop].
  unfold TypedBlob.length_of in H.
  destruct (length rest =? 0)%nat; simpl_state in H.
  { injection H as <- <-. split; [now exists level|]. intros _. exact Hset. }
  destruct (TypedBlob.top rest) as [top'|]; [|discriminate]. simpl_state in H.
  destruct (top' <? column s); injection H as <- <-;
    (split; [now exists level|intros _; exact Hset]).
Qed.

Lemma unindent_pending_levels : preserves levels unindent_pending.
Proof. unfold unindent_pending, indents_top. preserves_tac. Qed.

Lemma levels_fields (s s' : scanner_t) :
  levels s' = levels s ->
  indents s' = indents s /\ indent s' = indent s
  /\ setting_indent s' = setting_indent s.
Proof. unfold levels. intros H. now injection H. Qed.

(** What [scanner_read] has done when it is at the end of the
    whitespace: an early [EOF] or [UNINDENT], or nothing yet to the
    indentation levels. *)
Lemma read_begin_effect (s s1 : scanner_t) (r : token_t + Z * Z) :
  read_begin s = Ok (r, s1) ->
  match r with
  | inl tok => (tok = tokEOF \/ tok = tokUNINDENT) /\ level_effect tok s s1
  | inr _ => levels s1 = levels s
  end.
Proof.
  intros H. unfold read_begin in H.
  apply bind_inv in H as (pos & s0 & H0 & H). injection H0 as <- <-.
  apply bind_inv in H as (? & sa & H0 & H). injection H0 as _ <-.
  apply bind_inv in H as (? & sb & H0 & H). injection H0 as _ <-.
  apply bind_inv in H as (rd & sc & H0 & H). injection H0 as <- <-.
  simpl_state in H. destruct (reader s); cbn [negb] in H.
  2:{ injection H as <- <-. split; [now left|]. split; [reflexivity|auto]. }
  apply bind_inv in H as (? & sd & H0 & H). injection H0 as _ <-.
  apply bind_inv in H as (pending & se & H0 & H).
  apply unindent_pending_levels in H0. change (levels se = levels s) in H0.
  destruct pending.
  - apply levels_fields in H0 as (Hi & _ & Hs).
    apply bind_inv in H as (? & sf & H0 & H). injection H as <- <-.
    unfold indents_pop in H0.
    apply bind_inv in H0 as (t & sg & H0 & H). injection H0 as <- <-.
    apply bind_inv in H as (t' & sh & H0 & H). injection H as _ <-.
    unfold lift in H0. destruct (TypedBlob.pop (indents se)) as [rest|] eqn:Hpop;
      [|discriminate].
    injection H0 as <- <-. apply pop_inv in Hpop as [level Hpop].
    split; [now right|]. split.
    + exists level. simpl_state. now rewrite <- Hi.
    + simpl_state. now rewrite Hs.
  - apply bind_inv in H as (c & sf & H1 & H).
    apply getchar_levels in H1.
    apply bind_inv in H as (? & sg & H2 & H). injection H2 as _ <-.
    apply bind_inv in H as (c' & sh & H2 & H). injection H as <- <-.
    apply (preserves_while levels _ c (skip_spaces_body_levels _)) in H2.
    change (levels sh = levels sf) in H2. congruence.
Qed.

(** The effect of one call on the stack of levels, by its token. *)
Lemma scanner_read_effect (s s' : scanner_t) (tok : token_t) :
  scanner_read s = Ok (tok, s') -> level_effect tok s s'.
Proof.
  intros H. unfold scanner_read in H.
  apply bind_inv in H as (r & s1 & Hbegin & H).
  apply read_begin_effect in Hbegin.
  destruct r as [early|[pos c]].
  - injection H as <- <-. now destruct Hbegin.
  - apply levels_fields in Hbegin as (Hi & Hd & Hs).
    apply bind_inv in H as (checking & s2 & H0 & H). injection H0 as <- <-.
    destruct (checking_indent s1).
    + apply indent_decision_effect in H. unfold level_effect in *.
      rewrite Hi, Hs, Hd in H. exact H.
    + apply bind_inv in H as (rd & s2 & H0 & H). injection H0 as <- <-.
      destruct (reader s1); cbn [negb] in H.
      * pose proof (scan_token_value c _ _ _ H) as Hval.
        apply scan_token_levels, levels_fields in H as (Hi' & _ & Hs').
        unfold level_effect.
        destruct tok; try discriminate Hval; split; congruence.
      * injection H as <- <-. split; congruence.
Qed.

End Effects.

(** ** The loops stay under their bound *)

Section Within.

Lemma within_ret {A} (b : nat) (p : A -> nat) (a : A) :
  (p a <= b)%nat -> within b p (ret a).
Proof. intros Hp s a' s' H. injection H as <- <-. lia. Qed.

Lemma within_crash {A} (b : nat) (p : A -> nat) (e : fault) :
  within b p (crash e).
Proof. intros s a s' H. discriminate H. Qed.

Lemma within_bind {A B} (b : nat) (p1 : A -> nat) (p2 : B -> nat)
    (m : M A) (k : A -> M B) :
  within b p1 m -> (forall a, within (p1 a) p2 (k a)) ->
  within b p2 (bind m k).
Proof.
  intros Hm Hk s x s'' H. apply bind_inv in H as (a & s' & H1 & H2).
  specialize (Hm _ _ _ H1). specialize (Hk _ _ _ _ H2). lia.
Qed.

Lemma within_idle {A} (b : nat) (m : M A) :
  preserves supply m -> within b (fun _ => b) m.
Proof.
  intros Hm s a s' H. apply Hm in H. unfold available.
  unfold supply in H. injection H as -> ->. lia.
Qed.

(** Sequence after a step that leaves the input alone. *)
Lemma within_after {A B} (b : nat) (p : B -> nat) (m : M A) (k : A -> M B) :
  preserves supply m -> (forall a, within b p (k a)) -> within b p (bind m k).
Proof.
  intros Hm Hk. apply (within_bind b (fun _ => b)); [|exact Hk].
  now apply within_idle.
Qed.

(** Sequence after a step that takes a character. *)
Lemma within_next {B} (b : nat) (p : B -> nat) (m : M Z) (k : Z -> M B) :
  within b weight m -> (forall c, within (weight c) p (k c)) ->
  within b p (bind m k).
Proof. intros Hm Hk. now apply (within_bind b weight). Qed.

Lemma getchar_within (b : nat) : within b weight scanner_getchar.
Proof.
  intros s c s' H. unfold scanner_getchar, bind, gets, modify, ret in H.
  unfold available, weight.
  destruct (pending_char s) as [p0 p1] eqn:Ep. cbn [fst snd] in *.
  destruct (char_of_byte p0 =? 0) eqn:E0; cbn [negb] in H.
  - destruct (reader s); cbn [negb] in H.
    + destruct (stream s) as [|x rest] eqn:Es.
      * injection H as <- <-. cbn. rewrite Es, Ep. cbn. lia.
      * injection H as <- <-. cbn. rewrite Ep. cbn.
        destruct (char_of_byte x =? EOF); lia.
    + injection H as <- <-. rewrite Ep. cbn. lia.
  - injection H as <- <-. cbn.
    replace (p0 =? 0) with false
      by (symmetry; apply Z.eqb_neq; intros ->; discriminate E0).
    destruct (p1 =? 0), (char_of_byte p0 =? EOF); lia.
Qed.

End Within.

Section Supply.

Lemma consume_supply c : preserves supply (scanner_consume c).
Proof.
  unfold scanner_consume, text_append_char, position_step. preserves_tac.
Qed.

Lemma error_supply pos fmt va : preserves supply (error pos fmt va).
Proof. unfold error. preserves_tac. Qed.

Lemma digit_at_supply t c : preserves supply (digit_at t c).
Proof. unfold digit_at. preserves_tac. Qed.

Lemma source_data_supply : preserves supply source_data.
Proof. unfold source_data. preserves_tac. Qed.

Lemma is_block_supply syn name : preserves supply (is_block syn name).
Proof. unfold is_block. preserves_tac. Qed.

Lemma is_block_close_supply name : preserves supply (is_block_close name).
Proof. unfold is_block_close. preserves_tac. Qed.

End Supply.

#[local] Hint Resolve consume_supply error_supply digit_at_supply
  source_data_supply is_block_supply is_block_close_supply : scanner.

(** Proves a [within] bound along the steps of a computation. *)
Ltac within_leaf :=
  first
    [ apply within_ret; cbn; lia
    | solve [auto with scanner]
    | match goal with
      | |- within _ _ (if ?b then _ else _) => destruct b
      end ].

Ltac within_step :=
  first
    [ progress cbv zeta
    | apply within_crash
    | apply within_ret; cbn; lia
    | solve [auto with scanner]
    | apply within_after; [solve [preserves_tac] | intros]
    | apply within_next; [solve [repeat within_leaf] | intros]
    | match goal with
      | |- within _ _ (if ?b then _ else _) => destruct b
      | |- within _ _ (match ?x with _ => _ end) => destruct x
      end ].

Ltac within_tac := repeat within_step.

Section Rounds.

Lemma nextchar_within (b : nat) (c : Z) : within b weight (scanner_nextchar c).
Proof.
  unfold scanner_nextchar. apply within_after; [solve [preserves_tac]|].
  intros _. apply getchar_within.
Qed.
Hint Resolve getchar_within nextchar_within : scanner.

Lemma skip_underscore_within pos msg c :
  within (weight c) weight (skip_underscore pos msg c).
Proof. unfold skip_underscore, when. within_tac. Qed.
Hint Resolve skip_underscore_within : scanner.

Lemma within_loop {A B} (pa : A -> nat) (pb : B -> nat) (body : A -> M (A + B)) :
  (forall a, within (pa a)
               (fun r => match r with inl a' => pa a' | inr b => pb b end)
               (body a)) ->
  forall fuel a, within (pa a) pb (loop fuel body a).
Proof.
  intros Hbody. induction fuel as [|fuel IH]; intros a; cbn [loop].
  - intros s b s' H. discriminate H.
  - eapply within_bind; [apply Hbody|].
    intros [a'|b]; [apply IH|]. now apply within_ret.
Qed.

Lemma skip_blob_spaces_within c :
  within (weight c) weight (while skip_blob_spaces_body c).
Proof.
  intros s c' s' H. unfold while in H. revert H.
  apply (within_loop weight weight skip_blob_spaces_body).
  intros a. unfold skip_blob_spaces_body. within_tac.
Qed.
Hint Resolve skip_blob_spaces_within : scanner.

(** A character found in a digit table is not [EOF]. *)
Lemma digit_at_char t c s d s' :
  digit_at t c s = Ok (d, s') -> weight c = 1%nat /\ s' = s.
Proof.
  unfold digit_at. destruct (between 0 255 c) eqn:E; [|discriminate].
  intros H. injection H as _ <-. split; [|reflexivity].
  unfold weight, EOF. unfold between in E.
  replace (c =? -1) with false; [reflexivity|]. symmetry. bool_to_Z.
  apply Z.eqb_neq. lia.
Qed.

(** From a bound on the rest of a round to the progress of the round. *)
Lemma progress_of_within {A B} (ch : A -> Z) (a : A) (m : M (A + B))
    (s s' : scanner_t) (r : A + B) :
  weight (ch a) = 1%nat ->
  within 0 (fun r => match r with inl a' => weight (ch a') | inr _ => 0%nat end) m ->
  m s = Ok (r, s') ->
  match r with
  | inl a' => (potential (ch a') s' < potential (ch a) s)%nat
  | inr _ => True
  end.
Proof.
  intros Hw Hm H. apply Hm in H. unfold potential.
  destruct r; [lia|exact I].
Qed.

Lemma weight_not_eof c : (c =? EOF) = false -> weight c = 1%nat.
Proof. unfold weight. now intros ->. Qed.

Lemma skip_spaces_body_progress pos :
  progresses (fun c => c) (skip_spaces_body pos).
Proof.
  intros c s r s' H. unfold skip_spaces_body in H.
  destruct (isspace c && negb (c =? EOF)) eqn:E.
  - apply andb_true_iff in E as [_ E]. apply negb_true_iff in E.
    revert H.
    apply (progress_of_within (fun c : Z => c) c); [now apply weight_not_eof|].
    unfold when. within_tac.
  - now injection H as <- _.
Qed.

Lemma skip_blob_spaces_body_progress :
  progresses (fun c => c) skip_blob_spaces_body.
Proof.
  intros c s r s' H. unfold skip_blob_spaces_body in H.
  destruct (negb (c =? EOF) && isspace c) eqn:E.
  - apply andb_true_iff in E as [E _]. apply negb_true_iff in E.
    revert H.
    apply (progress_of_within (fun c : Z => c) c); [now apply weight_not_eof|].
    within_tac.
  - now injection H as <- _.
Qed.

Lemma digits_body_progress pos : progresses cur (digits_body pos).
Proof.
  intros n s r s' H. unfold digits_body in H.
  apply bind_inv in H as (d & s0 & Hd & H).
  apply digit_at_char in Hd as [Hw ->].
  destruct ((d <? base n) || is_blob n && (d <? blob_base n)).
  - revert H. apply (progress_of_within cur n); [exact Hw|].
    within_tac.
  - now injection H as <- _.
Qed.

Lemma fraction_body_progress pos n :
  progresses (fun st => snd st) (fraction_body pos n).
Proof.
  intros [[comma real] c] s r s' H. unfold fraction_body in H.
  apply bind_inv in H as (d & s0 & Hd & H).
  apply digit_at_char in Hd as [Hw ->].
  destruct (d <? base n).
  - revert H.
    apply (progress_of_within (fun st : double * double * Z => snd st)
             (comma, real, c)); [exact Hw|].
    within_tac.
  - now injection H as <- _.
Qed.

Lemma exponent_body_progress : progresses (fun st => snd st) exponent_body.
Proof.
  intros [exponent c] s r s' H. unfold exponent_body in H.
  apply bind_inv in H as (d & s0 & Hd & H).
  apply digit_at_char in Hd as [Hw ->].
  destruct (d <? 10).
  - revert H.
    apply (progress_of_within (fun st : Z * Z => snd st) (exponent, c));
      [exact Hw|].
    within_tac.
  - now injection H as <- _.
Qed.

Lemma name_char_not_eof c :
  isalnum c || (c =? c_underscore) || utf8_is_first c || utf8_is_next c = true ->
  weight c = 1%nat.
Proof.
  intros H. apply weight_not_eof. apply Z.eqb_neq. intros ->.
  vm_compute in H. discriminate H.
Qed.

Lemma name_body_progress : progresses (fun c => c) name_body.
Proof.
  intros c s r s' H. unfold name_body in H.
  destruct (isalnum c || (c =? c_underscore) || utf8_is_first c
            || utf8_is_next c) eqn:E.
  - revert H.
    apply (progress_of_within (fun c : Z => c) c);
      [now apply name_char_not_eof|].
    within_tac.
  - now injection H as <- _.
Qed.

Lemma operator_char_not_eof c : is_operator_char c = true -> weight c = 1%nat.
Proof.
  unfold is_operator_char. intros H. apply andb_true_iff in H as [_ H].
  apply negb_true_iff in H. now apply weight_not_eof.
Qed.

Lemma discovery_body_progress : progresses (fun c => c) discovery_body.
Proof.
  intros c s r s' H. unfold discovery_body in H.
  destruct (is_operator_char c) eqn:E.
  - revert H.
    apply (progress_of_within (fun c : Z => c) c);
      [now apply operator_char_not_eof|].
    within_tac.
  - now injection H as <- _.
Qed.

Lemma symbol_body_progress syn : progresses (fun c => c) (symbol_body syn).
Proof.
  intros c s r s' H. unfold symbol_body in H.
  destruct (is_operator_char c) eqn:E.
  - revert H.
    apply (progress_of_within (fun c : Z => c) c);
      [now apply operator_char_not_eof|].
    within_tac.
  - apply bind_inv in H as (more & s0 & H0 & H). injection H0 as <- <-.
    now injection H as <- _.
Qed.

End Rounds.

Section TextRounds.

Lemma supply_available s s' : supply s' = supply s -> available s' = available s.
Proof. unfold supply, available. intros H. now injection H as -> ->. Qed.

(** The end of a text leaves the loop. *)
Lemma text_end_leaves (eos : Z) (text : blob_t) (c : Z) :
  yields (fun r : blob_t * Z + token_t =>
            match r with inl _ => False | inr _ => True end)
    (scanner_ungetchar c ;;
     modify (set_had_space_after (isspace c)) ;;
     if eos =? c_dquote then
       modify (set_scanned (scanned_text text)) ;;
       ret (inr tokTEXT)
     else
       ch <- scanner_character text ;;
       modify (set_scanned ch) ;;
       ret (inr tokCHARACTER)).
Proof. yields_tac. Qed.

Lemma text_body_progress pos eos :
  weight eos = 1%nat ->
  progresses (fun st => snd st) (text_body pos eos).
Proof.
  intros Heos [text c] s r s' H. unfold text_body in H. cbn [snd].
  apply bind_inv in H as (c1 & s1 & H1 & H).
  assert (Hs1 : available s1 = available s /\
                (c1 = eos \/ (c1 = c /\ weight c = 1%nat))).
  { destruct (c =? EOF) eqn:Ec.
    - apply bind_inv in H1 as (? & sa & Ha & H1).
      apply error_supply, supply_available in Ha.
      apply bind_inv in H1 as (? & sb & Hb & H1). injection Hb as _ <-.
      injection H1 as <- <-. split; [exact Ha|now left].
    - injection H1 as <- <-. split; [reflexivity|].
      right. split; [reflexivity|now apply weight_not_eof]. }
  destruct Hs1 as [Hav Hc1].
  assert (Happend : forall c0 text0 s0 r0 s0',
            (c' <- scanner_nextchar c0 ;;
             ret (inl (text0, c')) : M (blob_t * Z + token_t)) s0
              = Ok (r0, s0') ->
            exists c', r0 = inl (text0, c') /\
                       (2 * available s0' + weight c' <= 2 * available s0)%nat).
  { intros c0 text0 s0 r0 s0' Hr.
    apply bind_inv in Hr as (c' & sx & Hn & Hr). injection Hr as <- <-.
    apply (nextchar_within 0) in Hn. exists c'. split; [reflexivity|lia]. }
  destruct (c1 =? eos) eqn:E1.
  - apply Z.eqb_eq in E1. subst c1.
    apply bind_inv in H as (c2 & s2 & H2 & H).
    apply (nextchar_within 0) in H2.
    destruct (c2 =? eos) eqn:E2; cbn [negb] in H.
    + apply Z.eqb_eq in E2. subst c2.
      apply Happend in H as (c' & -> & H). cbn [snd]. unfold potential. lia.
    + apply text_end_leaves in H. destruct r; [contradiction|exact I].
  - destruct Hc1 as [->|[-> Hw]]; [now rewrite Z.eqb_refl in E1|].
    apply Happend in H as (c' & -> & H). cbn [snd]. unfold potential. lia.
Qed.

End TextRounds.

Section Bounded.

Lemma bounded_ret {A} (a : A) : bounded (ret a).
Proof. intros s H. discriminate H. Qed.

Lemma bounded_gets {A} (g : scanner_t -> A) : bounded (gets g).
Proof. intros s H. discriminate H. Qed.

Lemma bounded_modify (g : scanner_t -> scanner_t) : bounded (modify g).
Proof. intros s H. discriminate H. Qed.

Lemma bounded_crash {A} (e : fault) : e <> OutOfFuel -> bounded (@crash A e).
Proof. intros He s H. injection H as H. contradiction. Qed.

Lemma bounded_lift {A} (r : result A) :
  r <> Crash OutOfFuel -> bounded (lift r).
Proof.
  intros Hr s H. unfold lift in H. destruct r; [discriminate|].
  injection H as ->. now apply Hr.
Qed.

Lemma bounded_bind {A B} (m : M A) (k : A -> M B) :
  bounded m -> (forall a, bounded (k a)) -> bounded (bind m k).
Proof.
  intros Hm Hk s H. unfold bind in H.
  destruct (m s) as [[a s']|f] eqn:E.
  - exact (Hk a s' H).
  - injection H as ->. exact (Hm s E).
Qed.

Lemma bounded_when (b : bool) (m : M unit) : bounded m -> bounded (when b m).
Proof. intros Hm. destruct b; [exact Hm|apply bounded_ret]. Qed.

Lemma available_le (s : scanner_t) : (available s <= length (stream s) + 2)%nat.
Proof.
  unfold available.
  destruct (fst (pending_char s) =? 0), (snd (pending_char s) =? 0); lia.
Qed.

Lemma potential_lt_rounds (c : Z) (s : scanner_t) :
  (potential c s < rounds s)%nat.
Proof.
  unfold potential, rounds, weight. pose proof (available_le s).
  destruct (c =? EOF); lia.
Qed.

(** A loop whose rounds lower the potential has rounds to spare. *)
Lemma bounded_loop {A B} (ch : A -> Z) (body : A -> M (A + B)) :
  (forall a, bounded (body a)) -> progresses ch body ->
  forall fuel a s,
    (potential (ch a) s < fuel)%nat -> loop fuel body a s <> Crash OutOfFuel.
Proof.
  intros Hbody Hprog. induction fuel as [|fuel IH]; intros a s Hlt; [lia|].
  cbn [loop]. unfold bind.
  destruct (body a s) as [[r s']|f] eqn:E.
  - specialize (Hprog _ _ _ _ E). destruct r as [a'|b].
    + apply IH. lia.
    + discriminate.
  - intros H. injection H as ->. exact (Hbody a s E).
Qed.

Lemma bounded_while {A B} (ch : A -> Z) (body : A -> M (A + B)) (a : A) :
  (forall a, bounded (body a)) -> progresses ch body ->
  bounded (while body a).
Proof.
  intros Hbody Hprog s. unfold while.
  apply (bounded_loop ch body Hbody Hprog). apply potential_lt_rounds.
Qed.

Lemma assert_no_fuel b msg : assert b msg <> Crash OutOfFuel.
Proof. unfold assert. destruct b; discriminate. Qed.

Lemma top_no_fuel (t : list Z) : TypedBlob.top t <> Crash OutOfFuel.
Proof.
  unfold TypedBlob.top.
  destruct (nth_error t (length t - 1)); discriminate.
Qed.

Lemma pop_no_fuel (t : list Z) : TypedBlob.pop t <> Crash OutOfFuel.
Proof.
  unfold TypedBlob.pop, assert. destruct (0 <? length t)%nat; discriminate.
Qed.

Lemma copy_no_fuel (src : list Z) : forall dst out,
  copy src dst out <> Crash OutOfFuel.
Proof.
  induction src as [|b rest IH]; intros dst out; cbn [copy]; [discriminate|].
  destruct (char_of_byte b =? c_underscore); [apply IH|].
  unfold store. destruct (dst <? length out)%nat; cbn [rbind];
    [apply IH|discriminate].
Qed.

Lemma scanner_normalize_no_fuel (x : blob_t) :
  scanner_normalize x <> Crash OutOfFuel.
Proof.
  unfold scanner_normalize, name_new, assert.
  destruct (name_is_valid (blob_data x)); cbn [rbind]; [|discriminate].
  destruct (scan (blob_data x)) as [[] n]; [discriminate|].
  destruct (name_is_valid (firstn n (blob_data x))); cbn [rbind];
    [|discriminate].
  cbn [blob_data].
  destruct (copy (blob_data x) 0 (firstn n (blob_data x))) eqn:E;
    cbn [rbind]; [discriminate|].
  intros H. injection H as ->. exact (copy_no_fuel _ _ _ E).
Qed.

End Bounded.

#[local] Hint Resolve assert_no_fuel top_no_fuel pop_no_fuel
  scanner_normalize_no_fuel : scanner.
#[local] Hint Resolve skip_spaces_body_progress skip_blob_spaces_body_progress
  digits_body_progress fraction_body_progress exponent_body_progress
  name_body_progress discovery_body_progress symbol_body_progress : scanner.

(** Proves that a computation never stops on the bound of a loop. *)
Ltac bounded_step :=
  first
    [ progress cbv zeta
    | apply bounded_ret
    | apply bounded_gets
    | apply bounded_modify
    | apply bounded_crash; discriminate
    | apply bounded_lift; solve [auto with scanner]
    | solve [auto with scanner]
    | apply bounded_when
    | eapply bounded_while; [intros | solve [auto with scanner]]
    | apply bounded_bind; [|intros]
    | match goal with
      | |- bounded (if ?b then _ else _) => destruct b eqn:?
      | |- bounded (match ?x with _ => _ end) => destruct x
      | |- bounded (let '(_, _) := ?x in _) => destruct x
      end ].

Ltac bounded_tac := repeat bounded_step.

Section BoundedScanner.

Lemma getchar_bounded : bounded scanner_getchar.
Proof. unfold scanner_getchar. bounded_tac. Qed.

Lemma ungetchar_bounded c : bounded (scanner_ungetchar c).
Proof. unfold scanner_ungetchar. bounded_tac. Qed.

Lemma consume_bounded c : bounded (scanner_consume c).
Proof. unfold scanner_consume, text_append_char, position_step. bounded_tac. Qed.
Hint Resolve getchar_bounded ungetchar_bounded consume_bounded : scanner.

Lemma nextchar_bounded c : bounded (scanner_nextchar c).
Proof. unfold scanner_nextchar. bounded_tac. Qed.

Lemma error_bounded pos fmt va : bounded (error pos fmt va).
Proof. unfold error. bounded_tac. Qed.

Lemma indents_top_bounded : bounded indents_top.
Proof. unfold indents_top. bounded_tac. Qed.

Lemma indents_pop_bounded : bounded indents_pop.
Proof. unfold indents_pop. bounded_tac. Qed.

Lemma indents_push_bounded v : bounded (indents_push v).
Proof. unfold indents_push. bounded_tac. Qed.

Lemma normalize_source_bounded : bounded normalize_source.
Proof. unfold normalize_source. bounded_tac. Qed.

Lemma source_data_bounded : bounded source_data.
Proof. unfold source_data. bounded_tac. Qed.

Lemma digit_at_bounded t c : bounded (digit_at t c).
Proof. unfold digit_at. bounded_tac. Qed.
Hint Resolve nextchar_bounded error_bounded indents_top_bounded
  indents_pop_bounded indents_push_bounded normalize_source_bounded
  source_data_bounded digit_at_bounded : scanner.

Lemma skip_spaces_body_bounded pos c : bounded (skip_spaces_body pos c).
Proof. unfold skip_spaces_body. bounded_tac. Qed.

Lemma skip_underscore_bounded pos msg c : bounded (skip_underscore pos msg c).
Proof. unfold skip_underscore. bounded_tac. Qed.

Lemma skip_blob_spaces_body_bounded c : bounded (skip_blob_spaces_body c).
Proof. unfold skip_blob_spaces_body. bounded_tac. Qed.
Hint Resolve skip_spaces_body_bounded skip_underscore_bounded
  skip_blob_spaces_body_bounded : scanner.

Lemma indent_decision_bounded pos c : bounded (indent_decision pos c).
Proof. unfold indent_decision. bounded_tac. Qed.

Lemma digits_body_bounded pos n : bounded (digits_body pos n).
Proof. unfold digits_body. bounded_tac. Qed.

Lemma blob_select_bits_bounded pos n : bounded (blob_select_bits pos n).
Proof. unfold blob_select_bits. bounded_tac. Qed.
Hint Resolve indent_decision_bounded digits_body_bounded
  blob_select_bits_bounded : scanner.

Lemma number_round_bounded pos based n : bounded (number_round pos based n).
Proof. unfold number_round. bounded_tac. Qed.
Hint Resolve number_round_bounded : scanner.

Lemma number_integral_bounded pos n : bounded (number_integral pos n).
Proof. unfold number_integral. bounded_tac. Qed.

Lemma blob_finish_bounded n : bounded (blob_finish n).
Proof. unfold blob_finish. bounded_tac. Qed.

Lemma fraction_body_bounded pos n st : bounded (fraction_body pos n st).
Proof. unfold fraction_body. bounded_tac. Qed.

Lemma exponent_body_bounded st : bounded (exponent_body st).
Proof. unfold exponent_body. bounded_tac. Qed.
Hint Resolve number_integral_bounded blob_finish_bounded
  fraction_body_bounded exponent_body_bounded : scanner.

Lemma number_finish_bounded pos n fp r c :
  bounded (number_finish pos n fp r c).
Proof. unfold number_finish. bounded_tac. Qed.
Hint Resolve number_finish_bounded : scanner.

Lemma scan_number_bounded pos c blob : bounded (scan_number pos c blob).
Proof. unfold scan_number. bounded_tac. Qed.

Lemma name_body_bounded c : bounded (name_body c).
Proof. unfold name_body. bounded_tac. Qed.

Lemma is_block_bounded syn name : bounded (is_block syn name).
Proof. unfold is_block. bounded_tac. Qed.

Lemma is_block_close_bounded name : bounded (is_block_close name).
Proof. unfold is_block_close. bounded_tac. Qed.
Hint Resolve name_body_bounded is_block_bounded is_block_close_bounded : scanner.

Lemma classify_name_bounded name : bounded (classify_name name).
Proof. unfold classify_name. bounded_tac. Qed.
Hint Resolve classify_name_bounded : scanner.

Lemma scan_name_bounded pos c : bounded (scan_name pos c).
Proof. unfold scan_name. bounded_tac. Qed.

Lemma scanner_character_bounded text : bounded (scanner_character text).
Proof. unfold scanner_character. bounded_tac. Qed.
Hint Resolve scanner_character_bounded : scanner.

Lemma text_body_bounded pos eos st : bounded (text_body pos eos st).
Proof. unfold text_body. bounded_tac. Qed.
Hint Resolve text_body_bounded : scanner.

Lemma scan_text_bounded pos c :
  (c =? c_dquote) || (c =? c_quote) = true -> bounded (scan_text pos c).
Proof.
  intros Hc. unfold scan_text. apply bounded_bind; [auto with scanner|].
  intros c'.
  apply (bounded_while (fun st : blob_t * Z => snd st));
    [intros; auto with scanner|].
  apply text_body_progress.
  apply orb_true_iff in Hc as [Hc|Hc]; apply Z.eqb_eq in Hc; subst c;
    reflexivity.
Qed.

Hint Resolve scan_text_bounded : scanner.

Lemma symbol_body_bounded syn c : bounded (symbol_body syn c).
Proof. unfold symbol_body. bounded_tac. Qed.

Lemma discovery_body_bounded c : bounded (discovery_body c).
Proof. unfold discovery_body. bounded_tac. Qed.
Hint Resolve symbol_body_bounded discovery_body_bounded : scanner.

Lemma scan_symbol_bounded pos c : bounded (scan_symbol pos c).
Proof. unfold scan_symbol. bounded_tac. Qed.
Hint Resolve scan_number_bounded scan_name_bounded scan_symbol_bounded : scanner.

Lemma scan_token_bounded c : bounded (scan_token c).
Proof. unfold scan_token. bounded_tac. Qed.

Lemma unindent_pending_bounded : bounded unindent_pending.
Proof. unfold unindent_pending. bounded_tac. Qed.
Hint Resolve scan_token_bounded unindent_pending_bounded : scanner.

Lemma read_begin_bounded : bounded read_begin.
Proof. unfold read_begin. bounded_tac. Qed.
Hint Resolve read_begin_bounded : scanner.

(** Whatever the state, [scanner_read] returns or stops on a fault of
    the program: the bound that the loops of the model carry is never
    what stops it. *)
Lemma scanner_read_bounded : bounded scanner_read.
Proof. unfold scanner_read. bounded_tac. Qed.

End BoundedScanner.
Local Open Scope string_scope.

(** ** Scans of given inputs *)

Lemma classify_name_plain (name : blob_t) (sy : syntax_t) (s : scanner_t) :
  syntax s = Some sy ->
  syntax_is_block sy (blob_data name) = None ->
  block_close s = None ->
  classify_name name s = Ok (tokNAME, s).
Proof.
  intros Hsy Hblock Hclose.
  unfold classify_name, bind, gets, is_block, is_block_close.
  rewrite Hsy, Hblock. cbn. unfold bind, gets. now rewrite Hclose.
Qed.

(** Runs the computation at the head of a sequence on a concrete state. *)
Ltac run_head :=
  erewrite bind_eval by (vm_compute; reflexivity); cbv beta iota.

(** Decides the closed test of the conditional at the head. *)
Ltac run_if :=
  match goal with
  | |- (if ?b then _ else _) _ = _ =>
      let v := eval vm_compute in b in change b with v; cbv iota
  end.

(** C1, as the code has it.  On the input of two spaces, a newline, two
    spaces, [foo] and a newline, successive calls of [scanner_read]
    return [INDENT], [NAME] with the name [foo], [UNINDENT] and [EOF],
    and no [NEWLINE]. *)
Theorem scanner_read_indented_foo (syn : option syntax_t) :
  (forall sy, syn = Some sy -> syntax_is_block sy (str "foo") = None) ->
  value_of (scanner_trace 4 (scanner_on syn indented_foo)) =
  Ok [ (tokINDENT, scanned_none);
       (tokNAME, scanned_name (mkblob name_handler 4 (str "foo")));
       (tokUNINDENT, scanned_none);
       (tokEOF, scanned_none) ].
Proof.
  intros Hblock. destruct syn as [sy|]; [|vm_compute; reflexivity].
  specialize (Hblock sy eq_refl).
  cbn [scanner_trace]. run_head. run_head. rewrite bind_assoc.
  erewrite (bind_eval scanner_read).
  2:{ unfold scanner_read. run_head. run_head. cbn [negb]. run_head. cbn [negb].
      unfold scan_token. do 4 run_head. do 2 run_if.
      unfold scan_name. do 5 run_head.
      apply (classify_name_plain _ sy);
        [reflexivity | exact Hblock | reflexivity]. }
  cbv beta iota. vm_compute. reflexivity.
Qed.

Lemma scanner_read_indented_foo_witness :
  value_of (scanner_trace 4 (scanner_on None indented_foo)) =
  Ok [ (tokINDENT, scanned_none);
       (tokNAME, scanned_name (mkblob name_handler 4 (str "foo")));
       (tokUNINDENT, scanned_none);
       (tokEOF, scanned_none) ].
Proof.
  apply (scanner_read_indented_foo None). intros sy H. discriminate H.
Defined.

(** C1 as stated fails: the six tokens are not [NEWLINE], [INDENT],
    [NAME], [NEWLINE], [UNINDENT], [EOF]. *)
Lemma scanner_read_indented_foo_no_newline :
  value_of (scanner_reads 6 (scanner_on None indented_foo))
    = Ok [tokINDENT; tokNAME; tokUNINDENT; tokEOF; tokEOF; tokEOF] /\
  value_of (scanner_reads 6 (scanner_on None indented_foo))
    <> Ok [tokNEWLINE; tokINDENT; tokNAME; tokNEWLINE; tokUNINDENT; tokEOF].
Proof. split; [vm_compute; reflexivity | vm_compute; discriminate]. Qed.

(** C8 fails on the code: [blob_bits] and [blob_chunk] are not reset
    when a byte is recorded, so that every digit after the second one
    records a byte, and the last chunk is recorded once more at the
    end.  The blob of [$16#DEAD_BEEF$] has eight bytes. *)
Lemma scanner_read_blob_dead_beef (syn : option syntax_t) :
  value_of (scanner_trace 1 (scanner_on syn (str "$16#DEAD_BEEF$"))) =
  Ok [ (tokBLOB,
        scanned_blob (mkblob blob_handler 0
                        [0xDE; 0xEA; 0xAD; 0xDB; 0xBE; 0xEE; 0xEF; 0xEF])) ].
Proof. vm_compute. reflexivity. Qed.

(** C9 fails on the code at the third read.  The first two reads of
    [1..3] are as the claim says, the two pushed-back dots being read
    again in their order; the third reads [3], then the end of input,
    and looks [EOF] up in the table of digit values, outside the
    table. *)
Lemma scanner_read_range_of_integers :
  value_of (scanner_trace 2 (scanner_on None (str "1..3"))) =
    Ok [ (tokINTEGER, scanned_natural 0 1);
         (tokSYMBOL, scanned_name (mkblob name_handler 0 (str ".."))) ] /\
  (exists s, scanner_read (scanner_on None (str "1..3")) = Ok (tokINTEGER, s)
             /\ pending_char s = (c_dot, c_dot) /\ stream s = str "3") /\
  value_of (scanner_trace 3 (scanner_on None (str "1..3"))) =
    Crash (UndefinedBehaviour "digit table read outside its 256 entries").
Proof.
  split; [vm_compute; reflexivity|]. split; [|vm_compute; reflexivity].
  eexists. split; [vm_compute; reflexivity|]. split; reflexivity.
Qed.

(** With a character after the [3], here a newline, the third read is
    the [INTEGER] 3. *)
Lemma scanner_read_range_then_newline :
  value_of (scanner_trace 3 (scanner_on None (str ("1..3" ++ NL)))) =
    Ok [ (tokINTEGER, scanned_natural 0 1);
         (tokSYMBOL, scanned_name (mkblob name_handler 0 (str "..")));
         (tokINTEGER, scanned_natural 4 3) ].
Proof. vm_compute. reflexivity. Qed.

(** C4 fails on the code: a scanner starts with no indentation level,
    and the first line break at column 0 compares the column with the
    top of the empty stack. *)
Lemma scanner_read_top_of_empty_stack (syn : option syntax_t) :
  scanner_read (scanner_on syn (str (NL ++ "foo"))) =
  Crash (UndefinedBehaviour "top of an empty stack").
Proof. vm_compute. reflexivity. Qed.

(** C2 as stated fails.  At the third line break the column is 1 and
    the stack holds 2 and 4; after the pop the new top, 2, exceeds the
    column, and the token is [UNINDENT], with no error reported. *)
Lemma scanner_read_dedent_below_new_top :
  exists s,
    scanner_reads 5 (scanner_on None dedent_two_levels)
      = Ok ([tokINDENT; tokNAME; tokINDENT; tokNAME; tokUNINDENT], s) /\
    indents s = [2] /\ column s = 1 /\ indent s = 1 /\
    sink s = Errors.mksink None [].
Proof. eexists. split; [vm_compute; reflexivity|]. repeat split. Qed.


(** C2, as the code has it.  When [scanner_read], deciding indentation
    after a newline with [setting_indent] false, finds the measured
    column not greater than [indent] and smaller than the top of the
    indent stack, it pops one level and sets [indent] to the column;
    then, if the stack still has a level and its new top is smaller
    than the column, it reports the error "Unindenting to the right of
    previous indentation" and returns [ERROR], and otherwise it returns
    [UNINDENT].  The second cell of pending characters is free, which
    the pushback of the character in hand asserts. *)
Theorem scanner_read_dedent (s s1 : scanner_t) (pos c top : Z) (rest : list Z) :
  read_begin s = Ok (inr (pos, c), s1) ->
  checking_indent s1 = true ->
  setting_indent s1 = false ->
  snd (pending_char s1) = 0 ->
  indents s1 = TypedBlob.push rest top ->
  column s1 <= indent s1 ->
  column s1 < top ->
  exists s2,
    scanner_read s
      = Ok (if misaligned rest (column s1) then tokERROR else tokUNINDENT, s2) /\
    indents s2 = rest /\ indent s2 = column s1 /\
    sink s2 =
      (if misaligned rest (column s1)
       then Errors.error pos "Unindenting to the right of previous indentation"
              [] (sink s1)
       else sink s1).
Proof.
  intros Hbegin Hchecking Hset Hpend Hstack Hle Hlt.
  unfold scanner_read. rewrite (bind_eval _ _ _ _ _ Hbegin). cbv beta iota.
  rewrite (bind_eval (gets checking_indent) _ s1 s1 true)
    by (unfold gets; now rewrite Hchecking).
  cbv beta iota. now apply (indent_decision_dedent s1 pos c top rest).
Qed.

Lemma scanner_read_dedent_witness :
  let s := state_after 4 (scanner_on None misaligned_dedent) in
  exists s2,
    scanner_read s = Ok (tokERROR, s2) /\ indents s2 = [1] /\ indent s2 = 2.
Proof.
  intros s.
  pose (s1 := match read_begin s with Ok (_, s1) => s1 | Crash _ => s end).
  assert (Hm : misaligned [1] (column s1) = true) by (vm_compute; reflexivity).
  assert (Hc : column s1 = 2) by (vm_compute; reflexivity).
  destruct (scanner_read_dedent s s1 7 99 3 [1]) as (s2 & H1 & H2 & H3 & _).
  - vm_compute; reflexivity.
  - vm_compute; reflexivity.
  - vm_compute; reflexivity.
  - vm_compute; reflexivity.
  - vm_compute; reflexivity.
  - rewrite Hc. vm_compute. discriminate.
  - rewrite Hc. reflexivity.
  - rewrite Hm in H1. rewrite Hc in H3. exists s2. auto.
Defined.

Section Balance.

Lemma occurrences_cons (tok t : token_t) (toks : list token_t) :
  occurrences tok (t :: toks) =
  ((if token_t_beq t tok then 1 else 0) + occurrences tok toks)%nat.
Proof.
  unfold occurrences. cbn [count_occ].
  destruct (token_t_eq_dec t tok) as [->|Hne].
  - now replace (token_t_beq tok tok) with true by (now destruct tok).
  - replace (token_t_beq t tok) with false; [reflexivity|].
    symmetry. destruct t, tok; try reflexivity; congruence.
Qed.

(** The read of the top of the stack, and what follows it, are those
    of [indents_top] and [indent_decision] wherever these return. *)
Lemma indent_decision_word_strict (word : scanner_t -> Z) (pos c : Z)
    (s : scanner_t) (r : token_t * scanner_t) :
  indent_decision pos c s = Ok r -> indent_decision_word word pos c s = Ok r.
Proof.
  intros H. destruct r as [tok s']. unfold indent_decision in H.
  unfold indent_decision_word.
  apply bind_inv in H as (? & s1 & H1 & H). rewrite (bind_eval _ _ _ _ _ H1).
  apply bind_inv in H as (? & s2 & H2 & H). rewrite (bind_eval _ _ _ _ _ H2).
  apply bind_inv in H as (setting & s3 & H3 & H).
  rewrite (bind_eval _ _ _ _ _ H3).
  apply bind_inv in H as (col & s4 & H4 & H). rewrite (bind_eval _ _ _ _ _ H4).
  apply bind_inv in H as (ind & s5 & H5 & H). rewrite (bind_eval _ _ _ _ _ H5).
  destruct setting; [exact H|]. destruct (ind <? col)%Z; [exact H|].
  apply bind_inv in H as (top & s6 & H6 & H).
  enough (H6' : indents_top_word word s5 = Ok (top, s6))
    by (rewrite (bind_eval _ _ _ _ _ H6'); exact H).
  revert H6. unfold indents_top, indents_top_word, bind, gets, lift.
  destruct (indents s5); [discriminate|trivial].
Qed.

Lemma scanner_read_word_strict (word : scanner_t -> Z) (s : scanner_t)
    (r : token_t * scanner_t) :
  scanner_read s = Ok r -> scanner_read_word word s = Ok r.
Proof.
  intros H. destruct r as [tok s']. unfold scanner_read in H.
  unfold scanner_read_word.
  apply bind_inv in H as (b & s1 & H1 & H). rewrite (bind_eval _ _ _ _ _ H1).
  destruct b as [early|[pos c]]; [exact H|].
  apply bind_inv in H as (checking & s2 & H2 & H).
  rewrite (bind_eval _ _ _ _ _ H2).
  destruct checking; [|exact H]. now apply indent_decision_word_strict.
Qed.

Lemma scanner_reads_word_strict (word : scanner_t -> Z) (n : nat) :
  forall (s : scanner_t) (r : list token_t * scanner_t),
  scanner_reads n s = Ok r -> scanner_reads_word word n s = Ok r.
Proof.
  induction n as [|n IH]; intros s r H; [exact H|].
  destruct r as [toks' s']. cbn [scanner_reads] in H.
  cbn [scanner_reads_word].
  apply bind_inv in H as (tok & s1 & H1 & H).
  rewrite (bind_eval _ _ _ _ _ (scanner_read_word_strict word _ _ H1)).
  apply bind_inv in H as (toks & s2 & H2 & H).
  now rewrite (bind_eval _ _ _ _ _ (IH _ _ H2)).
Qed.

(** The effect of the decision on the levels, whatever the word read
    on a stack with no item: when the column is below it the pop fails
    its assertion, otherwise the token is [NEWLINE] and the stack stays
    empty. *)
Lemma indent_decision_word_effect (word : scanner_t -> Z) (pos c : Z)
    (s s' : scanner_t) (tok : token_t) :
  indent_decision_word word pos c s = Ok (tok, s') -> level_effect tok s s'.
Proof.
  intros H.
  destruct (indents s) as [|x l] eqn:Hstack.
  2:{ apply (indent_decision_effect pos c). rewrite <- H.
      unfold indent_decision, indent_decision_word.
      unfold scanner_ungetchar, indents_top, indents_top_word.
      unfold bind, gets, modify, lift, ret, assert. simpl_state.
      destruct (snd (pending_char s) =? 0)%Z; [|reflexivity]. simpl_state.
      destruct (setting_indent s); [reflexivity|].
      destruct (indent s <? column s)%Z; [reflexivity|].
      simpl_state. now rewrite Hstack. }
  unfold indent_decision_word, scanner_ungetchar, indents_top_word,
    indents_pop, indents_push, error in H.
  unfold bind, gets, modify, lift, ret, assert in H. simpl_state in H.
  destruct (snd (pending_char s) =? 0)%Z; [|discriminate]. simpl_state in H.
  destruct (setting_indent s) eqn:Hset; simpl_state in H.
  { injection H as <- <-. split; [right; split; [exact Hset|reflexivity]|].
    intros _. reflexivity. }
  destruct (indent s <? column s)%Z; simpl_state in H.
  { injection H as <- <-. split; [reflexivity|]. intros _. exact Hset. }
  rewrite Hstack in H. simpl_state in H.
  destruct (column s <? _)%Z; simpl_state in H.
  - rewrite Hstack in H. discriminate H.
  - injection H as <- <-. split; [left; split; [exact Hset|reflexivity]|].
    intros _. exact Hset.
Qed.

Lemma scanner_read_word_effect (word : scanner_t -> Z) (s s' : scanner_t)
    (tok : token_t) :
  scanner_read_word word s = Ok (tok, s') -> level_effect tok s s'.
Proof.
  intros H. unfold scanner_read_word in H.
  apply bind_inv in H as (r & s1 & Hbegin & H).
  destruct r as [early|[pos c]].
  - apply (scanner_read_effect s s' tok). unfold scanner_read.
    now rewrite (bind_eval _ _ _ _ _ Hbegin).
  - apply bind_inv in H as (checking & s2 & H0 & H). injection H0 as <- <-.
    destruct (checking_indent s1) eqn:Hchk.
    + apply read_begin_effect, levels_fields in Hbegin as (Hi & Hd & Hs).
      apply indent_decision_word_effect in H. unfold level_effect in *.
      rewrite Hi, Hs, Hd in H. exact H.
    + apply (scanner_read_effect s s' tok). unfold scanner_read.
      rewrite (bind_eval _ _ _ _ _ Hbegin). unfold bind at 1, gets at 1.
      now rewrite Hchk.
Qed.

(** In a run that starts with [setting_indent] unset, the levels pushed
    by [INDENT] and not yet popped by [UNINDENT] or [ERROR] are those on
    the stack. *)
Lemma scanner_reads_balance (word : scanner_t -> Z) (n : nat) :
  forall s0 toks s,
  setting_indent s0 = false ->
  scanner_reads_word word n s0 = Ok (toks, s) ->
  setting_indent s = false /\
  (occurrences tokINDENT toks + length (indents s0) =
   length (indents s) + occurrences tokUNINDENT toks
   + occurrences tokERROR toks)%nat.
Proof.
  induction n as [|n IH]; intros s0 toks s Hset H;
    cbn [scanner_reads_word] in H.
  - injection H as <- <-. split; [exact Hset|]. cbn. lia.
  - apply bind_inv in H as (tok & s1 & Hread & H).
    apply bind_inv in H as (rest & s2 & Hrest & H). injection H as <- <-.
    apply scanner_read_word_effect in Hread as [Hstack Hset1].
    specialize (Hset1 Hset).
    destruct (IH s1 rest s2 Hset1 Hrest) as [Hset2 Hcount].
    split; [exact Hset2|]. rewrite !occurrences_cons.
    assert (Hlen :
      match tok with
      | tokINDENT => length (indents s1) = S (length (indents s0))
      | tokUNINDENT | tokERROR => length (indents s0) = S (length (indents s1))
      | _ => length (indents s1) = length (indents s0)
      end).
    { destruct tok; cbn beta iota in Hstack;
        lazymatch type of Hstack with
        | exists _, _ =>
            destruct Hstack as [level ->]; now rewrite length_push
        | _ \/ _ =>
            destruct Hstack as [[_ ->]|[Habs _]]; [reflexivity|congruence]
        | _ = TypedBlob.push _ _ => now rewrite Hstack, length_push
        | _ => now rewrite Hstack
        end. }
    destruct tok; cbn [token_t_beq]; lia.
Qed.

End Balance.



(* ====================================================================== *)
(** * Further properties of the code *)
(* ====================================================================== *)

Local Open Scope list_scope.
Local Open Scope Z_scope.

(** ** Names: the whole of [name_is_valid], and [name_is_operator] *)

(** X1.  [name_is_valid] accepts exactly three shapes of spelling: a
    non-empty run of punctuation characters; a letter followed by
    letters, digits and underscores with no two underscores in a row;
    one of the single bytes line feed, tab and backspace. *)
Theorem name_is_valid_shapes (src : list Z) :
  name_is_valid src = true <-> name_class src.
Proof. split; [apply name_is_valid_class | apply name_class_valid]. Qed.

(** X2.  A valid name is not empty and all its bytes are ASCII: a byte
    with its high bit set is a negative [char], which none of the
    character tests accepts. *)
Theorem name_is_valid_ascii (src : list Z) :
  name_is_valid src = true ->
  src <> [] /\ forallb ascii_byte src = true.
Proof.
  intros H. split; [|now apply valid_bytes_ascii].
  destruct src; [discriminate H|discriminate].
Qed.

Lemma name_is_valid_ascii_witness :
  name_is_valid (str "then") = true /\
  str "then" <> [] /\ forallb ascii_byte (str "then") = true.
Proof. split; [reflexivity|]. apply name_is_valid_ascii. reflexivity. Defined.

(** X3.  Every non-empty prefix of a valid name is a valid name. *)
Theorem name_is_valid_prefix (src : list Z) (n : nat) :
  name_is_valid src = true -> (1 <= n)%nat ->
  name_is_valid (firstn n src) = true.
Proof. apply name_is_valid_firstn. Qed.

Lemma name_is_valid_prefix_witness :
  name_is_valid (str "a_b") = true /\ (1 <= 2)%nat /\
  name_is_valid (firstn 2 (str "a_b")) = true.
Proof.
  split; [reflexivity|]. split; [lia|].
  apply name_is_valid_prefix; [reflexivity|lia].
Defined.

(** X4.  On a valid name the first byte decides for all of them:
    [name_is_operator] is true exactly when every byte of the name is a
    punctuation character. *)
Theorem name_is_operator_valid (name : blob_t) :
  name_is_valid (blob_data name) = true ->
  name_is_operator name
    = Ok (forallb (fun b => ispunct (char_of_byte b)) (blob_data name)).
Proof.
  intros Hv. unfold name_is_operator.
  destruct (name_is_valid_class _ Hv)
    as [Hne Hall | d rest E Ha Hall Hdd | d E Hm].
  - destruct (blob_data name) as [|d rest]; [congruence|].
    rewrite Hall. cbn [forallb] in Hall.
    apply andb_true_iff in Hall as [Hd _]. now rewrite Hd.
  - rewrite E. cbn [forallb]. now rewrite (alpha_not_punct _ Ha).
  - rewrite E. cbn [forallb]. rewrite andb_true_r. reflexivity.
Qed.

Lemma name_is_operator_valid_witness :
  let name := mkblob name_handler 0 (str "+=") in
  name_is_valid (blob_data name) = true /\ name_is_operator name = Ok true.
Proof.
  intros name. split; [reflexivity|].
  exact (name_is_operator_valid name eq_refl).
Defined.

(** ** Normalization: what [scanner_normalize] returns, on every name *)

Section NormalizeResult.

Lemma scan_fst_last (src : list Z) : forall acc,
  src <> [] -> fst (fold_left scan_step src acc) = settled (last src 0).
Proof.
  induction src as [|b rest IH]; intros acc Hne; [congruence|].
  destruct rest as [|b' rest'].
  - reflexivity.
  - change (fold_left scan_step (b :: b' :: rest') acc)
      with (fold_left scan_step (b' :: rest') (scan_step acc b)).
    rewrite IH by discriminate. reflexivity.
Qed.

Lemma relevant_none_underscores (src : list Z) :
  existsb relevant src = false ->
  forallb (fun b => ispunct (char_of_byte b)) src = true /\
  filter relevant src = [].
Proof.
  induction src as [|b rest IH]; intros H; [now split|].
  cbn [existsb] in H. apply orb_false_iff in H as [Hb Hrest].
  destruct (IH Hrest) as [IH1 IH2].
  cbn [forallb filter]. rewrite Hb, IH1, IH2. split; [|reflexivity].
  unfold relevant in Hb. apply negb_false_iff, Z.eqb_eq in Hb.
  rewrite Hb. reflexivity.
Qed.

(** What is known of a name that [scanner_normalize] has returned. *)
Lemma scanner_normalize_name (x y : blob_t) :
  scanner_normalize x = Ok y ->
  name_is_valid (blob_data y) = true /\
  tree_handler y = name_handler /\
  tree_position y = tree_position x /\
  (blob_length y <= blob_length x)%nat.
Proof.
  intros H. pose proof H as H0. unfold scanner_normalize in H.
  destruct (name_is_valid (blob_data x)) eqn:Hv; [|discriminate].
  cbn [assert rbind] in H.
  destruct (scan (blob_data x)) as [normalized n] eqn:Hscan.
  destruct normalized.
  - injection H as <-. cbn. auto.
  - assert (Hne : canonical (blob_data x) <> []).
    { intros Hnil. unfold name_new in H.
      pose proof (scan_size (blob_data x)) as Hsz. rewrite Hscan, Hnil in Hsz.
      cbn in Hsz. subst n. cbn in H. discriminate. }
    rewrite scanner_normalize_eq in H0 by auto.
    rewrite Hscan in H0. cbn [fst] in H0. injection H0 as <-.
    unfold blob_length. cbn [blob_data tree_handler tree_position].
    split; [now apply canonical_valid|]. split; [reflexivity|].
    split; [reflexivity|].
    rewrite canonical_length. apply filter_length_le.
Qed.

End NormalizeResult.

(** X5.  On a valid name that has a byte other than ['_'],
    [scanner_normalize] looks at the last byte only: when it is neither
    ['_'] nor an upper-case letter the spelling comes back byte for
    byte, as a name; otherwise the result is the spelling without its
    underscores and with its letters in lower case. *)
Theorem scanner_normalize_result (x : blob_t) :
  name_is_valid (blob_data x) = true ->
  existsb relevant (blob_data x) = true ->
  scanner_normalize x =
  Ok (mkblob name_handler (tree_position x)
        (if settled (last (blob_data x) 0) then blob_data x
         else canonical (blob_data x))).
Proof.
  intros Hv Hrel.
  rewrite (scanner_normalize_eq x Hv (or_intror (canonical_nonempty _ Hrel))).
  unfold scan. rewrite scan_fst_last; [reflexivity|].
  intros E. rewrite E in Hv. discriminate Hv.
Qed.

Lemma scanner_normalize_result_witness :
  let x := text_new 3 (str "Max_Size") in
  name_is_valid (blob_data x) = true /\
  existsb relevant (blob_data x) = true /\
  scanner_normalize x = Ok (mkblob name_handler 3 (str "Max_Size")) /\
  scanner_normalize (text_new 3 (str "max_sizE"))
    = Ok (mkblob name_handler 3 (str "maxsize")).
Proof.
  intros x. split; [reflexivity|]. split; [reflexivity|]. split.
  - exact (scanner_normalize_result x eq_refl eq_refl).
  - exact (scanner_normalize_result (text_new 3 (str "max_sizE"))
             eq_refl eq_refl).
Defined.

(** X6.  Whatever [scanner_normalize] returns is a valid name, at the
    position of its argument, with the handler of names, and no longer
    than its argument. *)
Theorem scanner_normalize_valid (x y : blob_t) :
  scanner_normalize x = Ok y ->
  name_is_valid (blob_data y) = true /\
  tree_handler y = name_handler /\
  tree_position y = tree_position x /\
  (blob_length y <= blob_length x)%nat.
Proof. apply scanner_normalize_name. Qed.

Lemma scanner_normalize_valid_witness :
  let x := text_new 5 (str "A_b") in
  let y := mkblob name_handler 5 (str "A_b") in
  scanner_normalize x = Ok y /\
  name_is_valid (blob_data y) = true /\
  tree_handler y = name_handler /\
  tree_position y = tree_position x /\
  (blob_length y <= blob_length x)%nat.
Proof.
  intros x y. split; [reflexivity|].
  exact (scanner_normalize_valid x y eq_refl).
Defined.

(** X7.  A spelling made of underscores only is a valid name, and its
    normalization stops the program: no byte is left to make the new
    name of, and [name_new] asserts that a name is valid. *)
Theorem scanner_normalize_underscores (x : blob_t) :
  blob_data x <> [] ->
  existsb relevant (blob_data x) = false ->
  name_is_valid (blob_data x) = true /\
  scanner_normalize x = Crash (AssertionFailed "Name must respect XL syntax").
Proof.
  intros Hne Hrel.
  destruct (relevant_none_underscores _ Hrel) as [Hpunct Hnone].
  assert (Hv : name_is_valid (blob_data x) = true).
  { apply name_class_valid. now apply class_operator. }
  split; [exact Hv|].
  unfold scanner_normalize. rewrite Hv. cbn [assert rbind].
  pose proof (scan_size (blob_data x)) as Hsz.
  rewrite canonical_length, Hnone in Hsz. cbn [length] in Hsz.
  assert (Hf : fst (scan (blob_data x)) = false).
  { unfold scan. rewrite scan_fst_last by exact Hne.
    unfold settled. destruct (blob_data x) as [|b l] eqn:E; [congruence|].
    assert (Hin : In (last (b :: l) 0) (b :: l)).
    { clear. revert b. induction l as [|a l IH]; intros b; [now left|].
      right. apply (IH a). }
    destruct (relevant (last (b :: l) 0)) eqn:Er; [|reflexivity].
    assert (existsb relevant (b :: l) = true)
      by (apply existsb_exists; eauto).
    congruence. }
  destruct (scan (blob_data x)) as [normalized n]. cbn [fst snd] in *.
  subst normalized n. reflexivity.
Qed.

Lemma scanner_normalize_underscores_witness :
  let x := text_new 0 (str "__") in
  blob_data x <> [] /\ existsb relevant (blob_data x) = false /\
  name_is_valid (blob_data x) = true /\
  scanner_normalize x = Crash (AssertionFailed "Name must respect XL syntax").
Proof.
  intros x. split; [discriminate|]. split; [reflexivity|].
  apply scanner_normalize_underscores; [discriminate|reflexivity].
Defined.

(** ** The error sink: contexts that nest *)

Section ErrorContexts.
Import Errors.

Lemma error_each_app (a b : list message) (k : sink_t) :
  error_each (a ++ b)%list k = error_each b (error_each a k).
Proof. unfold error_each. apply fold_left_app. Qed.

Lemma error_each_recording (msgs : list message) : forall buf shown,
  error_each msgs (mksink (Some buf) shown) = mksink (Some (buf ++ msgs)%list) shown.
Proof.
  induction msgs as [|m rest IH]; intros buf shown.
  - cbn. now rewrite app_nil_r.
  - cbn [error_each fold_left]. fold (error_each rest).
    unfold error, errorv, text_vprintf, errors_push, TypedBlob.push.
    cbn [errors displayed]. rewrite IH, <- app_assoc. now destruct m.
Qed.

Lemma error_each_displaying (msgs : list message) : forall shown,
  error_each msgs (mksink None shown) = mksink None (shown ++ msgs)%list.
Proof.
  induction msgs as [|m rest IH]; intros shown.
  - cbn. now rewrite app_nil_r.
  - cbn [error_each fold_left]. fold (error_each rest).
    unfold error, errorv, text_vprintf, error_display.
    cbn [errors displayed]. rewrite IH, <- app_assoc. now destruct m.
Qed.

End ErrorContexts.

(** X8.  Errors reported between [errors_save] and the [errors_clear]
    of what it returned leave no trace: the sink is as it was before
    the save, buffer and display. *)
Theorem errors_save_clear (msgs : list Errors.message) (k : Errors.sink_t) :
  Errors.errors_clear (fst (Errors.errors_save k))
    (Errors.error_each msgs (snd (Errors.errors_save k))) = k.
Proof.
  destruct k as [buf shown]. cbn [Errors.errors_save fst snd Errors.errors
    Errors.displayed].
  rewrite error_each_recording. reflexivity.
Qed.

(** X9.  Errors reported between [errors_save] and the [errors_commit]
    of what it returned end up where they would have gone without the
    save: at the end of the outer buffer when there is one, on the
    display otherwise, in the order of the reports. *)
Theorem errors_save_commit (msgs : list Errors.message) (k : Errors.sink_t) :
  Errors.errors_commit (fst (Errors.errors_save k))
    (Errors.error_each msgs (snd (Errors.errors_save k)))
  = Ok (Errors.error_each msgs k).
Proof.
  destruct k as [[buf|] shown];
    cbn [Errors.errors_save fst snd Errors.errors Errors.displayed];
    rewrite error_each_recording; cbn [app].
  - rewrite error_each_recording. reflexivity.
  - rewrite error_each_displaying.
    unfold Errors.errors_commit, Errors.errors_display.
    cbn [Errors.errors]. rewrite display_all_spec. reflexivity.
Qed.

(** X10.  [errors_count] gives the number of errors reported since the
    last [errors_save]; with no errors buffer it stops on its
    assertion, however many errors have been displayed. *)
Theorem errors_count_since_save (msgs : list Errors.message)
    (k : Errors.sink_t) (shown : list Errors.message) :
  Errors.errors_count (Errors.error_each msgs (snd (Errors.errors_save k)))
    = Ok (length msgs) /\
  Errors.errors_count (Errors.error_each msgs (Errors.mksink None shown))
    = Crash (AssertionFailed "Cannot count errors if not recording them").
Proof.
  split.
  - cbn [Errors.errors_save snd]. rewrite error_each_recording. reflexivity.
  - rewrite error_each_displaying. reflexivity.
Qed.

(** ** Typed blobs as stacks *)

(** X11.  [push], [top] and [pop] are a stack: after a push, [top]
    gives the item pushed, [pop] gives the stack back and the length is
    one more; on a stack with no item [pop] stops on its assertion. *)
Theorem typed_blob_stack {item : Type} (t : list item) (v : item) :
  TypedBlob.top (TypedBlob.push t v) = Ok v /\
  TypedBlob.pop (TypedBlob.push t v) = Ok t /\
  TypedBlob.length_of (TypedBlob.push t v) = S (TypedBlob.length_of t) /\
  TypedBlob.pop (@nil item)
    = Crash (AssertionFailed "Can only pop if non-empty").
Proof.
  split; [apply top_push|]. split; [apply pop_push|].
  split; [apply length_push|reflexivity].
Qed.

(** ** Characters pushed back *)

(** X12.  A character pushed back is the next one read, and the scanner
    is then as it was: for every character but NUL, the end-of-input
    mark included, when the second pending cell is free. *)
Theorem ungetchar_getchar (s : scanner_t) (c : Z) :
  snd (pending_char s) = 0 -> -128 <= c <= 127 -> c <> 0 ->
  (scanner_ungetchar c ;; scanner_getchar) s = Ok (c, s).
Proof.
  intros Hp Hr Hc. destruct s. cbn [pending_char] in Hp.
  destruct pending_char0 as [p0 p1]. cbn [snd] in Hp. subst p1.
  unfold scanner_ungetchar, scanner_getchar, bind, gets, modify, lift, ret.
  cbn -[byte_of_int char_of_byte].
  assert (E : char_of_byte (byte_of_int c) = c).
  { unfold char_of_byte, byte_of_int.
    destruct (Z_lt_dec c 0).
    - replace (c mod 256) with (c + 256)
        by (apply (Z.mod_unique _ _ (-1)); lia).
      destruct (c + 256 <? 128) eqn:E; [apply Z.ltb_lt in E; lia|lia].
    - rewrite Z.mod_small by lia.
      destruct (c <? 128) eqn:E; [reflexivity|apply Z.ltb_ge in E; lia]. }
  rewrite E.
  replace (c =? 0) with false by (symmetry; now apply Z.eqb_neq).
  reflexivity.
Qed.

Lemma ungetchar_getchar_witness :
  let s := scanner_on None (str "ab") in
  snd (pending_char s) = 0 /\ -128 <= EOF <= 127 /\ EOF <> 0 /\
  (scanner_ungetchar EOF ;; scanner_getchar) s = Ok (EOF, s).
Proof.
  intros s. split; [reflexivity|]. split; [unfold EOF; lia|].
  split; [discriminate|].
  apply ungetchar_getchar; [reflexivity|unfold EOF; lia|discriminate].
Defined.

(** X13.  Two characters can be pushed back, and they are read again
    last pushed first; a third one stops the program on the assertion
    of [scanner_ungetchar]. *)
Theorem ungetchar_two_deep (s : scanner_t) (a b c : Z) :
  pending_char s = (0, 0) ->
  0 < a <= 127 -> 0 < b <= 127 ->
  (scanner_ungetchar a ;; scanner_ungetchar b ;;
   x <- scanner_getchar ;; y <- scanner_getchar ;; ret (x, y)) s
    = Ok ((b, a), s) /\
  (scanner_ungetchar a ;; scanner_ungetchar b ;; scanner_ungetchar c) s
    = Crash (AssertionFailed "Max two pending char at a time").
Proof.
  intros Hp Ha Hb. destruct s. cbn [pending_char] in Hp. subst pending_char0.
  assert (Ea : byte_of_int a = a) by (apply Z.mod_small; lia).
  assert (Eb : byte_of_int b = b) by (apply Z.mod_small; lia).
  assert (Ca : char_of_byte a = a).
  { unfold char_of_byte. destruct (a <? 128) eqn:E;
      [reflexivity|apply Z.ltb_ge in E; lia]. }
  assert (Cb : char_of_byte b = b).
  { unfold char_of_byte. destruct (b <? 128) eqn:E;
      [reflexivity|apply Z.ltb_ge in E; lia]. }
  assert (Na : (a =? 0) = false) by (apply Z.eqb_neq; lia).
  assert (Nb : (b =? 0) = false) by (apply Z.eqb_neq; lia).
  unfold scanner_ungetchar, scanner_getchar, bind, gets, modify, lift, ret.
  repeat (progress (rewrite ?Ea, ?Eb, ?Ca, ?Cb, ?Na, ?Nb;
                    cbn -[byte_of_int char_of_byte])).
  split; reflexivity.
Qed.

Lemma ungetchar_two_deep_witness :
  let s := scanner_on None (str "x") in
  pending_char s = (0, 0) /\
  (scanner_ungetchar c_dot ;; scanner_ungetchar c_plus ;;
   x <- scanner_getchar ;; y <- scanner_getchar ;; ret (x, y)) s
    = Ok ((c_plus, c_dot), s) /\
  (scanner_ungetchar c_dot ;; scanner_ungetchar c_plus ;;
   scanner_ungetchar c_dot) s
    = Crash (AssertionFailed "Max two pending char at a time").
Proof.
  intros s. split; [reflexivity|].
  apply ungetchar_two_deep; [reflexivity|unfold c_dot; lia|unfold c_plus; lia].
Defined.

(** ** Parentheses: [scanner_open_parenthese], [scanner_close_parenthese] *)

Section Parentheses.

Lemma lnot_saved (ind : Z) :
  0 <= ind < 2 ^ 31 ->
  (2 ^ 31 <=? u32 (Z.lnot ind)) = true /\ u32 (Z.lnot (u32 (Z.lnot ind))) = ind.
Proof.
  intros H. unfold u32, Z.lnot.
  replace (Z.pred (- ind)) with (- ind - 1) by lia.
  assert (E : (- ind - 1) mod 2 ^ 32 = 2 ^ 32 - 1 - ind)
    by (symmetry; apply (Z.mod_unique _ _ (-1)); lia).
  rewrite E. split; [apply Z.leb_le; lia|].
  replace (Z.pred (- (2 ^ 32 - 1 - ind))) with (ind - 2 ^ 32) by lia.
  symmetry. apply (Z.mod_unique _ _ (-1)); lia.
Qed.

(** What [scanner_open_parenthese] returns decodes to the indentation
    and the flag it has saved. *)
Lemma open_parenthese_saved (s : scanner_t) :
  0 <= indent s < 2 ^ 31 ->
  let old := if setting_indent s then u32 (Z.lnot (indent s)) else indent s in
  scanner_open_parenthese s = Ok (old, set_setting_indent true s) /\
  (2 ^ 31 <=? old) = setting_indent s /\
  (if 2 ^ 31 <=? old then u32 (Z.lnot old) else old) = indent s.
Proof.
  intros H old. split; [reflexivity|]. subst old.
  destruct (lnot_saved _ H) as [H1 H2].
  destruct (setting_indent s).
  - rewrite H1. auto.
  - replace (2 ^ 31 <=? indent s) with false
      by (symmetry; apply Z.leb_gt; lia). auto.
Qed.

(** A line break read while [setting_indent] is set pushes the
    indentation and clears the flag. *)
Lemma scanner_read_newline_setting (s s' : scanner_t) :
  scanner_read s = Ok (tokNEWLINE, s') -> setting_indent s = true ->
  indents s' = TypedBlob.push (indents s) (indent s) /\
  setting_indent s' = false /\ indent s' = column s'.
Proof.
  intros H Hset. unfold scanner_read in H.
  apply bind_inv in H as (r & s1 & Hbegin & H).
  apply read_begin_effect in Hbegin.
  destruct r as [early|[pos c]].
  - injection H as -> <-. destruct Hbegin as [[E|E] _]; discriminate E.
  - apply levels_fields in Hbegin as (Hi & Hd & Hs).
    apply bind_inv in H as (checking & s2 & H0 & H). injection H0 as <- <-.
    destruct (checking_indent s1).
    + unfold indent_decision, scanner_ungetchar, indents_push in H.
      unfold bind, gets, modify, lift, ret, assert in H. simpl_state in H.
      destruct (snd (pending_char s1) =? 0); [|discriminate]. simpl_state in H.
      rewrite Hs, Hset in H. simpl_state in H.
      injection H as <-. simpl_state. rewrite Hi, Hd. auto.
    + apply bind_inv in H as (rd & s2 & H0 & H). injection H0 as <- <-.
      destruct (reader s1); cbn [negb] in H.
      * pose proof (scan_token_value c _ _ _ H) as Hval. discriminate Hval.
      * discriminate H.
Qed.

End Parentheses.

(** X14.  Closing a parenthese with what its opening returned restores
    the indentation and the [setting_indent] flag, and leaves the stack
    of levels alone: at once, and after any scanning in between that
    does not touch the levels (tokens that are not line marks). *)
Theorem parenthese_round_trip (s : scanner_t) :
  0 <= indent s < 2 ^ 31 ->
  (old <- scanner_open_parenthese ;; scanner_close_parenthese old) s
    = Ok (tt, s) /\
  (forall (A : Type) (m : M A) (a : A) (s' : scanner_t),
     preserves levels m ->
     (old <- scanner_open_parenthese ;;
      a <- m ;;
      scanner_close_parenthese old ;;
      ret a) s = Ok (a, s') ->
     levels s' = levels s).
Proof.
  intros Hind.
  destruct (open_parenthese_saved s Hind) as (Hopen & Hflag & Hold).
  change (2 ^ 31) with 2147483648 in Hflag, Hold.
  split.
  - rewrite (bind_eval _ _ _ _ _ Hopen).
    unfold scanner_close_parenthese, bind, gets, modify, ret.
    simpl_state. rewrite Hold, Hflag. now destruct s.
  - intros A m a s' Hm H.
    rewrite (bind_eval _ _ _ _ _ Hopen) in H.
    apply bind_inv in H as (a' & s2 & Hrun & H).
    apply Hm, levels_fields in Hrun as (Hi & Hd & Hs).
    unfold scanner_close_parenthese, bind, gets, modify, ret in H.
    simpl_state in H. rewrite Hs in H. simpl_state in H.
    injection H as _ <-. unfold levels. simpl_state.
    rewrite Hold, Hflag, Hi. reflexivity.
Qed.

Lemma parenthese_round_trip_witness :
  let s := scanner_on None (str "(a)") in
  0 <= indent s < 2 ^ 31 /\
  (old <- scanner_open_parenthese ;; scanner_close_parenthese old) s
    = Ok (tt, s).
Proof.
  intros s. assert (H : 0 <= indent s < 2 ^ 31) by (cbn; lia).
  split; [exact H|]. exact (proj1 (parenthese_round_trip s H)).
Defined.

(** X15.  After [scanner_open_parenthese], a call of [scanner_read]
    that returns NEWLINE has pushed the indentation and made the column
    of the new line the indentation; [scanner_close_parenthese] with
    the value saved then pops that level, and indentation, flag and
    stack are as they were before the opening. *)
Theorem parenthese_line_break (s s1 s2 : scanner_t) (old : Z) :
  0 <= indent s < 2 ^ 31 ->
  scanner_open_parenthese s = Ok (old, s1) ->
  scanner_read s1 = Ok (tokNEWLINE, s2) ->
  indent s2 = column s2 /\
  indents s2 = TypedBlob.push (indents s) (indent s) /\
  exists s3,
    scanner_close_parenthese old s2 = Ok (tt, s3) /\ levels s3 = levels s.
Proof.
  intros Hind Hopen Hread.
  destruct (open_parenthese_saved s Hind) as (Hopen' & Hflag & Hold).
  change (2 ^ 31) with 2147483648 in Hflag, Hold.
  rewrite Hopen' in Hopen. injection Hopen as <- <-.
  apply scanner_read_newline_setting in Hread as (Hi & Hs & Hc);
    [|reflexivity].
  simpl_state in Hi.
  split; [exact Hc|]. split; [exact Hi|].
  unfold scanner_close_parenthese, indents_top, indents_pop.
  unfold bind, gets, modify, lift, ret. simpl_state.
  rewrite Hs. simpl_state. rewrite Hi, top_push. simpl_state.
  rewrite Hold, Z.eqb_refl. simpl_state. rewrite Hi, pop_push. simpl_state.
  eexists. split; [reflexivity|]. unfold levels. simpl_state.
  now rewrite Hflag.
Qed.

Lemma parenthese_line_break_witness :
  let s := scanner_on None (str (NL ++ "  a)")%string) in
  let s1 := set_setting_indent true s in
  let s2 := state_after 1 s1 in
  0 <= indent s < 2 ^ 31 /\
  scanner_read s1 = Ok (tokNEWLINE, s2) /\
  indent s2 = 2 /\
  exists s3,
    scanner_close_parenthese 0 s2 = Ok (tt, s3) /\ levels s3 = levels s.
Proof.
  intros s s1 s2.
  assert (Hind : 0 <= indent s < 2 ^ 31) by (cbn; lia).
  assert (Hopen : scanner_open_parenthese s = Ok (0, s1)) by reflexivity.
  assert (Hread : scanner_read s1 = Ok (tokNEWLINE, s2))
    by (vm_compute; reflexivity).
  split; [exact Hind|]. split; [exact Hread|].
  split; [vm_compute; reflexivity|].
  exact (proj2 (proj2 (parenthese_line_break s s1 s2 0 Hind Hopen Hread))).
Defined.

(** ** Invariants of [scanner_read] *)

Section Hoare.

Lemma hoare_ret {A} (P : scanner_t -> Prop) (Q : A -> scanner_t -> Prop) (a : A) :
  (forall s, P s -> Q a s) -> hoare P (ret a) Q.
Proof. intros H s a' s' HP E. injection E as <- <-. now apply H. Qed.

Lemma hoare_crash {A} (P : scanner_t -> Prop) (Q : A -> scanner_t -> Prop)
    (e : fault) : hoare P (crash e) Q.
Proof. intros s a s' _ E. discriminate E. Qed.

Lemma hoare_gets {A} (P : scanner_t -> Prop) (Q : A -> scanner_t -> Prop)
    (g : scanner_t -> A) :
  (forall s, P s -> Q (g s) s) -> hoare P (gets g) Q.
Proof. intros H s a s' HP E. injection E as <- <-. now apply H. Qed.

Lemma hoare_modify (P : scanner_t -> Prop) (Q : unit -> scanner_t -> Prop)
    (g : scanner_t -> scanner_t) :
  (forall s, P s -> Q tt (g s)) -> hoare P (modify g) Q.
Proof. intros H s a s' HP E. injection E as <- <-. now apply H. Qed.

Lemma hoare_lift {A} (P : scanner_t -> Prop) (Q : A -> scanner_t -> Prop)
    (r : result A) :
  (forall s a, P s -> r = Ok a -> Q a s) -> hoare P (lift r) Q.
Proof.
  intros H s a s' HP E. unfold lift in E. destruct r; [|discriminate].
  injection E as <- <-. now apply H.
Qed.

(** Sequence: the first step keeps the invariant, the rest is run
    under it. *)
Lemma hoare_bind {A B} (I : scanner_t -> Prop) (Q : B -> scanner_t -> Prop)
    (m : M A) (k : A -> M B) :
  keeps I m -> (forall a, hoare I (k a) Q) -> hoare I (bind m k) Q.
Proof.
  intros Hm Hk s b s'' HI E. apply bind_inv in E as (a & s' & E1 & E2).
  exact (Hk a s' b s'' (Hm s a s' HI E1) E2).
Qed.

(** Sequence, with what is known of the value of the first step. *)
Lemma hoare_bind_with {A B} (I : scanner_t -> Prop) (R : A -> Prop)
    (Q : B -> scanner_t -> Prop) (m : M A) (k : A -> M B) :
  keeps I m -> yields R m -> (forall a, R a -> hoare I (k a) Q) ->
  hoare I (bind m k) Q.
Proof.
  intros Hm Hr Hk s b s'' HI E. apply bind_inv in E as (a & s' & E1 & E2).
  exact (Hk a (Hr s a s' E1) s' b s'' (Hm s a s' HI E1) E2).
Qed.

Lemma hoare_when (I : scanner_t -> Prop) (b : bool) (m : M unit) :
  keeps I m -> keeps I (when b m).
Proof.
  intros H. destruct b; [exact H|]. apply hoare_ret. auto.
Qed.

Lemma hoare_loop {A B} (I : scanner_t -> Prop) (Q : B -> scanner_t -> Prop)
    (body : A -> M (A + B)) :
  (forall a, hoare I (body a)
               (fun r s => match r with inl _ => I s | inr b => Q b s end)) ->
  forall fuel a, hoare I (loop fuel body a) Q.
Proof.
  intros Hbody. induction fuel as [|fuel IH]; intros a s b s'' HI E.
  - discriminate E.
  - cbn [loop] in E. apply bind_inv in E as (r & s' & E1 & E2).
    pose proof (Hbody a s r s' HI E1) as Hr. destruct r as [a'|b'].
    + exact (IH a' s' b s'' Hr E2).
    + injection E2 as <- <-. exact Hr.
Qed.

Lemma hoare_while {A B} (I : scanner_t -> Prop) (Q : B -> scanner_t -> Prop)
    (body : A -> M (A + B)) (a : A) :
  (forall a, hoare I (body a)
               (fun r s => match r with inl _ => I s | inr b => Q b s end)) ->
  hoare I (while body a) Q.
Proof. intros Hbody s b s' HI E. exact (hoare_loop I Q body Hbody _ a s b s' HI E). Qed.

(** A step that leaves alone what the invariant reads keeps it. *)
Lemma keeps_preserves {A X} (f : scanner_t -> X) (J : X -> Prop) (m : M A) :
  preserves f m -> keeps (fun s => J (f s)) m.
Proof. intros H s a s' HI E. now rewrite (H s a s' E). Qed.

Lemma hoare_weaken {A} (P P' : scanner_t -> Prop)
    (Q Q' : A -> scanner_t -> Prop) (m : M A) :
  hoare P' m Q' -> (forall s, P s -> P' s) ->
  (forall a s, Q' a s -> Q a s) -> hoare P m Q.
Proof. intros H HP HQ s a s' Hs E. exact (HQ a s' (H s a s' (HP s Hs) E)). Qed.

(** The value alone. *)
Lemma hoare_yields {A} (P : scanner_t -> Prop) (R : A -> Prop) (m : M A) :
  yields R m -> hoare P m (fun a _ => R a).
Proof. intros H s a s' _ E. exact (H s a s' E). Qed.

End Hoare.

(** The functions of the scanner, down to the steps of the monad. *)
Ltac unfold_scanner :=
  unfold read_begin, unindent_pending, indent_decision,
    scan_token, scan_number, scan_name, scan_text, scan_symbol,
    number_integral, number_round, number_finish, blob_finish,
    digits_body, fraction_body, exponent_body, name_body, text_body,
    symbol_body, discovery_body, skip_spaces_body, classify_name, is_block,
    is_block_close, scanner_character, blob_select_bits, skip_underscore,
    skip_blob_spaces_body, digit_at, normalize_source, source_data,
    scanner_nextchar, scanner_consume, scanner_getchar, scanner_ungetchar,
    text_append_char, position_step, error, indents_top, indents_pop,
    indents_push.

(** Steps of a proof that the projection [f] is left alone, on code
    unfolded to the steps of the monad. *)
Ltac preserves_leaf :=
  first
    [ apply preserves_ret
    | apply preserves_gets
    | apply preserves_crash
    | apply preserves_lift
    | apply preserves_modify; intros; reflexivity
    | apply preserves_when
    | apply preserves_while; intros
    | apply preserves_bind; [|intros]
    | progress cbv beta zeta
    | match goal with
      | |- preserves _ (if ?b then _ else _) => destruct b
      | |- preserves _ (match ?x with _ => _ end) => destruct x
      | |- preserves _ (let '(_, _) := ?x in _) => destruct x
      end ].

Ltac preserves_all := unfold_scanner; repeat preserves_leaf.

Section ReaderClosed.

Lemma read_begin_closed (s : scanner_t) :
  reader s = false ->
  read_begin s
    = Ok (inl tokEOF,
          set_scanned scanned_none
            (set_source (Some (text_new (scanner_position s) [])) s)).
Proof.
  intros H. unfold read_begin, bind, gets, modify, ret. simpl_state.
  now rewrite H.
Qed.

Lemma scanner_read_closed (s : scanner_t) :
  reader s = false ->
  scanner_read s
    = Ok (tokEOF,
          set_scanned scanned_none
            (set_source (Some (text_new (scanner_position s) [])) s)).
Proof.
  intros H. unfold scanner_read.
  now rewrite (bind_eval _ _ _ _ _ (read_begin_closed s H)).
Qed.

Lemma scanner_reads_closed (n : nat) : forall s,
  reader s = false ->
  exists s', scanner_reads n s = Ok (repeat tokEOF n, s') /\ reader s' = false.
Proof.
  induction n as [|n IH]; intros s H.
  - exists s. now split.
  - cbn [scanner_reads repeat].
    rewrite (bind_eval _ _ _ _ _ (scanner_read_closed s H)).
    destruct (IH (set_scanned scanned_none
                    (set_source (Some (text_new (scanner_position s) [])) s)) H)
      as (s' & E & Hs').
    rewrite (bind_eval _ _ _ _ _ E). now exists s'.
Qed.

(** The tokens of the indentation decision. *)
Lemma indent_decision_tokens pos c :
  yields (fun tok => tok = tokNEWLINE \/ tok = tokINDENT \/ tok = tokUNINDENT
                     \/ tok = tokERROR) (indent_decision pos c).
Proof.
  unfold indent_decision.
  repeat first
    [ apply yields_ret; tauto
    | apply yields_crash
    | apply yields_bind; intros
    | match goal with
      | |- yields _ (if ?b then _ else _) => destruct b
      end ].
Qed.

(** When [scanner_read] gets to the end of the whitespace with the
    token [EOF], the reader is closed. *)
Lemma read_begin_eof (s s1 : scanner_t) :
  read_begin s = Ok (inl tokEOF, s1) -> reader s1 = false.
Proof.
  intros H. destruct (reader s) eqn:Hrd.
  - unfold read_begin in H.
    apply bind_inv in H as (pos & s0 & H0 & H). injection H0 as <- <-.
    apply bind_inv in H as (? & sa & H0 & H). injection H0 as _ <-.
    apply bind_inv in H as (? & sb & H0 & H). injection H0 as _ <-.
    apply bind_inv in H as (rd & sc & H0 & H). injection H0 as <- <-.
    simpl_state in H. rewrite Hrd in H. cbn [negb] in H.
    apply bind_inv in H as (? & sd & H0 & H). injection H0 as _ <-.
    apply bind_inv in H as (pending & se & H0 & H).
    destruct pending.
    + apply bind_inv in H as (? & sf & H1 & H). discriminate H.
    + apply bind_inv in H as (c & sf & H1 & H).
      apply bind_inv in H as (? & sg & H2 & H).
      apply bind_inv in H as (c' & sh & H3 & H). discriminate H.
  - rewrite (read_begin_closed s Hrd) in H. injection H as <-.
    exact Hrd.
Qed.

Lemma scanner_read_eof_closed (s s' : scanner_t) :
  scanner_read s = Ok (tokEOF, s') -> reader s' = false.
Proof.
  intros H. unfold scanner_read in H.
  apply bind_inv in H as (r & s1 & Hbegin & H).
  destruct r as [early|[pos c]].
  - injection H as -> <-. now apply read_begin_eof in Hbegin.
  - apply bind_inv in H as (checking & s2 & H0 & H). injection H0 as <- <-.
    destruct (checking_indent s1).
    + apply indent_decision_tokens in H.
      destruct H as [H|[H|[H|H]]]; discriminate H.
    + apply bind_inv in H as (rd & s2 & H0 & H). injection H0 as <- <-.
      destruct (reader s1) eqn:Hrd; cbn [negb] in H.
      * pose proof (scan_token_value c _ _ _ H) as Hval. discriminate Hval.
      * now injection H as <-.
Qed.

End ReaderClosed.

(** X16.  The end of input is final: when [scanner_read] has returned
    EOF the reader is closed, and every later call returns EOF. *)
Theorem scanner_read_eof_sticky (s s' : scanner_t) (n : nat) :
  scanner_read s = Ok (tokEOF, s') ->
  reader s' = false /\
  value_of (scanner_reads n s') = Ok (repeat tokEOF n).
Proof.
  intros H. apply scanner_read_eof_closed in H. split; [exact H|].
  destruct (scanner_reads_closed n s' H) as (s'' & E & _). now rewrite E.
Qed.

Lemma scanner_read_eof_sticky_witness :
  let s := state_after 1 (scanner_on None (str "a ")) in
  scanner_read s = Ok (tokEOF, state_after 1 s) /\
  reader (state_after 1 s) = false /\
  value_of (scanner_reads 3 (state_after 1 s)) = Ok [tokEOF; tokEOF; tokEOF].
Proof.
  intros s.
  assert (H : scanner_read s = Ok (tokEOF, state_after 1 s))
    by (vm_compute; reflexivity).
  split; [exact H|]. exact (scanner_read_eof_sticky s _ 3 H).
Defined.

(** X17.  A scanner whose reader is open cannot be opened; once
    [scanner_read] has returned EOF it can, on another stream, and it
    then keeps the indentation levels, the pending characters and the
    errors of the input before. *)
Theorem scanner_open_stream_again (s s' : scanner_t) (data : list Z) :
  scanner_read s = Ok (tokEOF, s') ->
  scanner_open_stream data s'
    = Ok (tt, set_stream data (set_reader true s')) /\
  scanner_open_stream data (set_stream data (set_reader true s'))
    = Crash (AssertionFailed "Cannot open a scanner that is already open").
Proof.
  intros H. apply scanner_read_eof_closed in H.
  unfold scanner_open_stream, bind, gets, modify, lift, ret. simpl_state.
  rewrite H. split; reflexivity.
Qed.

Lemma scanner_open_stream_again_witness :
  let s := scanner_on None [] in
  scanner_read s = Ok (tokEOF, state_after 1 s) /\
  scanner_open_stream (str "b") (state_after 1 s)
    = Ok (tt, set_stream (str "b") (set_reader true (state_after 1 s))).
Proof.
  intros s.
  assert (H : scanner_read s = Ok (tokEOF, state_after 1 s))
    by (vm_compute; reflexivity).
  split; [exact H|].
  exact (proj1 (scanner_open_stream_again s _ (str "b") H)).
Defined.

(** X18.  A sequence of calls of [scanner_read] returns its tokens,
    or fails an assertion of the code, or comes to an operation that C
    leaves undefined: a read outside an object, such as that of the
    digit table indexed by [EOF], after which the loop of the digits
    has no end, or the use of a null text.  Short of such an operation
    no loop of [scanner_read] runs for ever, as each round of each loop
    takes a character of the input or leaves the loop. *)
Theorem scanner_reads_outcome (n : nat) (s : scanner_t) :
  (exists toks s', scanner_reads n s = Ok (toks, s')) \/
  (exists msg, scanner_reads n s = Crash (AssertionFailed msg)) \/
  (exists what, scanner_reads n s = Crash (UndefinedBehaviour what)).
Proof.
  assert (H : scanner_reads n s <> Crash OutOfFuel).
  { revert s. induction n as [|n IH]; intros s; [discriminate|].
    cbn [scanner_reads]. apply bounded_bind; [apply scanner_read_bounded|].
    intros tok. apply bounded_bind; [exact IH|].
    intros toks. apply bounded_ret. }
  destruct (scanner_reads n s) as [[toks s']|[what|msg|]].
  - left. now exists toks, s'.
  - right. right. now exists what.
  - right. left. now exists msg.
  - now contradiction H.
Qed.

Section TokenValues.

Lemma hoare_modify_ret {A} (P : scanner_t -> Prop)
    (Q : A -> scanner_t -> Prop) (g : scanner_t -> scanner_t) (a : A) :
  (forall s, Q a (g s)) -> hoare P (modify g ;; ret a) Q.
Proof. intros H s a' s' _ E. injection E as <- <-. apply H. Qed.

Lemma keeps_true {A} (m : M A) : keeps (fun _ => True) m.
Proof. intros s a s' _ _. exact I. Qed.

End TokenValues.

Ltac valued_step :=
  first
    [ progress cbv beta zeta
    | apply hoare_crash
    | apply hoare_modify_ret; intros; reflexivity
    | apply hoare_ret; intros; exact I
    | solve [auto with scanner]
    | apply hoare_while; intros
    | apply hoare_bind; [apply keeps_true | intros]
    | match goal with
      | |- hoare _ (if ?b then _ else _) _ => destruct b
      | |- hoare _ (match ?x with _ => _ end) _ => destruct x
      end ].

Ltac valued_tac := repeat valued_step.

Section TokenValued.

Lemma blob_finish_valued n : hoare (fun _ => True) (blob_finish n) valued.
Proof. unfold blob_finish. valued_tac. Qed.

Lemma number_finish_valued pos n fp r c :
  hoare (fun _ => True) (number_finish pos n fp r c) valued.
Proof. unfold number_finish. valued_tac. Qed.

Hint Resolve blob_finish_valued number_finish_valued : scanner.

Lemma scan_number_valued pos c blob : hoare (fun _ => True) (scan_number pos c blob) valued.
Proof. unfold scan_number. valued_tac. Qed.

Lemma normalize_source_name :
  yields (fun n => name_is_valid (blob_data n) = true
                   /\ tree_handler n = name_handler) normalize_source.
Proof.
  intros s n s' H. unfold normalize_source, bind, gets, lift in H.
  destruct (source s) as [t|]; [|discriminate].
  destruct (scanner_normalize t) as [y|] eqn:E; [|discriminate].
  injection H as <- <-.
  destruct (scanner_normalize_name t y E) as (Hv & Hh & _). now split.
Qed.

Lemma classify_name_scanned name : preserves scanned (classify_name name).
Proof. preserves_all. Qed.

Lemma classify_name_tokens name :
  yields (fun tok => is_name_token tok = true) (classify_name name).
Proof. unfold classify_name. yields_tac. Qed.

Lemma scan_name_valued pos c : hoare (fun _ => True) (scan_name pos c) valued.
Proof.
  unfold scan_name.
  apply hoare_bind; [apply keeps_true|intros c'].
  apply hoare_bind; [apply keeps_true|intros _].
  apply hoare_bind; [apply keeps_true|intros _].
  apply (hoare_bind_with _ _ _ _ _ (keeps_true _) normalize_source_name).
  intros name [Hv Hh] s tok s' _ E.
  apply bind_inv in E as (? & s1 & E1 & E). injection E1 as _ <-.
  pose proof (classify_name_tokens name _ _ _ E) as Htok.
  apply classify_name_scanned in E. unfold valued. rewrite E.
  cbn [scanned set_scanned token_value]. now rewrite Htok, Hv, Hh.
Qed.

Lemma scanner_character_value text :
  yields (fun v => token_value tokCHARACTER v = true) (scanner_character text).
Proof. unfold scanner_character. yields_tac. Qed.

Lemma text_body_valued pos eos st :
  hoare (fun _ => True) (text_body pos eos st)
    (fun r s => match r with inl _ => True | inr tok => valued tok s end).
Proof.
  unfold text_body. destruct st as [text c].
  apply hoare_bind; [apply keeps_true|intros c1]. cbv zeta.
  assert (Hend : forall c2,
    hoare (fun _ => True)
      (scanner_ungetchar c2 ;;
       modify (set_had_space_after (isspace c2)) ;;
       if eos =? c_dquote then
         modify (set_scanned (scanned_text text)) ;; ret (inr tokTEXT)
       else
         ch <- scanner_character text ;;
         modify (set_scanned ch) ;; ret (inr tokCHARACTER))
      (fun (r : blob_t * Z + token_t) s =>
         match r with inl _ => True | inr tok => valued tok s end)).
  { intros c2.
    apply hoare_bind; [apply keeps_true|intros _].
    apply hoare_bind; [apply keeps_true|intros _].
    destruct (eos =? c_dquote).
    - apply hoare_modify_ret. reflexivity.
    - apply (hoare_bind_with _ _ _ _ _ (keeps_true _)
               (scanner_character_value text)).
      intros ch Hch. apply hoare_modify_ret. intros s. exact Hch. }
  destruct (c1 =? eos).
  - apply hoare_bind; [apply keeps_true|intros c2].
    destruct (negb (c2 =? eos)); [apply Hend|].
    apply hoare_bind; [apply keeps_true|intros c3].
    apply hoare_ret. auto.
  - apply hoare_bind; [apply keeps_true|intros c3].
    apply hoare_ret. auto.
Qed.

Hint Resolve text_body_valued : scanner.

Lemma scan_text_valued pos c : hoare (fun _ => True) (scan_text pos c) valued.
Proof. unfold scan_text. valued_tac. Qed.

Lemma symbol_body_tokens syn c :
  yields (fun r => match r with
                   | inl _ => True
                   | inr found => is_name_token (snd found) = true
                   end) (symbol_body syn c).
Proof. unfold symbol_body, is_block, is_block_close. yields_tac. Qed.

Lemma discovery_body_tokens c :
  yields (fun r : Z + Z * token_t =>
            match r with
            | inl _ => True
            | inr found => snd found = tokSYMBOL
            end) (discovery_body c).
Proof. unfold discovery_body. yields_tac. Qed.

Lemma symbol_loop_tokens (syn : option syntax_t) (c : Z) :
  yields (fun found : Z * token_t => is_name_token (snd found) = true)
    (match syn with
     | Some syn => while (symbol_body syn) c
     | None => while discovery_body c
     end).
Proof.
  destruct syn as [syn|]; apply yields_while; intros a.
  - apply symbol_body_tokens.
  - intros s r s' E. apply discovery_body_tokens in E.
    destruct r as [|found]; [exact I|]. now rewrite E.
Qed.

Lemma scan_symbol_valued pos c : hoare (fun _ => True) (scan_symbol pos c) valued.
Proof.
  unfold scan_symbol.
  apply hoare_bind; [apply keeps_true|intros syn].
  apply (hoare_bind_with _ _ _ _ _ (keeps_true _) (symbol_loop_tokens syn c)).
  intros [c' tok] Htok. cbn [snd] in Htok.
  apply hoare_bind; [apply keeps_true|intros _].
  apply hoare_bind; [apply keeps_true|intros _].
  apply (hoare_bind_with _ _ _ _ _ (keeps_true _) normalize_source_name).
  intros name [Hv Hh]. apply hoare_modify_ret. intros s.
  unfold valued. cbn [scanned set_scanned token_value].
  now rewrite Htok, Hv, Hh.
Qed.

Hint Resolve scan_number_valued scan_name_valued scan_text_valued
  scan_symbol_valued : scanner.

Lemma scan_token_valued c : hoare (fun _ => True) (scan_token c) valued.
Proof. unfold scan_token. valued_tac. Qed.

Lemma indent_decision_scanned pos c : preserves scanned (indent_decision pos c).
Proof. preserves_all. Qed.

Lemma indent_decision_layout pos c :
  yields (fun tok => is_layout_token tok = true) (indent_decision pos c).
Proof.
  intros s tok s' E. apply indent_decision_tokens in E.
  destruct E as [->|[->|[->| ->]]]; reflexivity.
Qed.

(** The first part of [scanner_read] leaves the union empty. *)
Lemma read_begin_scanned (s s1 : scanner_t) (r : token_t + Z * Z) :
  read_begin s = Ok (r, s1) ->
  scanned s1 = scanned_none /\
  match r with inl tok => is_layout_token tok = true | inr _ => True end.
Proof.
  intros H. unfold read_begin in H.
  apply bind_inv in H as (pos & s0 & H0 & H). injection H0 as <- <-.
  apply bind_inv in H as (? & sa & H0 & H). injection H0 as _ <-.
  apply bind_inv in H as (? & sb & H0 & H). injection H0 as _ <-.
  assert (Hrest : forall pos, preserves scanned
    (rd <- gets reader ;;
     if negb rd then ret (inl tokEOF)
     else
       modify (set_had_space_before true) ;;
       pending <- unindent_pending ;;
       if pending then indents_pop ;; ret (inl tokUNINDENT)
       else
         c <- scanner_getchar ;;
         modify (set_had_space_before false) ;;
         c <- while (skip_spaces_body pos) c ;;
         ret (@inr token_t _ (pos, c)))) by (intros; preserves_all).
  pose proof (Hrest _ _ _ _ H) as Hs. cbn [scanned set_scanned] in Hs.
  split; [exact Hs|].
  destruct r as [tok|]; [|exact I].
  apply bind_inv in H as (rd & sc & H0 & H).
  destruct (negb rd); [now injection H as <- _|].
  apply bind_inv in H as (? & sd & H1 & H).
  apply bind_inv in H as (pending & se & H2 & H).
  destruct pending.
  - apply bind_inv in H as (? & sf & H3 & H). now injection H as <- _.
  - apply bind_inv in H as (c & sf & H3 & H).
    apply bind_inv in H as (? & sg & H4 & H).
    apply bind_inv in H as (c' & sh & H5 & H). discriminate H.
Qed.

Lemma scanner_read_valued (s s' : scanner_t) (tok : token_t) :
  scanner_read s = Ok (tok, s') -> token_value tok (scanned s') = true.
Proof.
  intros H. unfold scanner_read in H.
  apply bind_inv in H as (r & s1 & Hbegin & H).
  apply read_begin_scanned in Hbegin as [Hnone Hr].
  destruct r as [early|[pos c]].
  - injection H as <- <-. rewrite Hnone. exact Hr.
  - apply bind_inv in H as (checking & s2 & H0 & H). injection H0 as <- <-.
    destruct (checking_indent s1).
    + pose proof (indent_decision_layout _ _ _ _ _ H) as Htok.
      apply indent_decision_scanned in H. rewrite H, Hnone. exact Htok.
    + apply bind_inv in H as (rd & s2 & H0 & H). injection H0 as <- <-.
      destruct (reader s1); cbn [negb] in H.
      * exact (scan_token_valued c _ _ _ I H).
      * injection H as <- <-. now rewrite Hnone.
Qed.

End TokenValued.

(** X19.  The token says which member of the union [s->scanned] is set
    when [scanner_read] returns: a natural for INTEGER, a real for
    REAL, a character for CHARACTER, a text for TEXT, a blob for BLOB;
    for NAME, SYMBOL, OPEN and CLOSE a name that [name_is_valid]
    accepts, with the handler of names; and nothing for EOF, NEWLINE,
    INDENT, UNINDENT and ERROR. *)
Theorem scanner_read_token_value (s s' : scanner_t) (tok : token_t) :
  scanner_read s = Ok (tok, s') -> token_value tok (scanned s') = true.
Proof. apply scanner_read_valued. Qed.

Lemma scanner_read_token_value_witness :
  let s := scanner_on None (str "x1 ") in
  scanner_read s = Ok (tokNAME, state_after 1 s) /\
  token_value tokNAME (scanned (state_after 1 s)) = true.
Proof.
  intros s.
  assert (H : scanner_read s = Ok (tokNAME, state_after 1 s))
    by (vm_compute; reflexivity).
  split; [exact H|]. exact (scanner_read_token_value s _ _ H).
Defined.

Section Discovery.

Lemma keeps_no_syntax {A} (m : M A) : preserves syntax m -> keeps no_syntax m.
Proof. apply (keeps_preserves syntax (fun x => x = None)). Qed.

Lemma scan_number_plain pos c blob :
  yields (fun tok => is_block_token tok = false) (scan_number pos c blob).
Proof. unfold scan_number, number_finish, blob_finish. yields_tac. Qed.

Lemma scan_text_plain pos c :
  yields (fun tok => is_block_token tok = false) (scan_text pos c).
Proof. unfold scan_text, text_body. yields_tac. Qed.

Lemma scan_name_plain pos c : hoare no_syntax (scan_name pos c) plain.
Proof.
  unfold scan_name.
  apply hoare_bind; [apply keeps_no_syntax; preserves_all|intros c'].
  apply hoare_bind; [apply keeps_no_syntax; preserves_all|intros _].
  apply hoare_bind; [apply keeps_no_syntax; preserves_all|intros _].
  apply hoare_bind; [apply keeps_no_syntax; preserves_all|intros name].
  apply hoare_bind; [apply keeps_no_syntax; preserves_all|intros _].
  intros s tok s' Hs E. unfold classify_name, bind, gets in E.
  rewrite Hs in E. now injection E as <- _.
Qed.

Lemma scan_symbol_plain pos c : hoare no_syntax (scan_symbol pos c) plain.
Proof.
  intros s tok s' Hs E. unfold scan_symbol in E.
  apply bind_inv in E as (syn & s1 & E0 & E). injection E0 as <- <-.
  rewrite Hs in E.
  apply bind_inv in E as ([c' tok'] & s2 & E1 & E).
  apply (yields_while _ _ _ discovery_body_tokens) in E1. cbn [snd] in E1.
  apply bind_inv in E as (? & s3 & _ & E).
  apply bind_inv in E as (? & s4 & _ & E).
  apply bind_inv in E as (name & s5 & _ & E).
  apply bind_inv in E as (? & s6 & _ & E).
  injection E as <- _. now rewrite E1.
Qed.

Lemma scan_token_plain c : hoare no_syntax (scan_token c) plain.
Proof.
  unfold scan_token.
  apply hoare_bind; [apply keeps_no_syntax; preserves_all|intros src].
  destruct src as [t|]; [|apply hoare_crash].
  apply hoare_bind; [apply keeps_no_syntax; preserves_all|intros _].
  apply hoare_bind; [apply keeps_no_syntax; preserves_all|intros pos].
  apply hoare_bind; [apply keeps_no_syntax; preserves_all|intros [c' blob]].
  destruct blob; [apply hoare_yields, scan_number_plain|].
  destruct (isdigit c'); [apply hoare_yields, scan_number_plain|].
  destruct (utf8_isalpha c'); [apply scan_name_plain|].
  destruct ((c' =? c_dquote) || (c' =? c_quote));
    [apply hoare_yields, scan_text_plain|apply scan_symbol_plain].
Qed.

Lemma read_begin_syntax : preserves syntax read_begin.
Proof. preserves_all. Qed.

Lemma scanner_read_plain : hoare no_syntax scanner_read plain.
Proof.
  intros s tok s' Hs H. unfold scanner_read in H.
  apply bind_inv in H as (r & s1 & Hbegin & H).
  pose proof (read_begin_syntax _ _ _ Hbegin) as Hsyn.
  apply read_begin_effect in Hbegin.
  destruct r as [early|[pos c]].
  - injection H as <- <-. destruct Hbegin as [[->| ->] _]; reflexivity.
  - apply bind_inv in H as (checking & s2 & H0 & H). injection H0 as <- <-.
    destruct (checking_indent s1).
    + apply indent_decision_tokens in H.
      destruct H as [->|[->|[->| ->]]]; reflexivity.
    + apply bind_inv in H as (rd & s2 & H0 & H). injection H0 as <- <-.
      destruct (reader s1); cbn [negb] in H.
      * apply (scan_token_plain c _ _ _) in H; [exact H|].
        unfold no_syntax. now rewrite Hsyn.
      * now injection H as <- _.
Qed.

End Discovery.

(** X20.  In syntax discovery mode, with no syntax table, [scanner_read]
    returns neither OPEN nor CLOSE: names are NAME tokens and operators
    SYMBOL tokens. *)
Theorem scanner_read_discovery (s s' : scanner_t) (tok : token_t) :
  syntax s = None ->
  scanner_read s = Ok (tok, s') ->
  tok <> tokOPEN /\ tok <> tokCLOSE.
Proof.
  intros Hs H. pose proof (scanner_read_plain s tok s' Hs H) as Hp.
  cbv beta in Hp. split; intros ->; discriminate Hp.
Qed.

Lemma scanner_read_discovery_witness :
  let s := scanner_on None (str "(a") in
  syntax s = None /\
  scanner_read s = Ok (tokSYMBOL, state_after 1 s) /\
  tokSYMBOL <> tokOPEN /\ tokSYMBOL <> tokCLOSE.
Proof.
  intros s.
  assert (H : scanner_read s = Ok (tokSYMBOL, state_after 1 s))
    by (vm_compute; reflexivity).
  split; [reflexivity|]. split; [exact H|].
  exact (scanner_read_discovery s _ _ eq_refl H).
Defined.

(** ** Errors reported while scanning *)

Section Reported.

Lemma reported_refl (k : Errors.sink_t) : reported k k.
Proof. now exists []. Qed.

Lemma reported_error (k0 k : Errors.sink_t) pos fmt va :
  reported k0 k -> reported k0 (Errors.error pos fmt va k).
Proof.
  intros [msgs ->]. exists (msgs ++ [Errors.mkmessage pos fmt va]).
  now rewrite error_each_app.
Qed.

Lemma reported_trans (k0 k1 k2 : Errors.sink_t) :
  reported k0 k1 -> reported k1 k2 -> reported k0 k2.
Proof.
  intros [a ->] [b ->]. exists (a ++ b). now rewrite error_each_app.
Qed.

End Reported.

Section KeepsLoops.

Lemma keeps_while {A B} (I : scanner_t -> Prop) (body : A -> M (A + B)) (a : A) :
  (forall a, keeps I (body a)) -> keeps I (while body a).
Proof.
  intros H. apply hoare_while. intros a' s r s' Hs E.
  pose proof (H a' s r s' Hs E) as Hr. now destruct r.
Qed.

End KeepsLoops.

Create HintDb reports discriminated.

(** The functions that are steps of the others. *)
Ltac unfold_steps :=
  unfold scanner_nextchar, scanner_consume, scanner_getchar,
    scanner_ungetchar, text_append_char, position_step, error, indents_top,
    indents_pop, indents_push, digit_at, normalize_source, source_data,
    is_block, is_block_close.

Ltac reported_step :=
  first
    [ progress cbv beta zeta
    | solve [auto with reports]
    | match goal with
      | |- hoare ?I ?m (fun _ => ?I) => change (keeps I m); solve [auto with reports]
      end
    | apply keeps_while; intros
    | progress unfold keeps
    | apply hoare_ret; intros; assumption
    | apply hoare_crash
    | apply hoare_gets; intros; assumption
    | apply hoare_lift; intros; assumption
    | apply hoare_modify; intros ? ?; simpl_state;
      first [assumption | apply reported_error; assumption]
    | apply hoare_when
    | apply hoare_bind; [|intros]
    | match goal with
      | |- hoare _ (if ?b then _ else _) _ => destruct b
      | |- hoare _ (match ?x with _ => _ end) _ => destruct x
      end ].

Ltac reported_tac := unfold_steps; repeat reported_step.

Section ReportedScanner.

Context (k0 : Errors.sink_t).

Lemma skip_underscore_reported pos msg c :
  keeps (grown k0) (skip_underscore pos msg c).
Proof. unfold skip_underscore. reported_tac. Qed.

Lemma skip_blob_spaces_body_reported c :
  keeps (grown k0) (skip_blob_spaces_body c).
Proof. unfold skip_blob_spaces_body. reported_tac. Qed.

Hint Resolve skip_underscore_reported skip_blob_spaces_body_reported : reports.

Lemma digits_body_reported pos n : keeps (grown k0) (digits_body pos n).
Proof. unfold digits_body. reported_tac. Qed.

Lemma blob_select_bits_reported pos n :
  keeps (grown k0) (blob_select_bits pos n).
Proof. unfold blob_select_bits. reported_tac. Qed.

Hint Resolve digits_body_reported blob_select_bits_reported : reports.

Lemma number_round_reported pos based n :
  keeps (grown k0) (number_round pos based n).
Proof. unfold number_round. reported_tac. Qed.

Hint Resolve number_round_reported : reports.

Lemma number_integral_reported pos n : keeps (grown k0) (number_integral pos n).
Proof. unfold number_integral. reported_tac. Qed.

Lemma blob_finish_reported n : keeps (grown k0) (blob_finish n).
Proof. unfold blob_finish. reported_tac. Qed.

Lemma fraction_body_reported pos n st :
  keeps (grown k0) (fraction_body pos n st).
Proof. unfold fraction_body. destruct st as [[? ?] ?]. reported_tac. Qed.

Lemma exponent_body_reported st : keeps (grown k0) (exponent_body st).
Proof. unfold exponent_body. destruct st. reported_tac. Qed.

Hint Resolve number_integral_reported blob_finish_reported
  fraction_body_reported exponent_body_reported : reports.

Lemma number_finish_reported pos n fp r c :
  keeps (grown k0) (number_finish pos n fp r c).
Proof. unfold number_finish. reported_tac. Qed.

Hint Resolve number_finish_reported : reports.

Lemma scan_number_reported pos c blob :
  keeps (grown k0) (scan_number pos c blob).
Proof. unfold scan_number. reported_tac. Qed.

Lemma name_body_reported c : keeps (grown k0) (name_body c).
Proof. unfold name_body. reported_tac. Qed.

Lemma classify_name_reported name : keeps (grown k0) (classify_name name).
Proof. unfold classify_name. reported_tac. Qed.

Hint Resolve name_body_reported classify_name_reported : reports.

Lemma scan_name_reported pos c : keeps (grown k0) (scan_name pos c).
Proof. unfold scan_name. reported_tac. Qed.

Lemma scanner_character_reported text :
  keeps (grown k0) (scanner_character text).
Proof. unfold scanner_character. reported_tac. Qed.

Hint Resolve scanner_character_reported : reports.

Lemma text_body_reported pos eos st : keeps (grown k0) (text_body pos eos st).
Proof. unfold text_body. destruct st. reported_tac. Qed.

Hint Resolve text_body_reported : reports.

Lemma scan_text_reported pos c : keeps (grown k0) (scan_text pos c).
Proof. unfold scan_text. reported_tac. Qed.

Lemma symbol_body_reported syn c : keeps (grown k0) (symbol_body syn c).
Proof. unfold symbol_body. reported_tac. Qed.

Lemma discovery_body_reported c : keeps (grown k0) (discovery_body c).
Proof. unfold discovery_body. reported_tac. Qed.

Hint Resolve symbol_body_reported discovery_body_reported : reports.

Lemma scan_symbol_reported pos c : keeps (grown k0) (scan_symbol pos c).
Proof. unfold scan_symbol. reported_tac. Qed.

Hint Resolve scan_number_reported scan_name_reported scan_text_reported
  scan_symbol_reported : reports.

Lemma scan_token_reported c : keeps (grown k0) (scan_token c).
Proof. unfold scan_token. reported_tac. Qed.

Lemma skip_spaces_body_reported pos c :
  keeps (grown k0) (skip_spaces_body pos c).
Proof. unfold skip_spaces_body. reported_tac. Qed.

Lemma unindent_pending_reported : keeps (grown k0) unindent_pending.
Proof. unfold unindent_pending. reported_tac. Qed.

Lemma indent_decision_reported pos c : keeps (grown k0) (indent_decision pos c).
Proof. unfold indent_decision. reported_tac. Qed.

Hint Resolve scan_token_reported skip_spaces_body_reported
  unindent_pending_reported indent_decision_reported : reports.

Lemma read_begin_reported : keeps (grown k0) read_begin.
Proof. unfold read_begin. reported_tac. Qed.

Hint Resolve read_begin_reported : reports.

Lemma scanner_read_reported : keeps (grown k0) scanner_read.
Proof. unfold scanner_read. reported_tac. Qed.

End ReportedScanner.

Section ErrorToken.

Lemma indent_decision_error (pos c : Z) (s s' : scanner_t) :
  indent_decision pos c s = Ok (tokERROR, s') ->
  sink s' = Errors.error pos "Unindenting to the right of previous indentation"
              [] (sink s).
Proof.
  intros H.
  unfold indent_decision, scanner_ungetchar, indents_top, indents_pop,
    indents_push, error in H.
  unfold bind, gets, modify, lift, ret, assert in H. simpl_state in H.
  destruct (snd (pending_char s) =? 0); [|discriminate]. simpl_state in H.
  destruct (setting_indent s); simpl_state in H; [discriminate|].
  destruct (indent s <? column s); simpl_state in H; [discriminate|].
  destruct (TypedBlob.top (indents s)) as [top|]; [|discriminate].
  simpl_state in H.
  destruct (column s <? top); simpl_state in H; [|discriminate].
  destruct (TypedBlob.pop (indents s)) as [rest|]; [|discriminate].
  simpl_state in H. unfold TypedBlob.length_of in H.
  destruct (length rest =? 0)%nat; simpl_state in H; [discriminate|].
  destruct (TypedBlob.top rest) as [top'|]; [|discriminate]. simpl_state in H.
  destruct (top' <? column s); [|discriminate].
  now injection H as <-.
Qed.

Lemma read_begin_position (s s1 : scanner_t) (pos c : Z) :
  read_begin s = Ok (inr (pos, c), s1) -> pos = scanner_position s.
Proof.
  intros H. unfold read_begin in H.
  apply bind_inv in H as (pos' & s0 & H0 & H). injection H0 as <- <-.
  apply bind_inv in H as (? & sa & _ & H).
  apply bind_inv in H as (? & sb & _ & H).
  apply bind_inv in H as (rd & sc & _ & H).
  destruct (negb rd); [discriminate|].
  apply bind_inv in H as (? & sd & _ & H).
  apply bind_inv in H as (pending & se & _ & H).
  destruct pending.
  - apply bind_inv in H as (? & sf & _ & H). discriminate H.
  - apply bind_inv in H as (c1 & sf & _ & H).
    apply bind_inv in H as (? & sg & _ & H).
    apply bind_inv in H as (c2 & sh & _ & H). now injection H as <- _ _.
Qed.

End ErrorToken.

(** X21.  [scanner_read] only adds to the errors: the sink after a call
    is the sink before it with the errors of the call reported in
    order; no error is dropped or displayed twice, and the errors
    buffer is neither installed nor removed. *)
Theorem scanner_read_reports (s s' : scanner_t) (tok : token_t) :
  scanner_read s = Ok (tok, s') -> reported (sink s) (sink s').
Proof.
  intros H.
  exact (scanner_read_reported (sink s) s tok s' (reported_refl _) H).
Qed.

Lemma scanner_read_reports_witness :
  let s := scanner_on None (str "1__2 ") in
  scanner_read s = Ok (tokINTEGER, state_after 1 s) /\
  sink (state_after 1 s)
    = Errors.mksink None
        [Errors.mkmessage 0 "Two '_' characters in a row look ugly" []] /\
  reported (sink s) (sink (state_after 1 s)).
Proof.
  intros s.
  assert (H : scanner_read s = Ok (tokINTEGER, state_after 1 s))
    by (vm_compute; reflexivity).
  split; [exact H|]. split; [vm_compute; reflexivity|].
  exact (scanner_read_reports s _ _ H).
Defined.

(** X22.  The ERROR token is never silent: when [scanner_read] returns
    it, the last error reported is the one of the unindentation, at the
    position the scanner had at the start of the call. *)
Theorem scanner_read_error_reported (s s' : scanner_t) :
  scanner_read s = Ok (tokERROR, s') ->
  exists k,
    reported (sink s) k /\
    sink s' = Errors.error (scanner_position s)
                "Unindenting to the right of previous indentation" [] k.
Proof.
  intros H. unfold scanner_read in H.
  apply bind_inv in H as (r & s1 & Hbegin & H).
  pose proof (read_begin_reported (sink s) s r s1 (reported_refl _) Hbegin)
    as Hrep.
  destruct r as [early|[pos c]].
  - injection H as -> <-. apply read_begin_effect in Hbegin.
    destruct Hbegin as [[E|E] _]; discriminate E.
  - apply read_begin_position in Hbegin. subst pos.
    apply bind_inv in H as (checking & s2 & H0 & H). injection H0 as <- <-.
    destruct (checking_indent s1).
    + apply indent_decision_error in H. now exists (sink s1).
    + apply bind_inv in H as (rd & s2 & H0 & H). injection H0 as <- <-.
      destruct (reader s1); cbn [negb] in H.
      * pose proof (scan_token_value c _ _ _ H) as Hval. discriminate Hval.
      * discriminate H.
Qed.

Lemma scanner_read_error_reported_witness :
  let s := state_after 4 (scanner_on None misaligned_dedent) in
  scanner_read s = Ok (tokERROR, state_after 1 s) /\
  exists k,
    reported (sink s) k /\
    sink (state_after 1 s)
      = Errors.error (scanner_position s)
          "Unindenting to the right of previous indentation" [] k.
Proof.
  intros s.
  assert (H : scanner_read s = Ok (tokERROR, state_after 1 s))
    by (vm_compute; reflexivity).
  split; [exact H|]. exact (scanner_read_error_reported s _ H).
Defined.

(** ** The character of the indentation *)

Section IndentChar.

Context (v : Z) (Hv : v <> 0).

Lemma keeps_fixed {A} (m : M A) : preserves indent_char m -> keeps (fixed v) m.
Proof. apply (keeps_preserves indent_char (fun x => x = v)). Qed.

Lemma skip_spaces_body_fixed pos c :
  hoare (fixed v) (skip_spaces_body pos c)
    (fun r s => match r with inl _ => (fixed v) s | inr _ => (fixed v) s end).
Proof.
  intros s r s' Hs E. unfold skip_spaces_body in E.
  destruct (isspace c && negb (c =? EOF)).
  2:{ injection E as <- <-. exact Hs. }
  apply bind_inv in E as (? & s1 & E0 & E). injection E0 as _ <-.
  apply bind_inv in E as (checking & s2 & E0 & E). injection E0 as <- <-.
  apply bind_inv in E as (? & s3 & E1 & E).
  assert (H3 : (fixed v) s3).
  { clear E. unfold fixed in *.
    assert (Hz : (v =? 0) = false) by now apply Z.eqb_neq.
    unfold bind, gets, modify, ret, when, error in E1. simpl_state in E1.
    destruct (c =? c_newline); [injection E1 as _ <-; exact Hs|].
    destruct (checking_indent s); [|injection E1 as _ <-; exact Hs].
    destruct ((c =? c_space) || (c =? c_tab)); simpl_state in E1.
    - rewrite Hs, Hz in E1.
      destruct (negb (v =? c)); injection E1 as _ <-; exact Hs.
    - injection E1 as _ <-. exact Hs. }
  apply bind_inv in E as (? & s4 & E2 & E).
  assert (H4 : (fixed v) s4) by (revert E2; apply keeps_fixed; [preserves_all|exact H3]).
  apply bind_inv in E as (c' & s5 & E3 & E).
  assert (H5 : (fixed v) s5) by (revert E3; apply keeps_fixed; [preserves_all|exact H4]).
  injection E as <- <-. exact H5.
Qed.

Lemma read_begin_fixed : keeps (fixed v) read_begin.
Proof.
  unfold read_begin.
  apply hoare_bind; [apply keeps_fixed; preserves_all|intros pos].
  apply hoare_bind; [apply keeps_fixed; preserves_all|intros _].
  apply hoare_bind; [apply keeps_fixed; preserves_all|intros _].
  apply hoare_bind; [apply keeps_fixed; preserves_all|intros rd].
  destruct (negb rd); [apply hoare_ret; auto|].
  apply hoare_bind; [apply keeps_fixed; preserves_all|intros _].
  apply hoare_bind; [apply keeps_fixed; preserves_all|intros pending].
  destruct pending; [apply keeps_fixed; preserves_all|].
  apply hoare_bind; [apply keeps_fixed; preserves_all|intros c].
  apply hoare_bind; [apply keeps_fixed; preserves_all|intros _].
  apply hoare_bind; [|intros c'; apply hoare_ret; auto].
  apply hoare_while. intros a.
  eapply hoare_weaken; [apply skip_spaces_body_fixed|auto|].
  intros [|] s H; exact H.
Qed.

Lemma scanner_read_fixed : keeps (fixed v) scanner_read.
Proof.
  unfold scanner_read.
  apply hoare_bind; [apply read_begin_fixed|intros r].
  destruct r as [tok|[pos c]]; [apply hoare_ret; auto|].
  apply hoare_bind; [apply keeps_fixed; preserves_all|intros checking].
  destruct checking; [apply keeps_fixed; preserves_all|].
  apply hoare_bind; [apply keeps_fixed; preserves_all|intros rd].
  destruct (negb rd); [apply hoare_ret; auto|].
  apply keeps_fixed. preserves_all.
Qed.

End IndentChar.

(** X23.  The indentation character is chosen once: when the scanner
    has seen a space or a tab in an indentation, no call of
    [scanner_read] changes [indent_char], whatever the input mixes. *)
Theorem scanner_read_indent_char (s s' : scanner_t) (tok : token_t) :
  indent_char s <> 0 ->
  scanner_read s = Ok (tok, s') ->
  indent_char s' = indent_char s.
Proof.
  intros Hv H. exact (scanner_read_fixed (indent_char s) Hv s tok s' eq_refl H).
Qed.

Lemma scanner_read_indent_char_witness :
  let s := state_after 2 (scanner_on None (str (NL ++ " a" ++ NL)%string
                                           ++ [c_tab] ++ str "b")) in
  indent_char s <> 0 /\
  scanner_read s = Ok (tokNEWLINE, state_after 1 s) /\
  indent_char (state_after 1 s) = c_space.
Proof.
  intros s.
  assert (Hv : indent_char s <> 0) by (vm_compute; discriminate).
  assert (H : scanner_read s = Ok (tokNEWLINE, state_after 1 s))
    by (vm_compute; reflexivity).
  split; [exact Hv|]. split; [exact H|].
  rewrite (scanner_read_indent_char s _ _ Hv H). vm_compute. reflexivity.
Defined.

(** ** Reading one token *)

Section Bytes.

Lemma ascii_char (b : Z) : 0 <= b < 128 -> char_of_byte b = b.
Proof.
  intros H. unfold char_of_byte.
  destruct (b <? 128) eqn:E; [reflexivity|apply Z.ltb_ge in E; lia].
Qed.

Lemma ascii_byte_of (b : Z) : 0 <= b < 256 -> byte_of_int b = b.
Proof. intros H. apply Z.mod_small. lia. Qed.

(** A byte read as a [char] and stored as a byte is the byte. *)
Lemma byte_of_char (b : Z) : 0 <= b < 256 -> byte_of_int (char_of_byte b) = b.
Proof.
  intros H. unfold char_of_byte, byte_of_int.
  destruct (b <? 128) eqn:E.
  - apply Z.mod_small. lia.
  - apply Z.ltb_ge in E. symmetry. apply (Z.mod_unique _ _ (-1)); lia.
Qed.

Lemma advance_u32 (n : nat) : forall p,
  u32 (advance n p) = u32 (p + Z.of_nat n).
Proof.
  induction n as [|n IH]; intros p.
  - cbn [advance]. now rewrite Z.add_0_r.
  - cbn [advance]. rewrite IH. unfold u32.
    rewrite Zplus_mod_idemp_l. f_equal. lia.
Qed.

Lemma advance_S (n : nat) (p : Z) :
  advance (S n) p = u32 (advance n p + 1).
Proof.
  revert p. induction n as [|n IH]; intros p; [reflexivity|].
  change (advance (S (S n)) p) with (advance (S n) (u32 (p + 1))).
  now rewrite IH.
Qed.

End Bytes.

Section Steps.

(** Taking the next byte of the input. *)
Lemma getchar_ahead (s : scanner_t) (b : Z) (l : list Z) :
  reader s = true ->
  snd (pending_char s) = 0 -> 0 <= fst (pending_char s) < 256 ->
  ahead s = b :: l ->
  scanner_getchar s
    = Ok (char_of_byte b, set_stream l (set_pending_char (0, 0) s)).
Proof.
  intros Hrd Hp1 Hp0 Ha. destruct s. unfold ahead in Ha.
  cbn [pending_char reader stream] in *.
  destruct pending_char0 as [p0 p1]. cbn [fst snd] in *. subst p1 reader0.
  unfold scanner_getchar, bind, gets, modify, ret.
  cbn -[char_of_byte].
  destruct (p0 =? 0) eqn:E0.
  - apply Z.eqb_eq in E0. subst p0 stream0. reflexivity.
  - injection Ha as -> ->.
    replace (char_of_byte b =? 0) with false; [reflexivity|].
    symmetry. apply Z.eqb_neq. apply Z.eqb_neq in E0.
    unfold char_of_byte. destruct (b <? 128); lia.
Qed.

(** Taking the next byte of the stream, nothing being pushed back. *)
Lemma getchar_stream (s : scanner_t) (b : Z) (l : list Z) :
  reader s = true -> pending_char s = (0, 0) -> stream s = b :: l ->
  scanner_getchar s = Ok (char_of_byte b, set_stream l s).
Proof.
  intros Hrd Hp Hs. destruct s. cbn [pending_char reader stream] in *.
  subst. reflexivity.
Qed.

(** Consuming a character and taking the next byte of the stream. *)
Lemma nextchar_stream (s : scanner_t) (c b : Z) (l : list Z) (src : blob_t) :
  reader s = true -> pending_char s = (0, 0) -> stream s = b :: l ->
  source s = Some src ->
  scanner_nextchar c s
    = Ok (char_of_byte b,
          set_stream l
            (set_position (u32 (position s + 1))
               (set_source
                  (Some (if byte_of_int c =? 0 then src
                         else blob_append_data src [byte_of_int c])) s))).
Proof.
  intros Hrd Hp Hs Hsrc. destruct s.
  cbn [pending_char reader stream source] in *. subst.
  unfold scanner_nextchar, scanner_consume, text_append_char, position_step,
    scanner_getchar, when, bind, gets, modify, ret.
  cbn -[char_of_byte byte_of_int u32 Z.eqb].
  destruct (byte_of_int c =? 0); reflexivity.
Qed.

End Steps.
Section Blanks.

Lemma blank_char (w : Z) :
  blank w = true ->
  isspace (char_of_byte w) = true /\
  (char_of_byte w =? c_newline) = false /\
  (char_of_byte w =? EOF) = false.
Proof.
  unfold blank. generalize (char_of_byte w). intros c H.
  apply andb_true_iff in H as [H1 H2]. apply negb_true_iff in H2.
  split; [exact H1|]. split; [exact H2|].
  apply Z.eqb_neq. unfold EOF. ctype_solve.
Qed.

(** One round of the whitespace loop on a blank, when no indentation is
    being measured. *)
Lemma skip_blank_round (pos : Z) (s : scanner_t) (w x : Z) (l : list Z) :
  reader s = true -> pending_char s = (0, 0) -> checking_indent s = false ->
  stream s = x :: l -> blank w = true ->
  skip_spaces_body pos (char_of_byte w) s
    = Ok (inl (char_of_byte x),
          set_stream l
            (set_position (u32 (position s + 1))
               (set_had_space_before true s))).
Proof.
  intros Hrd Hp Hc Hs Hw. destruct (blank_char w Hw) as (H1 & H2 & H3).
  destruct s. cbn [pending_char reader stream checking_indent] in *. subst.
  unfold skip_spaces_body. rewrite H1, H2, H3. cbn [andb negb].
  unfold scanner_consume, text_append_char, position_step, scanner_getchar,
    when, bind, gets, modify, ret.
  cbn -[char_of_byte u32]. reflexivity.
Qed.

(** The rounds of the loop on a run of blanks. *)
Lemma skip_blanks (pos : Z) (ws : list Z) :
  forall (s : scanner_t) (w x : Z) (l : list Z) (fuel : nat),
  reader s = true -> pending_char s = (0, 0) -> checking_indent s = false ->
  stream s = ws ++ x :: l -> blank w = true -> forallb blank ws = true ->
  loop (S (length ws) + fuel) (skip_spaces_body pos) (char_of_byte w) s
    = loop fuel (skip_spaces_body pos) (char_of_byte x)
        (set_stream l
           (set_position (advance (S (length ws)) (position s))
              (set_had_space_before true s))).
Proof.
  induction ws as [|w' ws IH]; intros s w x l fuel Hrd Hp Hc Hs Hw Hws.
  - cbn [length Nat.add loop app] in *.
    rewrite (bind_eval _ _ _ _ _ (skip_blank_round pos s w x l Hrd Hp Hc Hs Hw)).
    reflexivity.
  - cbn [forallb] in Hws. apply andb_true_iff in Hws as [Hw' Hws].
    cbn [length app] in *.
    change (S (S (length ws)) + fuel)%nat with (S (S (length ws) + fuel)).
    cbn [loop].
    rewrite (bind_eval _ _ _ _ _
               (skip_blank_round pos s w w' (ws ++ x :: l) Hrd Hp Hc Hs Hw)).
    rewrite (IH _ w' x l fuel); [|now destruct s..|exact Hw'|exact Hws].
    now destruct s.
Qed.

Lemma skip_spaces_done (pos : Z) (s : scanner_t) (x : Z) (fuel : nat) :
  visible x = true ->
  loop (S fuel) (skip_spaces_body pos) (char_of_byte x) s
    = Ok (char_of_byte x, s).
Proof.
  intros H. unfold visible in H. apply negb_true_iff in H.
  cbn [loop]. unfold skip_spaces_body. rewrite H. reflexivity.
Qed.

Lemma unindent_pending_closed (s : scanner_t) :
  levels_closed s = true -> unindent_pending s = Ok (false, s).
Proof.
  unfold levels_closed, unindent_pending, indents_top, bind, gets, lift, ret.
  unfold TypedBlob.length_of.
  destruct (top_cases (indents s)) as [-> | (t & Htop & Hlen)].
  - reflexivity.
  - rewrite Htop. intros H. apply Z.leb_le in H.
    destruct (length (indents s)); [discriminate Hlen|]. cbn [Nat.ltb Nat.leb].
    cbv beta. rewrite Htop.
    replace (indent s <? t) with false by (symmetry; now apply Z.ltb_ge).
    reflexivity.
Qed.

(** [scanner_read] up to the first byte that is not whitespace, on a
    line whose indentation has been dealt with. *)
Lemma read_begin_token (s : scanner_t) (ws : list Z) (b : Z) (rest : list Z) :
  ready s -> ahead s = ws ++ b :: rest ->
  forallb blank ws = true -> visible b = true ->
  read_begin s
    = Ok (inr (scanner_position s, char_of_byte b),
          set_had_space_before (match ws with [] => false | _ => true end)
            (set_stream rest
               (set_pending_char (0, 0)
                  (set_position (advance (length ws) (position s))
                     (set_scanned scanned_none
                        (set_source
                           (Some (text_new (scanner_position s) [])) s)))))).
Proof.
  intros (Hrd & Hp1 & Hp0 & Hc & Hl) Ha Hws Hb.
  unfold read_begin.
  erewrite bind_eval by reflexivity.
  erewrite bind_eval by reflexivity.
  erewrite bind_eval by reflexivity.
  erewrite bind_eval by reflexivity.
  cbn [reader set_scanned set_source]. rewrite Hrd. cbn [negb].
  erewrite bind_eval by reflexivity.
  erewrite bind_eval by (apply unindent_pending_closed; exact Hl).
  destruct ws as [|w ws].
  - cbn [app] in Ha.
    erewrite bind_eval by (apply (getchar_ahead _ b rest); assumption).
    erewrite bind_eval by reflexivity.
    erewrite bind_eval; cycle 1.
    { unfold while, rounds.
      match goal with
      | |- context [loop ?f _ _ _] => replace f with (S (f - 1)) by lia
      end.
      rewrite skip_spaces_done by exact Hb. reflexivity. }
    cbn [length advance]. now destruct s.
  - cbn [app forallb] in Ha, Hws. apply andb_true_iff in Hws as [Hw Hws].
    erewrite bind_eval
      by (apply (getchar_ahead _ w (ws ++ b :: rest)); assumption).
    erewrite bind_eval by reflexivity.
    erewrite bind_eval; cycle 1.
    { unfold while, rounds. cbn [stream set_stream set_had_space_before].
      rewrite length_app. cbn [length].
      replace (2 * (length ws + S (length rest)) + 6)%nat
        with (S (length ws) + S (length ws + 2 * length rest + 6))%nat by lia.
      rewrite (skip_blanks _ ws _ w b rest); try reflexivity; try assumption.
      rewrite skip_spaces_done by exact Hb. reflexivity. }
    now destruct s.
Qed.

End Blanks.
Section Dispatch.

(** The state in which the first character of a token is examined. *)
Lemma scanner_read_dispatch (s : scanner_t) (ws : list Z) (b : Z)
    (rest : list Z) :
  ready s -> ahead s = ws ++ b :: rest ->
  forallb blank ws = true -> visible b = true ->
  scanner_read s
    = scan_token (char_of_byte b)
        (set_had_space_before (match ws with [] => false | _ => true end)
           (set_stream rest
              (set_pending_char (0, 0)
                 (set_position (advance (length ws) (position s))
                    (set_scanned scanned_none
                       (set_source
                          (Some (text_new (scanner_position s) [])) s)))))).
Proof.
  intros Hr Ha Hws Hb. pose proof Hr as (Hrd & _ & _ & Hc & _).
  unfold scanner_read.
  rewrite (bind_eval _ _ _ _ _ (read_begin_token s ws b rest Hr Ha Hws Hb)).
  erewrite bind_eval by reflexivity.
  cbn [checking_indent set_had_space_before set_stream set_pending_char
         set_position set_scanned set_source].
  rewrite Hc.
  erewrite bind_eval by reflexivity.
  cbn [reader set_had_space_before set_stream set_pending_char
         set_position set_scanned set_source].
  now rewrite Hrd.
Qed.

End Dispatch.
Section Decimal.

Lemma digit_range (d : Z) : isdigit d = true -> 48 <= d <= 57.
Proof. intros H. ctype_unfold. bool_to_Z. lia. Qed.

Lemma digit_entry (d : Z) :
  isdigit d = true -> table_entry base_value d = d - 48.
Proof. intros H. unfold table_entry. unfold isdigit in H. now rewrite H. Qed.

(** One round of the loop of the digits, on a decimal digit. *)
Lemma digits_round (pos : Z) (s : scanner_t) (v d x : Z) (l : list Z)
    (src : blob_t) :
  reader s = true -> pending_char s = (0, 0) -> stream s = x :: l ->
  source s = Some src ->
  isdigit d = true -> (char_of_byte x =? c_underscore) = false ->
  digits_body pos (mknumber 10 16 v 0 0 4 8 base_value None d) s
  = Ok (inl (mknumber 10 16 (u64 (10 * v + (d - 48))) 0 0 4 8 base_value None
               (char_of_byte x)),
        set_stream l
          (set_position (u32 (position s + 1))
             (set_source (Some (blob_append_data src [d])) s))).
Proof.
  intros Hrd Hp Hs Hsrc Hd Hx. pose proof (digit_range d Hd) as Hr.
  unfold digits_body, digit_at.
  cbn [digit_value cur base is_blob blob blob_base natural_value].
  replace (between 0 255 d) with true
    by (symmetry; unfold between; apply andb_true_iff; split; apply Z.leb_le; lia).
  rewrite (digit_entry d Hd).
  erewrite bind_eval by reflexivity.
  replace (d - 48 <? 10) with true by (symmetry; apply Z.ltb_lt; lia).
  cbn [orb andb]. cbv zeta.
  cbn [is_blob blob set_natural_value cur natural_value base blob_base
         blob_chunk blob_bits blob_digbits blob_maxbits digit_value].
  erewrite bind_eval by (apply (nextchar_stream s d x l src); assumption).
  unfold skip_underscore. rewrite Hx.
  erewrite bind_eval by reflexivity.
  erewrite bind_eval by reflexivity.
  rewrite (ascii_byte_of d) by lia.
  replace (d =? 0) with false by (symmetry; apply Z.eqb_neq; lia).
  reflexivity.
Qed.

(** The rounds of the loop on a run of decimal digits. *)
Lemma digits_rounds (pos : Z) (ds : list Z) :
  forall (s : scanner_t) (v d x : Z) (l : list Z) (src : blob_t) (fuel : nat),
  reader s = true -> pending_char s = (0, 0) ->
  stream s = ds ++ x :: l -> source s = Some src ->
  isdigit d = true -> forallb isdigit ds = true ->
  (char_of_byte x =? c_underscore) = false ->
  loop (S (length ds) + fuel) (digits_body pos)
    (mknumber 10 16 v 0 0 4 8 base_value None d) s
  = loop fuel (digits_body pos)
      (mknumber 10 16
         (fold_left (fun acc d => u64 (10 * acc + (d - 48))) (d :: ds) v)
         0 0 4 8 base_value None (char_of_byte x))
      (set_stream l
         (set_position (advance (S (length ds)) (position s))
            (set_source (Some (blob_append_data src (d :: ds))) s))).
Proof.
  induction ds as [|d' ds IH];
    intros s v d x l src fuel Hrd Hp Hs Hsrc Hd Hds Hx.
  - cbn [length Nat.add loop app fold_left] in *.
    rewrite (bind_eval _ _ _ _ _
               (digits_round pos s v d x l src Hrd Hp Hs Hsrc Hd Hx)).
    reflexivity.
  - cbn [forallb] in Hds. apply andb_true_iff in Hds as [Hd' Hds].
    cbn [length app] in *.
    change (S (S (length ds)) + fuel)%nat with (S (S (length ds) + fuel)).
    cbn [loop].
    assert (Hu : (char_of_byte d' =? c_underscore) = false).
    { pose proof (digit_range d' Hd'). rewrite ascii_char by lia.
      apply Z.eqb_neq. unfold c_underscore. lia. }
    rewrite (bind_eval _ _ _ _ _
               (digits_round pos s v d d' (ds ++ x :: l) src
                  Hrd Hp Hs Hsrc Hd Hu)).
    pose proof (digit_range d' Hd') as Hr'.
    rewrite (ascii_char d') by lia.
    rewrite (IH _ _ d' x l (blob_append_data src [d]) fuel);
      [|now destruct s..|exact Hd'|exact Hds|exact Hx].
    cbn [fold_left]. f_equal.
    destruct s. unfold blob_append_data. cbn. rewrite <- app_assoc.
    reflexivity.
Qed.

(** The last round: a character that is no digit of the base. *)
Lemma digits_done (pos : Z) (s : scanner_t) (v t : Z) (fuel : nat) :
  number_end t = true ->
  loop (S fuel) (digits_body pos)
    (mknumber 10 16 v 0 0 4 8 base_value None (char_of_byte t)) s
  = Ok (mknumber 10 16 v 0 0 4 8 base_value None t, s).
Proof.
  intros Ht. unfold number_end in Ht.
  repeat (apply andb_true_iff in Ht as [Ht ?]).
  assert (Hr : 1 <= t <= 127) by (unfold between in Ht; bool_to_Z; lia).
  rewrite ascii_char by lia.
  assert (Hbody : digits_body pos
                    (mknumber 10 16 v 0 0 4 8 base_value None t) s
                  = Ok (inr (mknumber 10 16 v 0 0 4 8 base_value None t), s)).
  { unfold digits_body, digit_at.
    cbn [digit_value cur base is_blob blob blob_base natural_value].
    replace (between 0 255 t) with true
      by (symmetry; unfold between; apply andb_true_iff; split;
          apply Z.leb_le; lia).
    erewrite bind_eval by reflexivity.
    replace (table_entry base_value t <? 10) with false; [reflexivity|].
    symmetry. apply Z.ltb_ge. unfold table_entry.
    match goal with H : negb (isdigit t) = true |- _ =>
      apply negb_true_iff in H; unfold isdigit in H; rewrite H end.
    destruct (between 65 90 t) eqn:E1; [unfold between in E1; bool_to_Z; lia|].
    destruct (between 97 122 t) eqn:E2; [unfold between in E2; bool_to_Z; lia|].
    lia. }
  cbn [loop]. now rewrite (bind_eval _ _ _ _ _ Hbody).
Qed.

Lemma accumulate_u64 (ds : list Z) : forall v w,
  u64 v = u64 w ->
  u64 (fold_left (fun acc d => u64 (10 * acc + (d - 48))) ds v)
  = u64 (fold_left (fun acc d => 10 * acc + (d - 48)) ds w).
Proof.
  induction ds as [|d ds IH]; intros v w H; [exact H|].
  cbn [fold_left]. apply IH.
  unfold u64 in *. rewrite Z.mod_mod by lia.
  rewrite <- (Zplus_mod_idemp_l (10 * v)), <- (Zmult_mod_idemp_r v).
  rewrite H, Zmult_mod_idemp_r, Zplus_mod_idemp_l. reflexivity.
Qed.

(** The value accumulated digit after digit is the number that the
    digits spell, modulo 2^64. *)
Lemma accumulate_decimal (ds : list Z) :
  ds <> [] ->
  fold_left (fun acc d => u64 (10 * acc + (d - 48))) ds 0 = u64 (decimal ds).
Proof.
  intros Hne. unfold decimal. rewrite <- (accumulate_u64 ds 0 0 eq_refl).
  destruct (exists_last Hne) as (l & a & ->).
  rewrite fold_left_app. cbn [fold_left]. unfold u64.
  now rewrite Z.mod_mod by lia.
Qed.


(** The integral part of a plain decimal literal. *)
Lemma number_integral_decimal (pos : Z) (s : scanner_t) (d : Z) (ds : list Z)
    (t : Z) (rest : list Z) (src : blob_t) :
  reader s = true -> pending_char s = (0, 0) ->
  stream s = ds ++ t :: rest -> source s = Some src ->
  isdigit d = true -> forallb isdigit ds = true -> number_end t = true ->
  number_integral pos (mknumber 10 16 0 0 0 4 8 base_value None d) s
  = Ok (mknumber 10 16 (u64 (decimal (d :: ds))) 0 0 4 8 base_value None t,
        set_stream rest
          (set_position (advance (S (length ds)) (position s))
             (set_source (Some (blob_append_data src (d :: ds))) s))).
Proof.
  intros Hrd Hp Hs Hsrc Hd Hds Ht.
  pose proof Ht as Ht'. unfold number_end in Ht'.
  repeat (apply andb_true_iff in Ht' as [Ht' ?]).
  assert (Htr : 1 <= t <= 127) by (unfold between in Ht'; bool_to_Z; lia).
  bool_to_Z.
  assert (Hu : (char_of_byte t =? c_underscore) = false)
    by (rewrite ascii_char by lia; now apply Z.eqb_neq).
  unfold number_integral, number_round.
  erewrite bind_eval; cycle 1.
  { erewrite bind_eval; cycle 1.
    { unfold while, rounds. rewrite Hs, length_app. cbn [length].
      replace (2 * (length ds + S (length rest)) + 6)%nat
        with (S (length ds) + S (length ds + 2 * length rest + 6))%nat by lia.
      rewrite (digits_rounds pos ds s 0 d t rest src) by assumption.
      rewrite digits_done by exact Ht.
      rewrite accumulate_decimal by discriminate. reflexivity. }
    cbn [cur]. replace (t =? c_hash) with false by (symmetry; now apply Z.eqb_neq).
    reflexivity. }
  reflexivity.
Qed.

(** The number branch on a plain decimal literal. *)
Lemma scan_number_decimal (pos : Z) (s : scanner_t) (d : Z) (ds : list Z)
    (t : Z) (rest : list Z) (src : blob_t) :
  reader s = true -> pending_char s = (0, 0) ->
  stream s = ds ++ t :: rest -> source s = Some src ->
  isdigit d = true -> forallb isdigit ds = true -> number_end t = true ->
  scan_number pos d None s
  = Ok (tokINTEGER,
        set_scanned (scanned_natural pos (u64 (decimal (d :: ds))))
          (set_had_space_after (isspace t)
             (set_pending_char (t, 0)
                (set_stream rest
                   (set_position (advance (S (length ds)) (position s))
                      (set_source (Some (blob_append_data src (d :: ds)))
                         s)))))).
Proof.
  intros Hrd Hp Hs Hsrc Hd Hds Ht.
  pose proof Ht as Ht'. unfold number_end in Ht'.
  repeat (apply andb_true_iff in Ht' as [Ht' ?]).
  assert (Htr : 1 <= t <= 127) by (unfold between in Ht'; bool_to_Z; lia).
  bool_to_Z.
  unfold scan_number.
  rewrite (bind_eval _ _ _ _ _
             (number_integral_decimal pos s d ds t rest src
                Hrd Hp Hs Hsrc Hd Hds Ht)).
  cbv zeta. cbn [is_blob blob cur natural_value].
  replace (t =? c_dot) with false by (symmetry; now apply Z.eqb_neq).
  unfold number_finish.
  replace (t =? c_hash) with false by (symmetry; now apply Z.eqb_neq).
  erewrite bind_eval by reflexivity.
  replace (t =? c_e) with false by (symmetry; now apply Z.eqb_neq).
  replace (t =? c_E) with false by (symmetry; now apply Z.eqb_neq).
  cbn [orb].
  erewrite bind_eval by reflexivity. cbv iota.
  unfold scanner_ungetchar.
  erewrite bind_eval; cycle 1.
  { erewrite bind_eval by reflexivity.
    cbn [pending_char set_stream set_position set_source]. rewrite Hp.
    cbn [snd fst]. erewrite bind_eval by reflexivity.
    rewrite (ascii_byte_of t) by lia. reflexivity. }
  erewrite bind_eval by reflexivity.
  erewrite bind_eval by reflexivity.
  now destruct s.
Qed.

End Decimal.


Section Texts.

Lemma char_eq_byte (b q : Z) :
  0 <= b < 256 -> 0 <= q < 128 -> (char_of_byte b =? q) = (b =? q).
Proof.
  intros Hb Hq. unfold char_of_byte.
  destruct (b <? 128) eqn:E; [reflexivity|]. apply Z.ltb_ge in E.
  transitivity false; [apply Z.eqb_neq|symmetry; apply Z.eqb_neq]; lia.
Qed.

Lemma char_eof (b : Z) : 0 <= b < 255 -> (char_of_byte b =? EOF) = false.
Proof.
  intros Hb. apply Z.eqb_neq. unfold char_of_byte, EOF.
  destruct (b <? 128); lia.
Qed.

(** One round of the loop of a text on a byte that is not the quote. *)
Lemma text_round_plain (pos : Z) (s : scanner_t) (text src : blob_t)
    (b x : Z) (l : list Z) :
  reader s = true -> pending_char s = (0, 0) -> stream s = x :: l ->
  source s = Some src ->
  0 <= b < 255 -> b <> c_dquote ->
  text_body pos c_dquote (text, char_of_byte b) s
  = Ok (inl (blob_append_data text [b], char_of_byte x),
        set_stream l
          (set_position (u32 (position s + 1))
             (set_source
                (Some (if b =? 0 then src else blob_append_data src [b])) s))).
Proof.
  intros Hrd Hp Hs Hsrc Hb Hq. unfold text_body.
  rewrite (char_eof b Hb).
  erewrite bind_eval by reflexivity. cbv zeta.
  rewrite (char_eq_byte b c_dquote) by (unfold c_dquote; lia).
  replace (b =? c_dquote) with false by (symmetry; now apply Z.eqb_neq).
  erewrite bind_eval
    by (apply (nextchar_stream s _ x l src); assumption).
  rewrite (byte_of_char b) by lia. reflexivity.
Qed.

(** One round on a doubled quote. *)
Lemma text_round_quote (pos : Z) (s : scanner_t) (text src : blob_t)
    (x : Z) (l : list Z) :
  reader s = true -> pending_char s = (0, 0) ->
  stream s = c_dquote :: x :: l -> source s = Some src ->
  text_body pos c_dquote (text, c_dquote) s
  = Ok (inl (blob_append_data text [c_dquote], char_of_byte x),
        set_stream l
          (set_position (u32 (u32 (position s + 1) + 1))
             (set_source
                (Some (blob_append_data (blob_append_data src [c_dquote])
                         [c_dquote])) s))).
Proof.
  intros Hrd Hp Hs Hsrc. unfold text_body.
  change (c_dquote =? EOF) with false. cbv iota.
  erewrite bind_eval by reflexivity. cbv zeta.
  rewrite Z.eqb_refl.
  erewrite bind_eval
    by (apply (nextchar_stream s _ c_dquote (x :: l) src); assumption).
  change (char_of_byte c_dquote) with c_dquote.
  rewrite Z.eqb_refl. cbn [negb].
  erewrite bind_eval
    by (apply (nextchar_stream _ _ x l (blob_append_data src [c_dquote]));
        now destruct s).
  now destruct s.
Qed.

(** The last round: the closing quote and the byte after it. *)
Lemma text_round_end (pos : Z) (s : scanner_t) (text src : blob_t)
    (t : Z) (rest : list Z) :
  reader s = true -> pending_char s = (0, 0) -> stream s = t :: rest ->
  source s = Some src ->
  text_end t = true ->
  text_body pos c_dquote (text, c_dquote) s
  = Ok (inr tokTEXT,
        set_scanned (scanned_text text)
          (set_had_space_after (isspace (char_of_byte t))
             (set_pending_char (t, 0)
                (set_stream rest
                   (set_position (u32 (position s + 1))
                      (set_source
                         (Some (blob_append_data src [c_dquote])) s)))))).
Proof.
  intros Hrd Hp Hs Hsrc Ht. unfold text_end in Ht.
  apply andb_true_iff in Ht as [Hr Hq]. apply negb_true_iff in Hq.
  assert (Htr : 1 <= t <= 255) by (unfold between in Hr; bool_to_Z; lia).
  unfold text_body.
  change (c_dquote =? EOF) with false. cbv iota.
  erewrite bind_eval by reflexivity. cbv zeta.
  rewrite Z.eqb_refl.
  erewrite bind_eval
    by (apply (nextchar_stream s _ t rest src); assumption).
  rewrite (char_eq_byte t c_dquote) by (unfold c_dquote; lia).
  rewrite Hq. cbn [negb].
  unfold scanner_ungetchar.
  erewrite bind_eval; cycle 1.
  { erewrite bind_eval by reflexivity.
    cbn [pending_char set_stream set_position set_source]. rewrite Hp.
    cbn [snd fst]. erewrite bind_eval by reflexivity.
    rewrite (byte_of_char t) by lia. reflexivity. }
  erewrite bind_eval by reflexivity.
  now destruct s.
Qed.

Lemma escape_cons (q b : Z) (body : list Z) :
  escape q (b :: body)
  = (if b =? q then [q; q] else [b]) ++ escape q body.
Proof. reflexivity. Qed.

Lemma escape_length (q : Z) (body : list Z) :
  (length body <= length (escape q body))%nat.
Proof.
  induction body as [|b body IH]; [cbn; lia|].
  rewrite escape_cons, length_app. cbn [length].
  destruct (b =? q); cbn [length]; lia.
Qed.

(** The loop of a text, from its first byte to the byte after the
    closing quote. *)
Lemma text_rounds (pos : Z) (t : Z) (rest : list Z) (body : list Z) :
  text_end t = true ->
  forall (s : scanner_t) (text src : blob_t) (h : Z) (l : list Z) (fuel : nat),
  reader s = true -> pending_char s = (0, 0) -> source s = Some src ->
  forallb text_byte body = true ->
  h :: l = escape c_dquote body ++ c_dquote :: t :: rest ->
  stream s = l ->
  (length body < fuel)%nat ->
  exists p src',
    loop fuel (text_body pos c_dquote) (text, char_of_byte h) s
    = Ok (tokTEXT,
          set_scanned (scanned_text (blob_append_data text body))
            (set_had_space_after (isspace (char_of_byte t))
               (set_pending_char (t, 0)
                  (set_stream rest
                     (set_position p (set_source (Some src') s)))))).
Proof.
  intros Ht. induction body as [|b body IH];
    intros s text src h l fuel Hrd Hp Hsrc Hbody Hfull Hs Hfuel.
  - cbn [escape flat_map app] in Hfull. injection Hfull as -> ->.
    destruct fuel as [|fuel]; [lia|]. cbn [loop].
    change (char_of_byte c_dquote) with c_dquote.
    rewrite (bind_eval _ _ _ _ _
               (text_round_end pos s text src t rest Hrd Hp Hs Hsrc Ht)).
    do 2 eexists. unfold blob_append_data. rewrite app_nil_r.
    destruct text. reflexivity.
  - cbn [forallb] in Hbody. apply andb_true_iff in Hbody as [Hb Hbody].
    assert (Hbr : 0 <= b < 255) by (unfold text_byte, between in Hb; bool_to_Z; lia).
    destruct fuel as [|fuel]; [lia|]. cbn [length] in Hfuel. cbn [loop].
    rewrite escape_cons in Hfull.
    destruct (escape c_dquote body ++ c_dquote :: t :: rest)
      as [|h' l'] eqn:Efull.
    { apply app_eq_nil in Efull as [_ E]. discriminate E. }
    destruct (b =? c_dquote) eqn:Eq.
    + apply Z.eqb_eq in Eq. subst b.
      rewrite <- app_assoc in Hfull. cbn [app] in Hfull.
      rewrite Efull in Hfull. injection Hfull as -> ->.
      change (char_of_byte c_dquote) with c_dquote.
      rewrite (bind_eval _ _ _ _ _
                 (text_round_quote pos s text src h' l' Hrd Hp Hs Hsrc)).
      match goal with
      | |- context [loop fuel _ _ ?st] =>
          destruct (IH st (blob_append_data text [c_dquote])
                      (blob_append_data (blob_append_data src [c_dquote])
                         [c_dquote]) h' l' fuel)
            as (p & src' & E); try (now destruct s); try assumption;
            try reflexivity; try lia
      end.
      exists p, src'. rewrite E. f_equal. f_equal.
      destruct s, text. unfold blob_append_data. cbn.
      rewrite <- app_assoc. reflexivity.
    + apply Z.eqb_neq in Eq.
      cbn [app] in Hfull. rewrite Efull in Hfull. injection Hfull as -> ->.
      rewrite (bind_eval _ _ _ _ _
                 (text_round_plain pos s text src b h' l' Hrd Hp Hs Hsrc
                    Hbr Eq)).
      match goal with
      | |- context [loop fuel _ _ ?st] =>
          destruct (IH st (blob_append_data text [b])
                      (if b =? 0 then src else blob_append_data src [b])
                      h' l' fuel)
            as (p & src' & E); try (now destruct s); try assumption;
            try reflexivity; try lia
      end.
      exists p, src'. rewrite E. f_equal. f_equal.
      destruct s, text. unfold blob_append_data. cbn.
      rewrite <- app_assoc. reflexivity.
Qed.

End Texts.

(** X25.  A text between double quotes is read back as it was
    spelled: with every quote of the text doubled in the input, the
    TEXT token carries the bytes of the text, for every byte but 0xFF;
    the byte after the closing quote is pushed back, and the
    indentation levels and the errors are left alone. *)
Theorem scanner_read_text (s : scanner_t) (ws body : list Z) (t : Z)
    (rest : list Z) :
  ready s ->
  forallb blank ws = true ->
  forallb text_byte body = true ->
  text_end t = true ->
  ahead s = ws ++ c_dquote :: escape c_dquote body ++ c_dquote :: t :: rest ->
  exists s',
    scanner_read s = Ok (tokTEXT, s') /\
    scanned s'
      = scanned_text (text_new (u32 (position s + Z.of_nat (length ws))) body) /\
    ahead s' = t :: rest /\ ready s' /\ advanced s s'.
Proof.
  intros Hr Hws Hbody Ht Ha.
  rewrite (scanner_read_dispatch s ws c_dquote _ Hr Ha Hws eq_refl).
  pose proof Hr as (Hrd & Hp1 & Hp0 & Hc & Hl).
  pose proof Ht as Ht'. unfold text_end in Ht'.
  apply andb_true_iff in Ht' as [Htr Hq]. apply negb_true_iff in Hq.
  assert (Htr' : 1 <= t <= 255) by (unfold between in Htr; bool_to_Z; lia).
  change (char_of_byte c_dquote) with c_dquote.
  destruct (escape c_dquote body ++ c_dquote :: t :: rest)
    as [|h l] eqn:Efull.
  { apply app_eq_nil in Efull as [_ E]. discriminate E. }
  unfold scan_token.
  erewrite bind_eval by reflexivity.
  cbn [source set_had_space_before set_stream set_pending_char
         set_position set_scanned set_source].
  erewrite bind_eval by reflexivity.
  erewrite bind_eval by reflexivity.
  change (c_dquote =? c_dollar) with false. cbv iota.
  erewrite bind_eval by reflexivity.
  cbv iota.
  change (isdigit c_dquote) with false.
  change (utf8_isalpha c_dquote) with false.
  rewrite Z.eqb_refl. cbn [orb]. cbv iota.
  unfold scan_text. cbv zeta.
  change (char_of_byte (byte_of_int c_dquote)) with c_dquote.
  erewrite bind_eval
    by (eapply (nextchar_stream _ _ h l);
        first [reflexivity | cbn; assumption]).
  unfold while.
  match goal with
  | |- context [loop ?f (text_body ?pos _) (?text, _) ?st] =>
      destruct (text_rounds pos t rest body Ht st text
                  (blob_append_data
                     (blob_range (text_new (scanner_position s) []) 0 0)
                     [c_dquote])
                  h l f)
        as (p & src' & E); try reflexivity; try assumption
  end.
  { symmetry. exact Efull. }
  { unfold rounds. cbn [stream set_stream].
    assert (Hlen : length (h :: l)
                   = (length (escape c_dquote body) + S (S (length rest)))%nat)
      by (rewrite <- Efull, length_app; reflexivity).
    cbn [length] in Hlen. pose proof (escape_length c_dquote body). lia. }
  rewrite E. eexists. split; [reflexivity|].
  split.
  { cbn [scanned set_scanned]. unfold blob_append_data, text_new.
    cbn [tree_handler tree_position blob_data app]. do 2 f_equal.
    unfold scanner_position.
    cbn [position pending_char set_had_space_before set_stream
           set_pending_char set_position set_scanned set_source fst snd].
    change (0 =? 0) with true. cbv iota. rewrite !Z.sub_0_r.
    apply advance_u32. }
  split.
  { unfold ahead.
    cbn [pending_char stream set_scanned set_had_space_after
           set_pending_char set_stream fst].
    replace (t =? 0) with false by (symmetry; apply Z.eqb_neq; lia).
    reflexivity. }
  split.
  { unfold ready, levels_closed in *. destruct s.
    cbn in *. repeat split; try assumption; try reflexivity; lia. }
  unfold advanced. destruct s. cbn in *. subst. reflexivity.
Qed.

Lemma scanner_read_text_witness :
  let s0 := scanner_on None
              (c_dquote :: escape c_dquote (str "say 'hi'") ++ [c_dquote; c_plus]) in
  ready s0 /\
  exists s',
    scanner_read s0 = Ok (tokTEXT, s') /\
    scanned s' = scanned_text (text_new 0 (str "say 'hi'")) /\
    ahead s' = [c_plus].
Proof.
  intros s0.
  assert (Hr : ready s0) by (repeat split; cbn; lia).
  split; [exact Hr|].
  destruct (scanner_read_text s0 [] (str "say 'hi'") c_plus [] Hr
              eq_refl eq_refl eq_refl eq_refl)
    as (s' & H1 & H2 & H3 & _).
  exists s'. split; [exact H1|]. split; [exact H2|exact H3].
Defined.
Section StrayBytes.

Lemma stray_char (b : Z) :
  stray b = true ->
  char_of_byte b = b /\ 0 <= b < 128 /\
  isspace b = false /\ isdigit b = false /\ utf8_isalpha b = false /\
  ispunct b = false /\ (b =? c_dollar) = false /\
  (b =? c_dquote) = false /\ (b =? c_quote) = false.
Proof.
  intros H.
  assert (Hr : 0 <= b <= 8 \/ 14 <= b <= 31 \/ b = 127)
    by (unfold stray, between in H; bool_to_Z; lia).
  assert (Hb : 0 <= b < 128) by lia.
  split; [now apply ascii_char|]. split; [exact Hb|].
  unfold utf8_isalpha, utf8_is_first, utf8_is_next.
  rewrite (ascii_byte_of b) by lia.
  unfold c_dollar, c_dquote, c_quote.
  repeat split; ctype_unfold; bool_goal; lia.
Qed.

End StrayBytes.

(** X26.  A control character that is not whitespace stops the
    program: it starts neither a number, a name, a text nor an
    operator, the spelling of the token stays empty, and
    [scanner_normalize] asserts that a spelling is a valid name. *)
Theorem scanner_read_stray_byte (s : scanner_t) (ws : list Z) (b : Z)
    (rest : list Z) :
  ready s ->
  forallb blank ws = true ->
  stray b = true ->
  ahead s = ws ++ b :: rest ->
  scanner_read s = Crash (AssertionFailed "Normalizing invalid name").
Proof.
  intros Hr Hws Hb Ha.
  destruct (stray_char b Hb)
    as (Hc & Hrange & Hsp & Hdig & Halpha & Hpunct & Hdol & Hdq & Hq).
  assert (Hvis : visible b = true)
    by (unfold visible; now rewrite Hc, Hsp).
  rewrite (scanner_read_dispatch s ws b rest Hr Ha Hws Hvis).
  pose proof Hr as (Hrd & Hp1 & Hp0 & Hck & Hl).
  rewrite Hc. unfold scan_token.
  erewrite bind_eval by reflexivity.
  cbn [source set_had_space_before set_stream set_pending_char
         set_position set_scanned set_source].
  erewrite bind_eval by reflexivity.
  erewrite bind_eval by reflexivity.
  rewrite Hdol. erewrite bind_eval by reflexivity.
  cbv iota. rewrite Hdig, Halpha, Hdq, Hq. cbn [orb].
  assert (Hop : is_operator_char b = false)
    by (unfold is_operator_char; now rewrite Hpunct).
  unfold scan_symbol.
  erewrite bind_eval by reflexivity.
  erewrite bind_eval; cycle 1.
  { cbn [syntax set_had_space_before set_stream set_pending_char
           set_position set_scanned set_source].
    destruct (syntax s) as [syn|]; unfold while, rounds;
      (match goal with
       | |- context [loop ?f _ _ _] => replace f with (S (f - 1)) by lia
       end);
      cbn [loop]; unfold symbol_body, discovery_body; rewrite Hop.
    - repeat (erewrite bind_eval by reflexivity). reflexivity.
    - repeat (erewrite bind_eval by reflexivity). reflexivity. }
  cbv iota.
  unfold scanner_ungetchar.
  erewrite bind_eval; cycle 1.
  { erewrite bind_eval by reflexivity.
    erewrite bind_eval by reflexivity. reflexivity. }
  erewrite bind_eval by reflexivity.
  reflexivity.
Qed.

Lemma scanner_read_stray_byte_witness :
  let s := scanner_on None (str " " ++ [7] ++ str "a") in
  ready s /\
  scanner_read s = Crash (AssertionFailed "Normalizing invalid name").
Proof.
  intros s.
  assert (Hr : ready s) by (repeat split; cbn; lia).
  split; [exact Hr|].
  exact (scanner_read_stray_byte s (str " ") 7 (str "a") Hr
           eq_refl eq_refl eq_refl).
Defined.
Section Lines.

Lemma advance_small (n : nat) : forall p,
  0 <= p -> p + Z.of_nat n < 2 ^ 32 -> advance n p = p + Z.of_nat n.
Proof.
  induction n as [|n IH]; intros p H0 H; cbn [advance]; [lia|].
  unfold u32. rewrite Z.mod_small by lia. rewrite IH; lia.
Qed.

Lemma advance_add (n m : nat) (p : Z) :
  advance (n + m) p = advance m (advance n p).
Proof.
  revert p. induction n as [|n IH]; intros p; [reflexivity|].
  cbn [Nat.add advance]. apply IH.
Qed.

(** One round of the whitespace loop on the line feed. *)
Lemma skip_newline_round (pos : Z) (s : scanner_t) (x : Z) (l : list Z)
    (src : blob_t) :
  reader s = true -> pending_char s = (0, 0) -> stream s = x :: l ->
  source s = Some src ->
  skip_spaces_body pos c_newline s
    = Ok (inl (char_of_byte x),
          set_stream l
            (set_position (u32 (position s + 1))
               (set_source (Some (blob_append_data src [c_newline]))
                  (set_column 0
                     (set_checking_indent true
                        (set_had_space_before true s)))))).
Proof.
  intros Hrd Hp Hs Hsrc.
  destruct s. cbn [pending_char reader stream source] in *. subst.
  unfold skip_spaces_body.
  change (isspace c_newline && negb (c_newline =? EOF)) with true.
  change (c_newline =? c_newline) with true. cbv iota.
  unfold scanner_consume, text_append_char, position_step, scanner_getchar,
    when, bind, gets, modify, ret.
  change (byte_of_int c_newline) with c_newline.
  change (c_newline =? 0) with false.
  cbn -[char_of_byte u32 byte_of_int].
  change (char_of_byte 0) with 0. cbn -[char_of_byte u32 byte_of_int].
  reflexivity.
Qed.

(** One round on a space of an indentation made of spaces. *)
Lemma skip_indent_round (pos : Z) (s : scanner_t) (x : Z) (l : list Z) :
  reader s = true -> pending_char s = (0, 0) -> stream s = x :: l ->
  checking_indent s = true ->
  indent_char s = 0 \/ indent_char s = c_space ->
  skip_spaces_body pos c_space s
    = Ok (inl (char_of_byte x),
          set_stream l
            (set_position (u32 (position s + 1))
               (set_column (u32 (column s + 1))
                  (set_indent_char c_space
                     (set_had_space_before true s))))).
Proof.
  intros Hrd Hp Hs Hc Hic.
  destruct s.
  cbn [pending_char reader stream checking_indent indent_char] in *. subst.
  unfold skip_spaces_body.
  change (isspace c_space && negb (c_space =? EOF)) with true.
  change (c_space =? c_newline) with false.
  change ((c_space =? c_space) || (c_space =? c_tab)) with true. cbv iota.
  unfold scanner_consume, text_append_char, position_step, scanner_getchar,
    error, when, bind, gets, modify, ret.
  destruct Hic as [-> | ->]; cbn -[char_of_byte u32]; reflexivity.
Qed.

(** The rounds on the spaces of an indentation. *)
Lemma skip_indent (pos : Z) (k : nat) :
  forall (s : scanner_t) (x : Z) (l : list Z) (fuel : nat),
  reader s = true -> pending_char s = (0, 0) ->
  stream s = repeat c_space k ++ x :: l ->
  checking_indent s = true ->
  indent_char s = 0 \/ indent_char s = c_space ->
  loop (S k + fuel) (skip_spaces_body pos) c_space s
    = loop fuel (skip_spaces_body pos) (char_of_byte x)
        (set_stream l
           (set_position (advance (S k) (position s))
              (set_column (advance (S k) (column s))
                 (set_indent_char c_space (set_had_space_before true s))))).
Proof.
  induction k as [|k IH]; intros s x l fuel Hrd Hp Hs Hc Hic.
  - cbn [repeat app Nat.add loop] in *.
    rewrite (bind_eval _ _ _ _ _ (skip_indent_round pos s x l Hrd Hp Hs Hc Hic)).
    reflexivity.
  - cbn [repeat app] in Hs.
    change (S (S k) + fuel)%nat with (S (S k + fuel)). cbn [loop].
    rewrite (bind_eval _ _ _ _ _
               (skip_indent_round pos s c_space (repeat c_space k ++ x :: l)
                  Hrd Hp Hs Hc Hic)).
    change (char_of_byte c_space) with c_space.
    rewrite (IH _ x l fuel); [|now destruct s..|now right].
    now destruct s.
Qed.

(** [scanner_read] up to the first byte of a new line that is not
    whitespace: the column is the number of spaces before it. *)
Lemma read_begin_line (s : scanner_t) (ws : list Z) (k : nat) (b : Z)
    (rest : list Z) :
  ready s ->
  indent_char s = 0 \/ indent_char s = c_space ->
  forallb blank ws = true -> visible b = true ->
  Z.of_nat k < 2 ^ 32 ->
  ahead s = ws ++ c_newline :: repeat c_space k ++ b :: rest ->
  read_begin s
    = Ok (inr (scanner_position s, char_of_byte b),
          set_column (Z.of_nat k)
            (set_checking_indent true
               (set_indent_char
                  (match k with O => indent_char s | S _ => c_space end)
                  (set_had_space_before true
                     (set_stream rest
                        (set_pending_char (0, 0)
                           (set_position
                              (advance (length ws + 1 + k) (position s))
                              (set_scanned scanned_none
                                 (set_source
                                    (Some (text_new (scanner_position s)
                                             [c_newline])) s))))))))).
Proof.
  intros (Hrd & Hp1 & Hp0 & Hc & Hl) Hic Hws Hb Hk Ha.
  unfold read_begin.
  erewrite bind_eval by reflexivity.
  erewrite bind_eval by reflexivity.
  erewrite bind_eval by reflexivity.
  erewrite bind_eval by reflexivity.
  cbn [reader set_scanned set_source]. rewrite Hrd. cbn [negb].
  erewrite bind_eval by reflexivity.
  erewrite bind_eval by (apply unindent_pending_closed; exact Hl).
  destruct (ws ++ [c_newline]) as [|h l] eqn:Ehead.
  { apply app_eq_nil in Ehead as [_ E]. discriminate E. }
  assert (Ha' : ahead s = h :: l ++ repeat c_space k ++ b :: rest).
  { rewrite Ha. change (c_newline :: repeat c_space k ++ b :: rest)
      with ([c_newline] ++ repeat c_space k ++ b :: rest).
    now rewrite app_assoc, Ehead. }
  erewrite bind_eval
    by (apply (getchar_ahead _ h (l ++ repeat c_space k ++ b :: rest));
        assumption).
  erewrite bind_eval by reflexivity.
  set (s2 := set_had_space_before false _).
  assert (Hfuel : exists fuel,
            rounds s2 = (length ws + 1 + (k + S fuel))%nat).
  { unfold rounds. subst s2. cbn [stream set_stream set_had_space_before].
    exists (2 * length (l ++ repeat c_space k ++ b :: rest) + 6
            - (length ws + 1 + k) - 1)%nat.
    assert (length (h :: l) = length ws + 1)%nat
      by (rewrite <- Ehead, length_app; reflexivity).
    cbn [length] in *. rewrite !length_app, repeat_length. cbn [length]. lia. }
  destruct Hfuel as [fuel Hfuel].
  (* the blanks and the line feed *)
  assert (Hline : forall x l',
    repeat c_space k ++ b :: rest = x :: l' ->
    loop (length ws + 1 + (k + S fuel)) (skip_spaces_body (scanner_position s))
      (char_of_byte h) s2
    = loop (k + S fuel) (skip_spaces_body (scanner_position s))
        (char_of_byte x)
        (set_stream l'
           (set_position (advance (length ws + 1) (position s))
              (set_source
                 (Some (text_new (scanner_position s) [c_newline]))
                 (set_column 0
                    (set_checking_indent true
                       (set_had_space_before true s2))))))).
  { intros x l' Etail. subst s2. rewrite Etail. clear Hfuel.
    destruct ws as [|w ws].
    - cbn [app] in Ehead. injection Ehead as <- <-.
      cbn [length Nat.add app]. cbn [loop].
      change (char_of_byte c_newline) with c_newline.
      erewrite bind_eval
        by (apply (skip_newline_round _ _ x l'
                     (text_new (scanner_position s) []));
            first [reflexivity | exact Hrd]).
      now destruct s.
    - cbn [app] in Ehead. injection Ehead as <- <-.
      cbn [forallb] in Hws. apply andb_true_iff in Hws as [Hw Hws].
      replace (length (w :: ws) + 1 + (k + S fuel))%nat
        with (S (length ws) + S (k + S fuel))%nat by (cbn [length]; lia).
      rewrite (skip_blanks _ ws _ w c_newline (x :: l'));
        try reflexivity; try assumption; try exact Hrd.
      2:{ cbn. now rewrite <- app_assoc. }
      cbn [loop]. change (char_of_byte c_newline) with c_newline.
      erewrite bind_eval
        by (apply (skip_newline_round _ _ x l'
                     (text_new (scanner_position s) []));
            first [reflexivity | exact Hrd]).
      replace (length (w :: ws) + 1)%nat with (S (S (length ws)))
        by (cbn [length]; lia).
      rewrite (advance_S (S (length ws))).
      now destruct s. }
  destruct k as [|k].
  - erewrite bind_eval; cycle 1.
    { unfold while. rewrite Hfuel.
      rewrite (Hline b rest eq_refl). cbn [Nat.add].
      rewrite skip_spaces_done by exact Hb. reflexivity. }
    rewrite Nat.add_0_r. subst s2. now destruct s.
  - erewrite bind_eval; cycle 1.
    { unfold while. rewrite Hfuel.
      rewrite (Hline c_space (repeat c_space k ++ b :: rest) eq_refl).
      change (char_of_byte c_space) with c_space.
      rewrite (skip_indent _ k _ b rest (S fuel)); try reflexivity;
        try exact Hrd.
      2:{ subst s2. cbn. exact Hic. }
      rewrite skip_spaces_done by exact Hb. reflexivity. }
    subst s2.
    cbn [position column set_stream set_position set_source set_column
           set_checking_indent set_had_space_before set_pending_char
           set_scanned set_indent_char].
    rewrite <- advance_add.
    rewrite (advance_small (S k) 0) by lia.
    destruct s. cbn [Z.add]. reflexivity.
Qed.

End Lines.

(** X27.  After a line feed, the column of the first byte that is not
    whitespace is the number of spaces before it.  When it is deeper
    than the indentation, [scanner_read] returns INDENT and pushes it;
    when it is the indentation and the stack has a level, it returns
    NEWLINE and the levels stay.  Either way the byte is pushed back
    and no error is reported. *)
Theorem scanner_read_line (s : scanner_t) (ws : list Z) (k : nat) (b : Z)
    (rest : list Z) :
  ready s -> setting_indent s = false ->
  indent_char s = 0 \/ indent_char s = c_space ->
  forallb blank ws = true -> visible b = true -> 1 <= b < 256 ->
  Z.of_nat k < 2 ^ 32 ->
  indent s < Z.of_nat k \/ (indent s = Z.of_nat k /\ indents s <> []) ->
  ahead s = ws ++ c_newline :: repeat c_space k ++ b :: rest ->
  exists s',
    scanner_read s
      = Ok (if indent s <? Z.of_nat k then tokINDENT else tokNEWLINE, s') /\
    indents s'
      = (if indent s <? Z.of_nat k
         then TypedBlob.push (indents s) (Z.of_nat k) else indents s) /\
    indent s' = Z.of_nat k /\ column s' = Z.of_nat k /\
    ahead s' = b :: rest /\ ready s' /\ sink s' = sink s.
Proof.
  intros Hr Hset Hic Hws Hb Hbr Hk Hcase Ha.
  pose proof Hr as (Hrd & Hp1 & Hp0 & Hc & Hl).
  unfold scanner_read.
  rewrite (bind_eval _ _ _ _ _ (read_begin_line s ws k b rest Hr Hic Hws Hb Hk Ha)).
  erewrite bind_eval by reflexivity.
  cbn [checking_indent set_column set_checking_indent].
  unfold indent_decision, scanner_ungetchar.
  erewrite bind_eval; cycle 1.
  { erewrite bind_eval by reflexivity.
    erewrite bind_eval by reflexivity.
    rewrite (byte_of_char b) by lia. reflexivity. }
  erewrite bind_eval by reflexivity.
  erewrite bind_eval by reflexivity.
  erewrite bind_eval by reflexivity.
  erewrite bind_eval by reflexivity.
  cbn [setting_indent column indent set_column set_checking_indent
         set_indent_char set_had_space_before set_stream set_pending_char
         set_position set_scanned set_source].
  rewrite Hset.
  assert (Hnz : (b =? 0) = false) by (apply Z.eqb_neq; lia).
  destruct Hcase as [Hdeep | [Hsame Hne]].
  - replace (indent s <? Z.of_nat k) with true
      by (symmetry; now apply Z.ltb_lt).
    erewrite bind_eval by reflexivity.
    unfold indents_push. erewrite bind_eval by reflexivity.
    eexists. split; [reflexivity|].
    unfold ahead, ready, levels_closed.
    destruct s. cbn -[TypedBlob.top TypedBlob.push Z.leb] in *.
    rewrite top_push, Hnz, Z.leb_refl.
    repeat split; try reflexivity; try assumption; lia.
  - replace (indent s <? Z.of_nat k) with false
      by (symmetry; apply Z.ltb_ge; lia).
    unfold levels_closed in Hl.
    destruct (top_cases (indents s)) as [E | (top & Htop & _)];
      [contradiction|].
    rewrite Htop in Hl. apply Z.leb_le in Hl.
    unfold indents_top.
    erewrite bind_eval; cycle 1.
    { erewrite bind_eval by reflexivity.
      cbn [indents set_column set_checking_indent set_indent_char
             set_had_space_before set_stream set_pending_char set_position
             set_scanned set_source].
      rewrite Htop. reflexivity. }
    replace (Z.of_nat k <? top) with false
      by (symmetry; apply Z.ltb_ge; lia).
    eexists. split; [reflexivity|].
    unfold ahead, ready, levels_closed.
    destruct s. cbn -[TypedBlob.top Z.leb] in *.
    rewrite Htop, Hnz. subst.
    repeat split; try reflexivity; try assumption; try lia.
Qed.

Lemma scanner_read_line_witness :
  let s := scanner_on None (str (NL ++ "   x")%string) in
  ready s /\
  exists s',
    scanner_read s = Ok (tokINDENT, s') /\
    indents s' = [3] /\ indent s' = 3 /\ ahead s' = str "x".
Proof.
  intros s.
  assert (Hr : ready s) by (repeat split; cbn; lia).
  split; [exact Hr|].
  assert (Hb : 1 <= 120 < 256) by lia.
  assert (Hk : Z.of_nat 3 < 2 ^ 32) by (cbn; lia).
  assert (Hd : indent s < Z.of_nat 3) by (cbn; lia).
  destruct (scanner_read_line s [] 3 120 [] Hr eq_refl (or_introl eq_refl)
              eq_refl eq_refl Hb Hk (or_introl Hd) eq_refl)
    as (s' & H1 & H2 & H3 & _ & H5 & _).
  exists s'. split; [exact H1|]. split; [exact H2|]. split; [exact H3|exact H5].
Defined.
(** ** Skipping to a closing marker: [scanner_skip] *)

Section Skipping.

(** The bytes of a valid name are ASCII characters other than NUL. *)
Lemma valid_name_chars (src : list Z) (b : Z) :
  name_is_valid src = true -> In b src -> 1 <= char_of_byte b <= 127.
Proof.
  intros Hv Hin.
  destruct (name_is_valid_class src Hv)
    as [Hne Hall | d rest -> Ha Hall Hdd | d -> Hm].
  - pose proof (proj1 (forallb_forall _ _) Hall b Hin) as H.
    cbv beta in H. revert H. generalize (char_of_byte b). intros c H. ctype_solve.
  - destruct Hin as [<- | Hin].
    + revert Ha. generalize (char_of_byte d). intros c H. ctype_solve.
    + pose proof (proj1 (forallb_forall _ _) Hall b Hin) as H.
      unfold name_byte in H.
      revert H. generalize (char_of_byte b). intros c H.
      unfold c_underscore in H. ctype_solve.
  - destruct Hin as [<- | []].
    revert Hm. generalize (char_of_byte d). intros c Hm.
    unfold c_newline, c_tab, c_backspace in Hm. lia.
Qed.

(** One round of the loop on a byte of the stream. *)
Lemma skip_round (closing : blob_t) (matched : nat) (mb : Z)
    (h : handler) (p : Z) (d : list Z) (c : Z) (st : scanner_t)
    (b : Z) (l : list Z) :
  nth_error (blob_data closing) matched = Some mb ->
  char_of_byte mb <> 0 -> c <> EOF ->
  reader st = true -> pending_char st = (0, 0) -> stream st = b :: l ->
  source st <> None ->
  exists st',
    skip_body closing (matched, mkblob h p d, c) st
      = (matched' <- (if char_of_byte b =? char_of_byte mb
                      then ret (S matched)
                      else lift (skip_backtrack (blob_data closing) d
                                   matched)) ;;
         ret (inl (matched',
                   mkblob h p
                     (d ++ map (fun b => byte_of_int (char_of_byte b))
                             (stripped (indent st) (column st)
                                (checking_indent st) [b])),
                   char_of_byte b))) st'
    /\ reader st' = true /\ pending_char st' = (0, 0) /\ stream st' = l
    /\ source st' <> None /\ indent st' = indent st
    /\ forall data,
         stripped (indent st) (column st) (checking_indent st) (b :: data)
           = stripped (indent st) (column st) (checking_indent st) [b]
             ++ stripped (indent st') (column st') (checking_indent st') data.
Proof.
  intros Hm Hmb Hc Hrd Hp Hs Hsrc.
  destruct (source st) as [src|] eqn:Esrc; [clear Hsrc|congruence].
  unfold skip_body. unfold closing_char at 1. rewrite Hm.
  apply Z.eqb_neq in Hmb, Hc.
  unfold bind at 1, ret at 1. rewrite Hmb, Hc. cbn [negb andb].
  erewrite bind_eval by (apply (nextchar_stream st c b l src); assumption).
  unfold closing_char. rewrite Hm.
  destruct st. cbn [pending_char reader stream source indent column
                      checking_indent] in *. subst.
  unfold bind, gets, modify, ret.
  cbn -[char_of_byte byte_of_int u32 Z.eqb Z.ltb isspace stripped].
  cbn [stripped].
  destruct (char_of_byte b =? c_newline) eqn:En;
    [|destruct checking_indent0;
      [destruct (isspace (char_of_byte b)) eqn:Esp;
       [cbn -[char_of_byte byte_of_int u32 Z.eqb Z.ltb isspace stripped];
        destruct (column0 <? indent0) eqn:Ecol|]|]];
    cbn [map]; rewrite ?app_nil_r;
    (eexists; split; [reflexivity|]; cbn [reader pending_char stream source
       indent column checking_indent set_stream set_position set_source
       set_checking_indent set_column];
     repeat split; try discriminate;
     try (intros data; cbn [stripped]; now rewrite ?En, ?Esp, ?Ecol)).
Qed.

(** The round that meets the end of the stream. *)
Lemma skip_round_end (closing : blob_t) (matched : nat) (mb : Z)
    (h : handler) (p : Z) (d : list Z) (c : Z) (st : scanner_t) :
  nth_error (blob_data closing) matched = Some mb ->
  1 <= char_of_byte mb <= 127 -> c <> EOF ->
  reader st = true -> pending_char st = (0, 0) -> stream st = [] ->
  source st <> None ->
  exists st',
    skip_body closing (matched, mkblob h p d, c) st
      = (matched' <- lift (skip_backtrack (blob_data closing) d matched) ;;
         ret (inl (matched', mkblob h p (d ++ [255]), EOF))) st'
    /\ reader st' = false /\ stream st' = [].
Proof.
  intros Hm Hmb Hc Hrd Hp Hs Hsrc.
  destruct (source st) as [src|] eqn:Esrc; [clear Hsrc|congruence].
  unfold skip_body. unfold closing_char. rewrite Hm.
  assert (Hmb0 : (char_of_byte mb =? 0) = false) by (apply Z.eqb_neq; lia).
  assert (Hmbe : (EOF =? char_of_byte mb) = false)
    by (apply Z.eqb_neq; unfold EOF; lia).
  apply Z.eqb_neq in Hc.
  unfold bind at 1, ret at 1. rewrite Hmb0, Hc. cbn [negb andb].
  destruct st. cbn [pending_char reader stream source] in *. subst.
  unfold scanner_nextchar, scanner_consume, text_append_char, position_step,
    scanner_getchar, when, bind, gets, modify, ret.
  revert Hmbe. generalize (char_of_byte mb). intros m Hmbe.
  destruct (byte_of_int c =? 0), checking_indent0;
    repeat (progress
      (cbn -[u32 Z.eqb]; change (0 =? 0) with true;
       change (EOF =? c_newline) with false; rewrite ?Hmbe));
    (eexists; split; [reflexivity|]; now split).
Qed.

(** At [EOF] the loop is left. *)
Lemma skip_round_eof (closing : blob_t) (matched : nat) (mb : Z)
    (comment : blob_t) (st : scanner_t) :
  nth_error (blob_data closing) matched = Some mb ->
  skip_body closing (matched, comment, EOF) st
    = Ok (inr (matched, comment), st).
Proof.
  intros Hm. unfold skip_body, closing_char. rewrite Hm.
  unfold bind, ret. rewrite Z.eqb_refl. cbn [negb].
  now rewrite andb_false_r.
Qed.

Lemma outside_byte (closing : blob_t) (e : Z) (rest : list Z) (b : Z) :
  blob_data closing = e :: rest ->
  outside closing b = true ->
  0 <= b < 255 /\ (char_of_byte b =? char_of_byte e) = false
  /\ char_of_byte b <> EOF.
Proof.
  intros Hd H. unfold outside in H. rewrite Hd in H. cbn [hd] in H.
  apply andb_true_iff in H as [H1 H2]. apply negb_true_iff in H2.
  split; [unfold between in H1; bool_to_Z; lia|]. split; [exact H2|].
  unfold EOF, char_of_byte, between in *.
  destruct (b <? 128) eqn:E2; bool_to_Z; lia.
Qed.

(** The rounds on bytes that are none of the first byte of the closing
    name: nothing matches, and the bytes go to the comment but for the
    indentation that is skipped. *)
Lemma skip_plain_rounds (closing : blob_t) (e : Z) (rest : list Z) :
  blob_data closing = e :: rest -> 1 <= char_of_byte e <= 127 ->
  forall (data more : list Z) (fuel : nat) (h : handler) (p : Z)
    (d : list Z) (c : Z) (st : scanner_t),
  c <> EOF -> reader st = true -> pending_char st = (0, 0) ->
  stream st = data ++ more -> source st <> None ->
  forallb (outside closing) data = true ->
  exists st' c',
    loop (length data + fuel) (skip_body closing) (O, mkblob h p d, c) st
      = loop fuel (skip_body closing)
          (O, mkblob h p
                (d ++ stripped (indent st) (column st) (checking_indent st)
                        data), c') st'
    /\ c' <> EOF /\ reader st' = true /\ pending_char st' = (0, 0)
    /\ stream st' = more /\ source st' <> None.
Proof.
  intros Hd He. induction data as [|b data IH];
    intros more fuel h p d c st Hc Hrd Hp Hs Hsrc Hall.
  - exists st, c. cbn [length Nat.add stripped app] in *.
    rewrite app_nil_r. now repeat split.
  - cbn [forallb] in Hall. apply andb_true_iff in Hall as [Hb Hall].
    destruct (outside_byte closing e rest b Hd Hb) as (Hrange & Hne & Heof).
    assert (Hm : nth_error (blob_data closing) 0 = Some e) by now rewrite Hd.
    destruct (skip_round closing 0 e h p d c st b (data ++ more) Hm
                ltac:(lia) Hc Hrd Hp Hs Hsrc)
      as (st1 & Hround & Hrd1 & Hp1 & Hs1 & Hsrc1 & Hind & Hstrip).
    rewrite Hne in Hround. cbn [skip_backtrack] in Hround.
    assert (Hkept : map (fun b => byte_of_int (char_of_byte b))
                      (stripped (indent st) (column st) (checking_indent st)
                         [b])
                    = stripped (indent st) (column st) (checking_indent st)
                        [b]).
    { cbn [stripped].
      destruct (char_of_byte b =? c_newline), (checking_indent st),
        (isspace (char_of_byte b)), (column st <? indent st);
        cbn [map]; rewrite ?byte_of_char by lia; reflexivity. }
    rewrite Hkept in Hround.
    destruct (IH more fuel h p
                (d ++ stripped (indent st) (column st) (checking_indent st)
                        [b])
                (char_of_byte b) st1 Heof Hrd1 Hp1 Hs1 Hsrc1 Hall)
      as (st' & c' & Hloop & Hrest).
    exists st', c'. split; [|exact Hrest].
    cbn [length Nat.add loop].
    rewrite (bind_eval _ _ _ _ _ Hround). cbv beta iota.
    rewrite Hloop, (Hstrip data), app_assoc. reflexivity.
Qed.

(** The rounds on the bytes of the closing name, each of which
    matches. *)
Lemma skip_match_rounds (closing : blob_t) (more : list Z) :
  (forall b, In b (blob_data closing) -> 1 <= char_of_byte b <= 127) ->
  forall (suf pre : list Z) (fuel : nat) (comment : blob_t) (c : Z)
    (st : scanner_t),
  blob_data closing = pre ++ suf ->
  c <> EOF -> reader st = true -> pending_char st = (0, 0) ->
  stream st = suf ++ more -> source st <> None ->
  exists st' comment' c',
    loop (length suf + fuel) (skip_body closing) (length pre, comment, c) st
      = loop fuel (skip_body closing)
          (length (blob_data closing), comment', c') st'.
Proof.
  intros Hchars. induction suf as [|b suf IH];
    intros pre fuel comment c st Hd Hc Hrd Hp Hs Hsrc.
  - exists st, comment, c. rewrite Hd, app_nil_r. reflexivity.
  - assert (Hb : 1 <= char_of_byte b <= 127).
    { apply Hchars. rewrite Hd. apply in_or_app. right. now left. }
    assert (Hm : nth_error (blob_data closing) (length pre) = Some b).
    { rewrite Hd, nth_error_app2 by lia. now rewrite Nat.sub_diag. }
    destruct comment as [h p d].
    destruct (skip_round closing (length pre) b h p d c st b (suf ++ more) Hm
                ltac:(lia) Hc Hrd Hp Hs Hsrc)
      as (st1 & Hround & Hrd1 & Hp1 & Hs1 & Hsrc1 & _).
    rewrite Z.eqb_refl in Hround.
    assert (Hd' : blob_data closing = (pre ++ [b]) ++ suf)
      by now rewrite <- app_assoc.
    assert (Heof : char_of_byte b <> EOF) by (unfold EOF; lia).
    destruct (IH (pre ++ [b]) fuel
                (mkblob h p
                   (d ++ map (fun b => byte_of_int (char_of_byte b))
                           (stripped (indent st) (column st)
                              (checking_indent st) [b])))
                (char_of_byte b) st1 Hd' Heof Hrd1 Hp1 Hs1 Hsrc1)
      as (st' & comment' & c' & Hloop).
    exists st', comment', c'.
    cbn [length Nat.add loop].
    rewrite (bind_eval _ _ _ _ _ Hround). cbv beta iota.
    rewrite <- Hloop. rewrite length_app. cbn [length].
    now rewrite Nat.add_1_r.
Qed.

(** After the last byte of the closing name, the test of the loop reads
    the byte that follows the name. *)
Lemma skip_round_past (closing : blob_t) (fuel : nat) (comment : blob_t)
    (c : Z) (st : scanner_t) :
  loop (S fuel) (skip_body closing)
    (length (blob_data closing), comment, c) st
    = Crash (UndefinedBehaviour "byte read after the end of a name").
Proof.
  cbn [loop]. unfold skip_body, closing_char, bind.
  replace (nth_error (blob_data closing) (length (blob_data closing)))
    with (@None Z); [reflexivity|].
  symmetry. apply nth_error_None. lia.
Qed.

Lemma skip_backtrack_no_fuel (eoc comment : list Z) (matched : nat) :
  skip_backtrack eoc comment matched <> Crash OutOfFuel.
Proof.
  induction matched as [|m IH]; cbn [skip_backtrack]; [discriminate|].
  destruct ((S m <=? length comment)%nat && (S m <=? length eoc)%nat);
    [|discriminate].
  destruct (list_eq_dec Z.eq_dec (firstn (S m) eoc)
              (skipn (length comment - S m) comment));
    [discriminate|exact IH].
Qed.

Lemma closing_char_supply (closing : blob_t) (matched : nat) :
  preserves supply (closing_char closing matched).
Proof. unfold closing_char. preserves_tac. Qed.

(** A round of the loop that goes on has taken a character. *)
Lemma skip_body_progress (closing : blob_t) :
  progresses (fun st => snd st) (skip_body closing).
Proof.
  intros [[matched comment] c] s r s' H. unfold skip_body in H. cbn [snd].
  apply bind_inv in H as (m & s1 & H1 & H).
  apply closing_char_supply, supply_available in H1.
  destruct (negb (m =? 0) && negb (c =? EOF)) eqn:E;
    [|injection H as <- <-; exact I].
  apply andb_true_iff in E as [_ Ec]. apply negb_true_iff in Ec.
  apply bind_inv in H as (c' & s2 & H2 & H).
  apply (nextchar_within 0) in H2.
  apply bind_inv in H as (checking & s3 & H3 & H). injection H3 as _ <-.
  apply bind_inv in H as (skip & s4 & H4 & H).
  assert (Hs4 : available s4 = available s2).
  { apply supply_available. revert H4. generalize s2 skip s4.
    change (preserves supply
              (if c' =? c_newline
               then modify (set_checking_indent true) ;;
                    modify (set_column 0) ;; ret false
               else if checking
                    then if isspace c'
                         then col <- gets column ;;
                              ind <- gets indent ;; ret (col <? ind)
                         else modify (set_checking_indent false) ;; ret false
                    else ret false)).
    preserves_tac. }
  apply bind_inv in H as (m' & s5 & H5 & H).
  apply closing_char_supply, supply_available in H5.
  apply bind_inv in H as (matched' & s6 & H6 & H).
  assert (Hs6 : available s6 = available s5).
  { apply supply_available. revert H6. generalize s5 matched' s6.
    change (preserves supply
              (if c' =? m' then ret (S matched)
               else lift (skip_backtrack (blob_data closing)
                            (blob_data comment) matched))).
    preserves_tac. }
  injection H as <- <-. cbn [snd]. unfold potential.
  rewrite (weight_not_eof c Ec). lia.
Qed.

(** The loop of [scanner_skip] on an input that ends before the closing
    name starts. *)
Lemma skip_while_end (closing : blob_t) (s : scanner_t) (pos : Z) :
  name_is_valid (blob_data closing) = true ->
  reader s = true -> pending_char s = (0, 0) -> source s <> None ->
  forallb (outside closing) (stream s) = true ->
  exists s',
    while (skip_body closing) (O, text_new pos [], 0) s
      = Ok ((O, text_new pos
                  (stripped (indent s) (column s) (checking_indent s)
                     (stream s) ++ [255])), s')
    /\ reader s' = false /\ stream s' = [].
Proof.
  intros Hv Hrd Hp Hsrc Hall.
  destruct (blob_data closing) as [|e rest] eqn:Hd; [discriminate Hv|].
  assert (He : 1 <= char_of_byte e <= 127).
  { apply (valid_name_chars (e :: rest)); [exact Hv|now left]. }
  assert (Hm : nth_error (blob_data closing) 0 = Some e) by now rewrite Hd.
  assert (Hs : stream s = stream s ++ []) by now rewrite app_nil_r.
  unfold while, rounds.
  replace (2 * length (stream s) + 6)%nat
    with (length (stream s) + S (S (length (stream s) + 4)))%nat by lia.
  destruct (skip_plain_rounds closing e rest Hd He (stream s) []
              (S (S (length (stream s) + 4))) text_handler pos [] 0 s
              ltac:(discriminate) Hrd Hp Hs Hsrc Hall)
    as (s1 & c1 & Hloop & Hc1 & Hrd1 & Hp1 & Hs1 & Hsrc1).
  unfold text_new. rewrite Hloop. cbn [app].
  destruct (skip_round_end closing 0 e text_handler pos
              (stripped (indent s) (column s) (checking_indent s) (stream s))
              c1 s1 Hm He Hc1 Hrd1 Hp1 Hs1 Hsrc1)
    as (s2 & Hend & Hrd2 & Hs2).
  cbn [skip_backtrack] in Hend.
  exists s2. split; [|now split].
  cbn [loop].
  rewrite (bind_eval _ _ _ _ _ Hend). cbv beta iota.
  erewrite bind_eval by (apply (skip_round_eof closing 0 e); exact Hm).
  reflexivity.
Qed.

(** The loop of [scanner_skip] on an input that holds the closing
    name. *)
Lemma skip_while_closing (closing : blob_t) (s : scanner_t)
    (body rest : list Z) (comment : blob_t) :
  name_is_valid (blob_data closing) = true ->
  reader s = true -> pending_char s = (0, 0) -> source s <> None ->
  stream s = body ++ blob_data closing ++ rest ->
  forallb (outside closing) body = true ->
  while (skip_body closing) (O, comment, 0) s
    = Crash (UndefinedBehaviour "byte read after the end of a name").
Proof.
  intros Hv Hrd Hp Hsrc Hs Hall.
  destruct (blob_data closing) as [|e tl] eqn:Hd; [discriminate Hv|].
  assert (Hchars : forall b, In b (blob_data closing) ->
                     1 <= char_of_byte b <= 127).
  { intros b Hin. apply (valid_name_chars (e :: tl)); [exact Hv|].
    now rewrite <- Hd. }
  assert (He : 1 <= char_of_byte e <= 127).
  { apply Hchars. rewrite Hd. now left. }
  unfold while, rounds. rewrite Hs, !length_app.
  replace (2 * (length body + (length (e :: tl) + length rest)) + 6)%nat
    with (length body
          + (length (e :: tl)
             + S (length body + length (e :: tl) + 2 * length rest + 5)))%nat
    by lia.
  destruct comment as [h p d].
  destruct (skip_plain_rounds closing e tl Hd He body ((e :: tl) ++ rest)
              (length (e :: tl)
               + S (length body + length (e :: tl) + 2 * length rest + 5))
              h p d 0 s ltac:(discriminate) Hrd Hp Hs Hsrc Hall)
    as (s1 & c1 & Hloop & Hc1 & Hrd1 & Hp1 & Hs1 & Hsrc1).
  rewrite Hloop.
  destruct (skip_match_rounds closing rest Hchars (e :: tl) []
              (S (length body + length (e :: tl) + 2 * length rest + 5))
              (mkblob h p
                 (d ++ stripped (indent s) (column s) (checking_indent s)
                         body))
              c1 s1 Hd Hc1 Hrd1 Hp1 Hs1 Hsrc1)
    as (s2 & comment2 & c2 & Hmatch).
  cbn [length] in Hmatch |- *. rewrite Hmatch.
  apply skip_round_past.
Qed.

End Skipping.

(** X28.  When the input ends before the closing name starts,
    [scanner_skip] returns the bytes it has read, less the whitespace
    that starts a line while the column is below the indentation, and
    after them the byte 255 that [EOF] leaves when it is stored as a
    [char]; the scanner is then at the end of its input. *)
Theorem scanner_skip_end_of_input (closing : blob_t) (s : scanner_t) :
  name_is_valid (blob_data closing) = true ->
  reader s = true -> pending_char s = (0, 0) ->
  forallb (outside closing) (stream s) = true ->
  exists s',
    scanner_skip closing s
      = Ok (text_new (scanner_position s)
              (stripped (indent s) (column s) (checking_indent s) (stream s)
               ++ [255]), s')
    /\ reader s' = false /\ stream s' = [].
Proof.
  intros Hv Hrd Hp Hall.
  destruct (skip_while_end closing
              (set_scanned scanned_none
                 (set_source (Some (text_new (scanner_position s) [])) s))
              (scanner_position s) Hv Hrd Hp ltac:(discriminate) Hall)
    as (s' & Hw & Hrd' & Hs').
  exists s'. split; [|now split].
  unfold scanner_skip.
  erewrite bind_eval by reflexivity.
  erewrite bind_eval by reflexivity.
  erewrite bind_eval by reflexivity.
  rewrite (bind_eval _ _ _ _ _ Hw). cbv beta iota.
  unfold ret, blob_range, text_new, blob_length.
  cbn [blob_data tree_handler tree_position Nat.leb skipn].
  now rewrite Nat.sub_0_r, firstn_all.
Qed.

Lemma scanner_skip_end_of_input_witness :
  exists s',
    scanner_skip (mkblob name_handler 0 (str "*/"))
      (set_indent 2 (scanner_on None (str ("ab" ++ NL ++ "   c"))))
      = Ok (text_new 0 (str ("ab" ++ NL ++ "c") ++ [255]), s')
    /\ reader s' = false /\ stream s' = [].
Proof.
  apply (scanner_skip_end_of_input (mkblob name_handler 0 (str "*/"))
           (set_indent 2 (scanner_on None (str ("ab" ++ NL ++ "   c")))));
    reflexivity.
Defined.

(** X29.  When the input holds the closing name, [scanner_skip] comes
    to a read outside the name: once the last byte of the name has
    matched, the test of the loop reads [*match] one byte after the end
    of the name, which [name_handler] allocates with no terminating
    zero.  What [scanner_skip] then does depends on the byte found
    there. *)
Theorem scanner_skip_closing (closing : blob_t) (s : scanner_t)
    (body rest : list Z) :
  name_is_valid (blob_data closing) = true ->
  reader s = true -> pending_char s = (0, 0) ->
  stream s = body ++ blob_data closing ++ rest ->
  forallb (outside closing) body = true ->
  scanner_skip closing s
    = Crash (UndefinedBehaviour "byte read after the end of a name").
Proof.
  intros Hv Hrd Hp Hs Hall.
  pose proof (skip_while_closing closing
                (set_scanned scanned_none
                   (set_source (Some (text_new (scanner_position s) [])) s))
                body rest (text_new (scanner_position s) [])
                Hv Hrd Hp ltac:(discriminate) Hs Hall) as Hw.
  unfold scanner_skip.
  erewrite bind_eval by reflexivity.
  erewrite bind_eval by reflexivity.
  erewrite bind_eval by reflexivity.
  unfold bind at 1. now rewrite Hw.
Qed.

Lemma scanner_skip_closing_witness :
  scanner_skip (mkblob name_handler 0 (str "*/"))
    (scanner_on None (str "a comment */ b"))
    = Crash (UndefinedBehaviour "byte read after the end of a name").
Proof.
  apply (scanner_skip_closing (mkblob name_handler 0 (str "*/"))
           (scanner_on None (str "a comment */ b"))
           (str "a comment ") (str " b")); reflexivity.
Defined.

(** X30.  [scanner_skip] comes to an end whatever the input and the
    closing name: each round of its loop takes a character, so that the
    bound the loop has in this development is never what stops it. *)
Theorem scanner_skip_terminates (closing : blob_t) (s : scanner_t) :
  scanner_skip closing s <> Crash OutOfFuel.
Proof.
  revert s. change (bounded (scanner_skip closing)).
  unfold scanner_skip.
  apply bounded_bind; [apply bounded_gets|]. intros pos.
  apply bounded_bind; [apply bounded_modify|]. intros _.
  apply bounded_bind; [apply bounded_modify|]. intros _.
  apply bounded_bind.
  - apply (bounded_while (fun st => snd st)); [|apply skip_body_progress].
    intros [[matched comment] c]. unfold skip_body, closing_char.
    pose proof skip_backtrack_no_fuel. bounded_tac.
  - intros [matched comment]. apply bounded_ret.
Qed.
